(** * CardaLabs SDK: the multi-provider aggregation core

    A shallow embedding of the TypeScript sources

      - [src/utils/errors.ts]                 ([ErrorHandler], [ErrorRecovery],
                                              [ErrorAggregator], [RetryExecutor],
                                              [CircuitBreaker])
      - [src/types/errors.ts]                 (the error classes, [ERROR_METADATA])
      - [src/sdk/cache/memory-cache.ts]       ([MemoryCache])
      - [src/sdk/cache/cache-key-builder.ts]  ([DefaultCacheKeyBuilder],
                                              [SimpleCacheKeyBuilder])
      - [src/sdk/aggregator/field-router.ts]  ([FieldRouter])
      - [src/sdk/aggregator/data-aggregator.ts] ([DataAggregator])

    Conventions of the embedding.

      - A JavaScript [Map] iterates in insertion order and the code depends
        on that order, so maps are association lists ([JsMap]).
      - [Date.now()] is an explicit argument (milliseconds, [Z]).
      - A rejected promise / thrown exception is an explicit [Throw] result.
      - IEEE doubles: integer-valued quantities are [Z]; the retry delay is
        computed over [Q] with an explicit rounding operator [rnd] that is
        only assumed monotone and exact on small integers; the router's
        running averages are idealised as exact rationals. *)

From Stdlib Require Import List String Ascii Bool ZArith QArith Qround Qpower Qminmax Lia Lqa.
From Stdlib Require Import DecimalString Permutation.
Import ListNotations.

Local Open Scope string_scope.
Local Open Scope Z_scope.

(** ** JavaScript helpers *)

(** [x || y] on strings: the empty string is falsy. *)
Definition truthy (s : string) : bool := negb (s =? "")%string.

Definition or_else (s d : string) : string := if truthy s then s else d.

(** [Array.prototype.includes] on an array of strings. *)
Definition includes (x : string) (l : list string) : bool :=
  existsb (String.eqb x) l.

(** Template-literal rendering of an integer. *)
Definition show_Z (z : Z) : string := NilZero.string_of_int (Z.to_int z).

(** [Array.from(new Set(xs))]: the first occurrence of every element,
    in order. *)
Fixpoint dedup_from (seen xs : list string) : list string :=
  match xs with
  | [] => []
  | x :: xs' =>
      if includes x seen then dedup_from seen xs'
      else x :: dedup_from (x :: seen) xs'
  end.

Definition dedup (xs : list string) : list string := dedup_from [] xs.

(** Completion of a computation that may throw an [Error] with a message. *)
Record JsError := mkError { message : string }.

Inductive Completion (A : Type) : Type :=
| Normal (a : A)
| Throw (e : JsError).
Arguments Normal {A} a.
Arguments Throw {A} e.

Definition bindC {A B} (c : Completion A) (k : A -> Completion B) : Completion B :=
  match c with
  | Normal a => k a
  | Throw e => Throw e
  end.

(** ** Insertion-ordered maps with string keys ([Map<string, V>]) *)

Module JsMap.
Section Defs.
Context {V : Type}.

Definition t := list (string * V).

Definition empty : t := [].

Fixpoint get (k : string) (m : t) : option V :=
  match m with
  | [] => None
  | (k', v) :: m' => if (k =? k')%string then Some v else get k m'
  end.

Definition has (k : string) (m : t) : bool :=
  match get k m with Some _ => true | None => false end.

(** [Map.prototype.set]: an existing key keeps its position, a new key is
    appended. *)
Fixpoint set (k : string) (v : V) (m : t) : t :=
  match m with
  | [] => [(k, v)]
  | (k', v') :: m' =>
      if (k =? k')%string then (k', v) :: m' else (k', v') :: set k v m'
  end.

Definition delete (k : string) (m : t) : t :=
  filter (fun kv => negb (k =? fst kv)%string) m.

Definition size (m : t) : Z := Z.of_nat (List.length m).

Definition keys (m : t) : list string := map fst m.

Definition values (m : t) : list V := map snd m.

(** In-place mutation of the object stored under [k]. *)
Definition update (k : string) (f : V -> V) (m : t) : t :=
  map (fun kv => if (k =? fst kv)%string then (fst kv, f (snd kv)) else kv) m.
End Defs.
Arguments t V : clear implicits.
End JsMap.

(** ** [CircuitBreaker] (src/utils/errors.ts) *)

Module CircuitBreaker.

Inductive State := closed | open | half_open.

Record Config := mkConfig {
  failureThreshold : Z;
  recoveryTime : Z;
  successThreshold : Z
}.

Definition defaultConfig : Config := mkConfig 5 60000 2.

Record t := mk {
  failures : Z;
  lastFailureTime : option Z;
  state : State
}.

(** Field initialisers of the class. *)
Definition init : t := mk 0 None closed.

Definition reset (b : t) : t := mk 0 None closed.

Definition onSuccess (b : t) : t :=
  match state b with
  | half_open =>
      let f := Z.max 0 (failures b - 1) in
      mk f (lastFailureTime b) (if f =? 0 then closed else half_open)
  | _ => mk 0 (lastFailureTime b) (state b)
  end.

Definition onFailure (cfg : Config) (now : Z) (b : t) : t :=
  let f := failures b + 1 in
  mk f (Some now)
     (if failureThreshold cfg <=? f then open else state b).

Definition shouldAttemptRecovery (cfg : Config) (now : Z) (b : t) : bool :=
  match lastFailureTime b with
  | None => true
  | Some t0 => recoveryTime cfg <=? now - t0
  end.

(** One guarded call.  [now] is the clock when [execute] is entered,
    [fn] the settled result of the wrapped function and [done] the clock
    when it settles. *)
Record Call (T : Type) := mkCall {
  now : Z;
  fn : Completion T;
  done : Z
}.
Arguments mkCall {T}.
Arguments now {T}.
Arguments fn {T}.
Arguments done {T}.

Definition execute {T} (cfg : Config) (c : Call T) (b : t) : t * Completion T :=
  let entered :=
    match state b with
    | open =>
        if shouldAttemptRecovery cfg (now c) b
        then Normal (mk (failures b) (lastFailureTime b) half_open)
        else Throw (mkError "Circuit breaker is open")
    | _ => Normal b
    end in
  match entered with
  | Throw e => (b, Throw e)
  | Normal b1 =>
      match fn c with
      | Normal r => (onSuccess b1, Normal r)
      | Throw e => (onFailure cfg (done c) b1, Throw e)
      end
  end.

(** The breaker after a history of guarded calls, oldest first. *)
Definition run {T} (cfg : Config) (calls : list (Call T)) (b : t) : t :=
  fold_left (fun b c => fst (execute cfg c b)) calls b.

(** Breakers driven by calls that do not overlap: built by the constructor,
    then taken through [execute] and [reset], each call being settled before
    the next one is entered. *)
Inductive reachable {T} (cfg : Config) : t -> Prop :=
| reach_init : reachable cfg init
| reach_execute b c : reachable cfg b -> reachable cfg (fst (@execute T cfg c b))
| reach_reset b : reachable cfg b -> reachable cfg (reset b).

(** [execute] is asynchronous: it tests the state, then waits at
    [await fn()], and books the result when the wrapped function has
    settled.  [enter] is the part before the wait, [settle] the part after
    it; calls that go through one breaker can enter and settle in between. *)
Definition enter (cfg : Config) (now : Z) (b : t) : t * Completion unit :=
  match state b with
  | open =>
      if shouldAttemptRecovery cfg now b
      then (mk (failures b) (lastFailureTime b) half_open, Normal tt)
      else (b, Throw (mkError "Circuit breaker is open"))
  | _ => (b, Normal tt)
  end.

Definition settle {T} (cfg : Config) (result : Completion T) (done : Z) (b : t) : t :=
  match result with
  | Normal _ => onSuccess b
  | Throw _ => onFailure cfg done b
  end.

(** Breakers driven by calls that may overlap, with the number of calls that
    have entered and are waiting for their function. *)
Inductive interleaved {T} (cfg : Config) : t -> nat -> Prop :=
| inter_init : interleaved cfg init 0
| inter_enter b n now :
    interleaved cfg b n ->
    snd (enter cfg now b) = Normal tt ->
    interleaved cfg (fst (enter cfg now b)) (S n)
| inter_settle b n (result : Completion T) done :
    interleaved cfg b (S n) ->
    interleaved cfg (settle cfg result done b) n
| inter_reset b n : interleaved cfg b n -> interleaved cfg (reset b) n.

End CircuitBreaker.

(** ** Strings *)

(** [String.prototype.includes]. *)
Fixpoint str_includes (pat s : string) : bool :=
  String.prefix pat s
  || match s with
     | EmptyString => false
     | String _ s' => str_includes pat s'
     end.

(** Lower case of the letters A-Z; every other character is kept. *)
Definition ascii_lower (c : ascii) : ascii :=
  let n := nat_of_ascii c in
  if ((65 <=? n) && (n <=? 90))%nat then ascii_of_nat (n + 32) else c.

Fixpoint lower (s : string) : string :=
  match s with
  | EmptyString => EmptyString
  | String c s' => String (ascii_lower c) (lower s')
  end.

(** ** The error classes (src/types/errors.ts) *)

Module Errors.

Inductive ErrorCategory :=
| network | authentication | validation | provider | cache
| aggregation | configuration | rate_limit | timeout.

Definition category_eqb (a b : ErrorCategory) : bool :=
  match a, b with
  | network, network | authentication, authentication | validation, validation
  | provider, provider | cache, cache | aggregation, aggregation
  | configuration, configuration | rate_limit, rate_limit | timeout, timeout => true
  | _, _ => false
  end.

Inductive ErrorSeverity := low | medium | high | critical.

Definition severity_eqb (a b : ErrorSeverity) : bool :=
  match a, b with
  | low, low | medium, medium | high, high | critical, critical => true
  | _, _ => false
  end.

Record ErrorMetadata := mkMetadata {
  severity : ErrorSeverity;
  retryable : bool;
  userFacing : bool
}.

(** The concrete subclasses of [CardalabsError]. *)
Inductive ErrorClass :=
| NetworkError | AuthenticationError | ValidationError | ProviderError | CacheError
| AggregationError | ConfigurationError | RateLimitError | TimeoutError.

Definition class_code (c : ErrorClass) : string :=
  match c with
  | NetworkError => "NETWORK_ERROR"
  | AuthenticationError => "AUTHENTICATION_ERROR"
  | ValidationError => "VALIDATION_ERROR"
  | ProviderError => "PROVIDER_ERROR"
  | CacheError => "CACHE_ERROR"
  | AggregationError => "AGGREGATION_ERROR"
  | ConfigurationError => "CONFIGURATION_ERROR"
  | RateLimitError => "RATE_LIMIT_ERROR"
  | TimeoutError => "TIMEOUT_ERROR"
  end.

Definition class_category (c : ErrorClass) : ErrorCategory :=
  match c with
  | NetworkError => network
  | AuthenticationError => authentication
  | ValidationError => validation
  | ProviderError => provider
  | CacheError => cache
  | AggregationError => aggregation
  | ConfigurationError => configuration
  | RateLimitError => rate_limit
  | TimeoutError => timeout
  end.

(** An instance of one of the classes, with the properties that the error
    utilities read: the message, the [provider] of a [ProviderError], the
    [statusCode] of a [NetworkError] and the foreign error that was wrapped:
    the [originalError] property of a [ProviderError], the [originalError]
    entry of the [context] of the other classes. *)
Record CardalabsError := mkCardalabsError {
  class : ErrorClass;
  error_message : string;
  error_provider : option string;
  statusCode : option Z;
  originalError : option JsError
}.

Definition code (e : CardalabsError) : string := class_code (class e).

Definition category (e : CardalabsError) : ErrorCategory := class_category (class e).

(** An [Error] object: a plain [Error], or an error of the SDK. *)
Inductive AnyError :=
| Plain (e : JsError)
| Sdk (e : CardalabsError).

(** A thrown value: an [Error] object, or something else. *)
Inductive Thrown :=
| Err (e : AnyError)
| NonError.

Definition ERROR_METADATA : JsMap.t ErrorMetadata :=
  [("NETWORK_ERROR", mkMetadata medium true false);
   ("AUTHENTICATION_ERROR", mkMetadata high false true);
   ("VALIDATION_ERROR", mkMetadata medium false true);
   ("PROVIDER_ERROR", mkMetadata medium true false);
   ("CACHE_ERROR", mkMetadata low true false);
   ("AGGREGATION_ERROR", mkMetadata medium true false);
   ("CONFIGURATION_ERROR", mkMetadata high false true);
   ("RATE_LIMIT_ERROR", mkMetadata medium true false);
   ("TIMEOUT_ERROR", mkMetadata medium true false)].

End Errors.

(** ** [ErrorHandler.normalizeError] (src/utils/errors.ts) *)

Module ErrorHandler.
Import Errors.

Section Handler.
(** [String.prototype.toLowerCase]. *)
Variable toLowerCase : string -> string.

Definition networkKeywords : list string :=
  ["network"; "connection"; "timeout"; "dns"; "socket"; "econnrefused"; "enotfound";
   "etimedout"].

Definition authKeywords : list string :=
  ["unauthorized"; "forbidden"; "authentication"; "api key"; "token"; "401"; "403"].

Definition timeoutKeywords : list string :=
  ["timeout"; "timed out"; "time limit"; "deadline"].

Definition validationKeywords : list string :=
  ["validation"; "invalid"; "required"; "missing"; "format"; "schema"].

Definition isNetworkError (error : JsError) : bool :=
  let msg := toLowerCase (message error) in
  existsb (fun keyword => str_includes keyword msg) networkKeywords.

Definition isAuthError (error : JsError) : bool :=
  let msg := toLowerCase (message error) in
  existsb (fun keyword => str_includes keyword msg) authKeywords.

Definition isTimeoutError (error : JsError) : bool :=
  let msg := toLowerCase (message error) in
  existsb (fun keyword => str_includes keyword msg) timeoutKeywords.

Definition isValidationError (error : JsError) : bool :=
  let msg := toLowerCase (message error) in
  existsb (fun keyword => str_includes keyword msg) validationKeywords.

Definition normalizeError (error : AnyError) : CardalabsError :=
  match error with
  | Sdk e => e
  | Plain e =>
      if isNetworkError e
      then mkCardalabsError NetworkError (message e) None None (Some e)
      else if isAuthError e
      then mkCardalabsError AuthenticationError (message e) None None (Some e)
      else if isTimeoutError e
      then mkCardalabsError TimeoutError (message e) None None (Some e)
      else if isValidationError e
      then mkCardalabsError ValidationError (message e) None None (Some e)
      else mkCardalabsError ProviderError (message e) (Some "unknown") None (Some e)
  end.

End Handler.
End ErrorHandler.

(** ** [ErrorRecovery] (src/utils/errors.ts) *)

Module ErrorRecovery.
Import Errors.

Definition isRecoverable (error : CardalabsError) : bool :=
  match JsMap.get (code error) ERROR_METADATA with
  | Some metadata => retryable metadata
  | None => false
  end.

Definition shouldFallback (error : CardalabsError) : bool :=
  existsb (category_eqb (category error)) [network; provider; rate_limit; timeout].

End ErrorRecovery.

(** ** [ErrorAggregator] (src/utils/errors.ts) *)

Module ErrorAggregator.
Import Errors.

Section Aggregator.
Variable toLowerCase : string -> string.

(** The collected errors. *)
Definition t := list CardalabsError.

Definition empty : t := [].

Definition add (error : AnyError) (errors : t) : t :=
  (errors ++ [ErrorHandler.normalizeError toLowerCase error])%list.

Definition getErrors (errors : t) : list CardalabsError := errors.

Definition hasErrors (errors : t) : bool := negb (Nat.eqb (List.length errors) 0).

Definition severityOrder : list ErrorSeverity := [critical; high; medium; low].

(** [Array.prototype.indexOf]. *)
Fixpoint indexOf (s : ErrorSeverity) (l : list ErrorSeverity) : Z :=
  match l with
  | [] => -1
  | x :: l' =>
      if severity_eqb x s then 0
      else let i := indexOf s l' in if i <? 0 then -1 else i + 1
  end.

(** [ERROR_METADATA[error.code]?.severity ?? 'low'] *)
Definition severityOf (error : CardalabsError) : ErrorSeverity :=
  match JsMap.get (code error) ERROR_METADATA with
  | Some metadata => severity metadata
  | None => low
  end.

Definition getMostSevere (errors : t) : option CardalabsError :=
  match errors with
  | [] => None
  | first :: rest =>
      Some (fold_left
              (fun mostSevere current =>
                 let currentIndex := indexOf (severityOf current) severityOrder in
                 let mostSevereIndex := indexOf (severityOf mostSevere) severityOrder in
                 if currentIndex <? mostSevereIndex then current else mostSevere)
              rest first)
  end.

Definition clear (errors : t) : t := [].

End Aggregator.
End ErrorAggregator.

(** The place of an error's severity in [severityOrder]. *)
Definition severity_index (e : Errors.CardalabsError) : Z :=
  ErrorAggregator.indexOf (ErrorAggregator.severityOf e) ErrorAggregator.severityOrder.

(** ** [RetryExecutor] (src/utils/errors.ts) *)

Module RetryExecutor.

Record RetryConfig := mkConfig {
  maxAttempts : Z;
  baseDelay : Q;
  maxDelay : Q;
  backoffMultiplier : Q;
  jitter : bool
}.

(** The double nearest to the literal [0.1]. *)
Definition lit_0_1 : Q := 3602879701896397 # 36028797018963968.

(** Integers up to [2^53] in magnitude are doubles. *)
Definition two_53 : Z := 9007199254740992.

(** [Math.round]: nearest integer, ties towards +infinity. *)
Definition Math_round (x : Q) : Z := Qfloor (x + (1 # 2)).

Section Rounding.
(** Rounding of an exact result to a double. *)
Variable rnd : Q -> Q.

(** [random] is the value returned by [Math.random()]. *)
Definition calculateDelay (attempt : Z) (config : RetryConfig) (random : Q) : Z :=
  let delay :=
    rnd (baseDelay config * rnd (Qpower (backoffMultiplier config) (attempt - 1))) in
  let delay := Qmin delay (maxDelay config) in
  let delay :=
    if jitter config then
      let jitterRange := rnd (delay * lit_0_1) in
      let jit := rnd (rnd (rnd (random * 2) - 1) * jitterRange) in
      rnd (delay + jit)
    else delay in
  Z.max 0 (Math_round delay).
End Rounding.

(** *** [DEFAULT_RETRY_CONFIGS] *)

Definition standard : RetryConfig := mkConfig 3 1000 10000 2 true.

Definition quick : RetryConfig := mkConfig 2 500 2000 2 true.

Definition aggressive : RetryConfig := mkConfig 5 2000 30000 (3 # 2) true.

Definition none : RetryConfig := mkConfig 1 0 0 1 false.

(** *** [RetryExecutor.execute] *)

Definition retryablePatterns : list string :=
  ["timeout"; "network"; "connection"; "rate limit"; "too many requests";
   "service unavailable"; "internal server error"; "bad gateway"; "gateway timeout"].

(** The patterns are matched without regard to letter case. *)
Definition isRetryableError (error : Errors.AnyError) : bool :=
  match error with
  | Errors.Sdk e => ErrorRecovery.isRecoverable e
  | Errors.Plain e =>
      existsb (fun pattern => str_includes pattern (lower (message e))) retryablePatterns
  end.

Section Loop.
Variable rnd : Q -> Q.
Context {T : Type}.

(** How one call of the wrapped function settles. *)
Inductive Outcome :=
| Resolved (r : T)
| Rejected (e : Errors.Thrown).

(** An entry of the attempt history (without its time stamp). *)
Record RetryAttempt := mkAttempt {
  attempt : Z;
  delay : Z;
  error : option Errors.Thrown
}.

(** What a run of [execute] leaves: how it settles, the attempt history and
    the delays it slept, in order. *)
Record Execution := mkExecution {
  outcome : Outcome;
  attempts : list RetryAttempt;
  slept : list Z
}.

(** The test made before an attempt is repeated: the optional [shouldRetry]
    of the configuration, then [isRetryableError] for [Error] objects. *)
Definition retries (shouldRetry : option (Errors.Thrown -> Z -> bool))
    (e : Errors.Thrown) (n : Z) : bool :=
  match shouldRetry with
  | Some f => f e n
  | None => true
  end
  && match e with
     | Errors.Err a => isRetryableError a
     | Errors.NonError => true
     end.

(** The loop from [attempt] on, with [fuel] iterations left.  [fn n] is how
    the [n]-th call of the wrapped function settles, [random k] the [k]-th
    value of [Math.random()], [draws] the number of delays computed so far. *)
Fixpoint execute_from (fuel : nat) (n : Z) (config : RetryConfig)
    (shouldRetry : option (Errors.Thrown -> Z -> bool)) (fn : Z -> Outcome)
    (random : nat -> Q) (draws : nat) (log : list RetryAttempt) (sleeps : list Z)
    : Execution :=
  match fuel with
  | O =>
      mkExecution
        (Rejected (Errors.Err (Errors.Plain
                                 (mkError "Retry executor failed unexpectedly"))))
        log sleeps
  | S fuel' =>
      match fn n with
      | Resolved r =>
          mkExecution (Resolved r) (log ++ [mkAttempt n 0 None])%list sleeps
      | Rejected e =>
          let recorded :=
            if n <? maxAttempts config
            then calculateDelay rnd n config (random draws) else 0 in
          let draws := if n <? maxAttempts config then S draws else draws in
          let log := (log ++ [mkAttempt n recorded (Some e)])%list in
          if n =? maxAttempts config then mkExecution (Rejected e) log sleeps
          else if negb (retries shouldRetry e n) then mkExecution (Rejected e) log sleeps
          else
            let d := calculateDelay rnd n config (random draws) in
            execute_from fuel' (n + 1) config shouldRetry fn random (S draws) log
              (sleeps ++ [d])%list
      end
  end.

Definition execute (config : RetryConfig)
    (shouldRetry : option (Errors.Thrown -> Z -> bool)) (fn : Z -> Outcome)
    (random : nat -> Q) : Execution :=
  execute_from (Z.to_nat (maxAttempts config)) 1 config shouldRetry fn random 0 [] [].

Record RetryResult := mkResult {
  success : bool;
  result : option T;
  result_error : option Errors.Thrown;
  result_attempts : Z
}.

(** [totalTime] is left out. *)
Definition executeWithResult (config : RetryConfig)
    (shouldRetry : option (Errors.Thrown -> Z -> bool)) (fn : Z -> Outcome)
    (random : nat -> Q) : RetryResult :=
  let ex := execute config shouldRetry fn random in
  match outcome ex with
  | Resolved r => mkResult true (Some r) None (Z.of_nat (List.length (attempts ex)))
  | Rejected e => mkResult false None (Some e) (Z.of_nat (List.length (attempts ex)))
  end.

End Loop.
Arguments Outcome T : clear implicits.
Arguments Execution T : clear implicits.
Arguments RetryResult T : clear implicits.

End RetryExecutor.

(** ** [MemoryCache] (src/sdk/cache/memory-cache.ts) *)

Module MemoryCache.

Inductive CacheEvent :=
| ev_hit | ev_miss | ev_set | ev_delete | ev_expired | ev_evicted | ev_clear.

(** A registered callback, known by its identity.  Every call of a
    listener is recorded in the [delivered] log of the cache; an exception
    thrown by a listener is swallowed by [emitEvent] and so does not show. *)
Definition CacheEventListener := nat.

Record CacheOptions := mkOptions {
  defaultTtl : Z;
  maxSize : Z;
  enableStats : bool
}.

(** [hitRate] is only computed by [getStats] and is left out. *)
Record CacheStats := mkStats {
  hits : Z;
  misses : Z;
  size : Z;
  stats_maxSize : Z;
  memoryUsage : Z
}.

Section Cache.
(** Cached values and the size estimate [estimateObjectSize] of one. *)
Context {V : Type}.
Variable estimateObjectSize : V -> Z.

Record CacheEntry := mkEntry {
  value : V;
  ttl : Z;
  createdAt : Z;
  expiresAt : Z;
  accessCount : Z;
  lastAccessed : Z
}.

(** A node of the recency list.  A node is referenced through its key:
    the store holds one node per key and only stored nodes are linked. *)
Record LRUNode := mkNode {
  key : string;
  entry : CacheEntry;
  prev : option string;
  next : option string
}.

Record t := mk {
  cache : JsMap.t LRUNode;
  head : option string;
  tail : option string;
  stats : CacheStats;
  options : CacheOptions;
  eventListeners : list CacheEventListener;
  delivered : list (CacheEventListener * CacheEvent * string)
}.

Definition with_cache (f : JsMap.t LRUNode -> JsMap.t LRUNode) (c : t) : t :=
  mk (f (cache c)) (head c) (tail c) (stats c) (options c)
     (eventListeners c) (delivered c).

Definition with_head (h : option string) (c : t) : t :=
  mk (cache c) h (tail c) (stats c) (options c) (eventListeners c) (delivered c).

Definition with_tail (tl : option string) (c : t) : t :=
  mk (cache c) (head c) tl (stats c) (options c) (eventListeners c) (delivered c).

Definition with_stats (f : CacheStats -> CacheStats) (c : t) : t :=
  mk (cache c) (head c) (tail c) (f (stats c)) (options c)
     (eventListeners c) (delivered c).

Definition set_prev (p : option string) (n : LRUNode) : LRUNode :=
  mkNode (key n) (entry n) p (next n).

Definition set_next (x : option string) (n : LRUNode) : LRUNode :=
  mkNode (key n) (entry n) (prev n) x.

Definition set_entry (e : CacheEntry) (n : LRUNode) : LRUNode :=
  mkNode (key n) e (prev n) (next n).

(** The constructor, with its defaults. *)
Definition new (o_defaultTtl o_maxSize : option Z) (o_enableStats : option bool) : t :=
  let opts :=
    mkOptions (match o_defaultTtl with Some d => d | None => 300 end)
              (match o_maxSize with Some m => m | None => 1000 end)
              (match o_enableStats with Some b => b | None => true end) in
  mk JsMap.empty None None (mkStats 0 0 0 (maxSize opts) 0) opts [] [].

Definition isExpired (now : Z) (e : CacheEntry) : bool := expiresAt e <? now.

Definition incrementHits (c : t) : t :=
  if enableStats (options c)
  then with_stats (fun s => mkStats (hits s + 1) (misses s) (size s)
                                    (stats_maxSize s) (memoryUsage s)) c
  else c.

Definition incrementMisses (c : t) : t :=
  if enableStats (options c)
  then with_stats (fun s => mkStats (hits s) (misses s + 1) (size s)
                                    (stats_maxSize s) (memoryUsage s)) c
  else c.

Definition updateMemoryUsage (c : t) : t :=
  if enableStats (options c)
  then
    let usage :=
      fold_left (fun u kn =>
                   u + Z.of_nat (String.length (fst kn)) * 2
                     + estimateObjectSize (value (entry (snd kn))) + 96)
                (cache c) 0 in
    with_stats (fun s => mkStats (hits s) (misses s) (size s)
                                 (stats_maxSize s) usage) c
  else c.

Definition emitEvent (ev : CacheEvent) (k : string) (c : t) : t :=
  match eventListeners c with
  | [] => c
  | ls =>
      mk (cache c) (head c) (tail c) (stats c) (options c) ls
         (delivered c ++ map (fun l => (l, ev, k)) ls)
  end.

Definition deleteNode (node : LRUNode) (c : t) : t :=
  let c := with_cache (JsMap.delete (key node)) c in
  let c :=
    match prev node with
    | Some p => with_cache (JsMap.update p (set_next (next node))) c
    | None => with_head (next node) c
    end in
  let c :=
    match next node with
    | Some n => with_cache (JsMap.update n (set_prev (prev node))) c
    | None => with_tail (prev node) c
    end in
  let c := with_stats (fun s => mkStats (hits s) (misses s) (size s - 1)
                                        (stats_maxSize s) (memoryUsage s)) c in
  updateMemoryUsage c.

(** [addToHead(node)] for the node stored under [k]. *)
Definition addToHead (k : string) (c : t) : t :=
  let c := with_cache (JsMap.update k (fun n => set_next (head c) (set_prev None n))) c in
  let c :=
    match head c with
    | Some h => with_cache (JsMap.update h (set_prev (Some k))) c
    | None => c
    end in
  let c := with_head (Some k) c in
  match tail c with
  | Some _ => c
  | None => with_tail (Some k) c
  end.

Definition moveToHead (node : LRUNode) (c : t) : t :=
  match prev node with
  | None => c
  | Some p =>
      let c := with_cache (JsMap.update p (set_next (next node))) c in
      let c :=
        match next node with
        | Some n => with_cache (JsMap.update n (set_prev (prev node))) c
        | None => with_tail (prev node) c
        end in
      addToHead (key node) c
  end.

Definition evictLRU (c : t) : t :=
  match tail c with
  | None => c
  | Some tl =>
      match JsMap.get tl (cache c) with
      | None => c
      | Some lru => emitEvent ev_evicted (key lru) (deleteNode lru c)
      end
  end.

Definition get (k : string) (now : Z) (c : t) : t * option V :=
  match JsMap.get k (cache c) with
  | None => (emitEvent ev_miss k (incrementMisses c), None)
  | Some node =>
      if isExpired now (entry node) then
        (emitEvent ev_expired k (incrementMisses (deleteNode node c)), None)
      else
        let e := entry node in
        let e' := mkEntry (value e) (ttl e) (createdAt e) (expiresAt e)
                          (accessCount e + 1) now in
        let c := with_cache (JsMap.update (key node) (set_entry e')) c in
        let c := moveToHead node c in
        (emitEvent ev_hit k (incrementHits c), Some (value e))
  end.

(** [o_ttl] is the optional argument [ttl], in seconds. *)
Definition set (k : string) (v : V) (o_ttl : option Z) (now : Z) (c : t) : t :=
  let timeToLive :=
    (match o_ttl with Some s => s | None => defaultTtl (options c) end) * 1000 in
  let e := mkEntry v timeToLive now (now + timeToLive) 0 now in
  let c :=
    match JsMap.get k (cache c) with
    | Some existingNode =>
        let c := with_cache (JsMap.update (key existingNode) (set_entry e)) c in
        moveToHead existingNode c
    | None =>
        let c :=
          if maxSize (options c) <=? JsMap.size (cache c) then evictLRU c else c in
        let c := with_cache (JsMap.set k (mkNode k e None None)) c in
        let c := addToHead k c in
        with_stats (fun s => mkStats (hits s) (misses s) (size s + 1)
                                     (stats_maxSize s) (memoryUsage s)) c
    end in
  emitEvent ev_set k (updateMemoryUsage c).

Definition delete (k : string) (c : t) : t * bool :=
  match JsMap.get k (cache c) with
  | None => (c, false)
  | Some node => (emitEvent ev_delete k (deleteNode node c), true)
  end.

Definition clear (c : t) : t :=
  let c := mk JsMap.empty None None
              (mkStats (hits (stats c)) (misses (stats c)) 0
                       (stats_maxSize (stats c)) 0)
              (options c) (eventListeners c) (delivered c) in
  emitEvent ev_clear "" c.

Definition has (k : string) (now : Z) (c : t) : t * bool :=
  match JsMap.get k (cache c) with
  | None => (c, false)
  | Some node =>
      if isExpired now (entry node) then (deleteNode node c, false)
      else (c, true)
  end.

Definition cleanupExpired (now : Z) (c : t) : t * Z :=
  let expiredKeys :=
    JsMap.keys (filter (fun kn => isExpired now (entry (snd kn))) (cache c)) in
  (fold_left (fun c k =>
                match JsMap.get k (cache c) with
                | Some node => emitEvent ev_expired k (deleteNode node c)
                | None => c
                end) expiredKeys c,
   Z.of_nat (List.length expiredKeys)).

Definition addEventListener (l : CacheEventListener) (c : t) : t :=
  mk (cache c) (head c) (tail c) (stats c) (options c)
     (eventListeners c ++ [l]) (delivered c).

(** [indexOf] + [splice]: the first occurrence is removed. *)
Fixpoint remove_first (l : CacheEventListener) (ls : list CacheEventListener) :=
  match ls with
  | [] => []
  | x :: ls' => if Nat.eqb x l then ls' else x :: remove_first l ls'
  end.

Definition removeEventListener (l : CacheEventListener) (c : t) : t :=
  mk (cache c) (head c) (tail c) (stats c) (options c)
     (remove_first l (eventListeners c)) (delivered c).


Definition getSize (c : t) : Z := JsMap.size (cache c).

(** Membership in the store, without the expiry check of [has]. *)
Definition present (k : string) (c : t) : bool := JsMap.has k (cache c).

(** Every stored node sits under its own key. *)
Definition keys_ok (c : t) : Prop :=
  forall k n, JsMap.get k (cache c) = Some n -> key n = k.

(** The entry stored under a key. *)
Definition entry_at (k : string) (c : t) : option CacheEntry :=
  option_map entry (JsMap.get k (cache c)).

(** Node updates that leave the entry alone. *)
Definition keeps_entry (f : LRUNode -> LRUNode) : Prop :=
  forall n, entry (f n) = entry n.

(** Caches that a program can observe. *)
Inductive reachable : t -> Prop :=
| reach_new o_ttl o_max o_stats : reachable (new o_ttl o_max o_stats)
| reach_set k v o_ttl now c : reachable c -> reachable (set k v o_ttl now c)
| reach_get k now c : reachable c -> reachable (fst (get k now c))
| reach_has k now c : reachable c -> reachable (fst (has k now c))
| reach_delete k c : reachable c -> reachable (fst (delete k c))
| reach_clear c : reachable c -> reachable (clear c)
| reach_cleanupExpired now c : reachable c -> reachable (fst (cleanupExpired now c))
| reach_addEventListener l c : reachable c -> reachable (addEventListener l c)
| reach_removeEventListener l c : reachable c -> reachable (removeEventListener l c).

End Cache.
Arguments t V : clear implicits.
Arguments CacheEntry V : clear implicits.
Arguments LRUNode V : clear implicits.

End MemoryCache.

(** ** Providers (src/providers/base/provider.interface.ts, src/types) *)

Module Provider.

Record ProviderCapabilities := mkCapabilities {
  tokenData : option (list string);
  walletData : option (list string)
}.

(** The part of [RequestOptions] the aggregation core reads. *)
Record RequestOptions := mkOptions {
  timeout : option Z
}.

Section Value.
(** Field values returned by providers. *)
Context {Value : Type}.

(** [ProviderResponse<Partial<TokenData>>]: [data] and [error] are optional. *)
Record ProviderResponse := mkResponse {
  success : bool;
  data : option (JsMap.t Value);
  error : option JsError
}.

Inductive Settled :=
| Resolved (r : ProviderResponse)
| Rejected (e : JsError).

(** One invocation of a provider method: how long the returned promise
    takes to settle, and how it settles. *)
Record ProviderCall := mkCall {
  latency : Z;
  settled : Settled
}.

(** A provider.  [getTokenData id options n] is the behaviour of the [n]-th
    provider invocation issued by the aggregator during one request. *)
Record DataProvider := mkProvider {
  name : string;
  capabilities : ProviderCapabilities;
  getTokenData : string -> option RequestOptions -> nat -> ProviderCall;
  getWalletData : string -> option RequestOptions -> nat -> ProviderCall
}.

End Value.
Arguments ProviderResponse Value : clear implicits.
Arguments Settled Value : clear implicits.
Arguments ProviderCall Value : clear implicits.
Arguments DataProvider Value : clear implicits.

End Provider.

(** ** [FieldRouter] (src/sdk/aggregator/field-router.ts) *)

Module FieldRouter.
Import Provider.

Inductive RoutingStrategy := fastest | priority | cost | reliability.

Record ProviderMetrics := mkMetrics {
  provider : string;
  avgResponseTime : Q;
  successRate : Q;
  lastUsed : Z;
  totalRequests : Z;
  failedRequests : Z;
  metrics_cost : option Q
}.

Record Estimated := mkEstimated {
  responseTime : Q;
  est_successRate : Q;
  est_cost : option Q
}.

Record RoutingPlan := mkPlan {
  field : string;
  plan_provider : string;
  fallbackProviders : list string;
  estimated : Estimated
}.

Section Router.
Context {Value : Type}.

Record t := mk {
  providers : JsMap.t (DataProvider Value);
  metrics : JsMap.t ProviderMetrics;
  fieldPriorities : JsMap.t (list string);
  defaultStrategy : RoutingStrategy
}.

(** [now] is the value of [new Date()]. *)
Definition registerProvider (now : Z) (p : DataProvider Value) (r : t) : t :=
  let ps := JsMap.set (name p) p (providers r) in
  let ms :=
    if JsMap.has (name p) (metrics r) then metrics r
    else JsMap.set (name p) (mkMetrics (name p) 1000 1 now 0 0 None) (metrics r) in
  mk ps ms (fieldPriorities r) (defaultStrategy r).

(** The constructor: providers are registered in order, then the priority
    table is copied entry by entry. *)
Definition new (now : Z) (ps : list (DataProvider Value))
    (prios : list (string * list string)) : t :=
  let r := fold_left (fun r p => registerProvider now p r) ps
                     (mk JsMap.empty JsMap.empty JsMap.empty priority) in
  fold_left (fun r fp =>
               mk (providers r) (metrics r)
                  (JsMap.set (fst fp) (snd fp) (fieldPriorities r))
                  (defaultStrategy r))
            prios r.

Definition unregisterProvider (providerName : string) (r : t) : t :=
  mk (JsMap.delete providerName (providers r))
     (JsMap.delete providerName (metrics r))
     (fieldPriorities r) (defaultStrategy r).

(** [capabilities.tokenData?.includes(field)] *)
Definition declares (fields : option (list string)) (f : string) : bool :=
  match fields with
  | Some l => includes f l
  | None => false
  end.

Definition getProvidersForTokenField (f : string) (r : t) : list string :=
  map fst (filter (fun np => declares (tokenData (capabilities (snd np))) f)
                  (providers r)).

Definition getProvidersForWalletField (f : string) (r : t) : list string :=
  map fst (filter (fun np => declares (walletData (capabilities (snd np))) f)
                  (providers r)).

(** The moving average and the success rate are computed over the rationals;
    the source computes them in doubles, which round. *)
Definition updateMetrics (providerName : string) (rt : Z) (ok : bool) (now : Z)
    (r : t) : t :=
  match JsMap.get providerName (metrics r) with
  | None => r
  | Some m =>
      let total := totalRequests m + 1 in
      let avg :=
        if ok then ((1 # 10) * inject_Z rt + (1 - (1 # 10)) * avgResponseTime m)%Q
        else avgResponseTime m in
      let failed := if ok then failedRequests m else failedRequests m + 1 in
      let rate := (inject_Z (total - failed) / inject_Z total)%Q in
      let m' := mkMetrics (provider m) avg rate now total failed (metrics_cost m) in
      mk (providers r) (JsMap.update providerName (fun _ => m') (metrics r))
         (fieldPriorities r) (defaultStrategy r)
  end.

Definition getProviderMetrics (p : string) (r : t) : option ProviderMetrics :=
  JsMap.get p (metrics r).

Definition setFieldPriority (f : string) (ps : list string) (r : t) : t :=
  mk (providers r) (metrics r) (JsMap.set f ps (fieldPriorities r))
     (defaultStrategy r).

Definition getFieldPriorities (f : string) (r : t) : option (list string) :=
  JsMap.get f (fieldPriorities r).

(** [availableProviders[0] || ''] *)
Definition first_or_empty (l : list string) : string :=
  match l with
  | x :: _ => x
  | [] => ""
  end.

Definition getProviderByPriority (f : string) (available : list string) (r : t)
    : string :=
  let fallback := first_or_empty available in
  match JsMap.get f (fieldPriorities r) with
  | Some priorities =>
      match find (fun p => includes p available) priorities with
      | Some p => p
      | None => fallback
      end
  | None => fallback
  end.

(** A running optimum over optional readings; [None] is [Infinity] for the
    response time. *)
Definition getFastestProvider (available : list string) (r : t) : string :=
  let first := first_or_empty available in
  let start := option_map avgResponseTime (JsMap.get first (metrics r)) in
  let best :=
    fold_left
      (fun acc p =>
         match JsMap.get p (metrics r) with
         | Some m =>
             let better :=
               match snd acc with
               | Some tm => negb (Qle_bool tm (avgResponseTime m))
               | None => true
               end in
             if better then (p, Some (avgResponseTime m)) else acc
         | None => acc
         end)
      available (first, start) in
  or_else (fst best) first.

Definition getMostReliableProvider (available : list string) (r : t) : string :=
  let first := first_or_empty available in
  let start :=
    match JsMap.get first (metrics r) with
    | Some m => successRate m
    | None => 0%Q
    end in
  let best :=
    fold_left
      (fun acc p =>
         match JsMap.get p (metrics r) with
         | Some m =>
             if negb (Qle_bool (successRate m) (snd acc))
             then (p, successRate m) else acc
         | None => acc
         end)
      available (first, start) in
  or_else (fst best) first.

Definition cost_or_zero (m : ProviderMetrics) : Q :=
  match metrics_cost m with
  | Some c => c
  | None => 0%Q
  end.

Definition getCheapestProvider (available : list string) (r : t) : string :=
  let first := first_or_empty available in
  let start :=
    match JsMap.get first (metrics r) with
    | Some m => cost_or_zero m
    | None => 0%Q
    end in
  let best :=
    fold_left
      (fun acc p =>
         match JsMap.get p (metrics r) with
         | Some m =>
             if negb (Qle_bool (snd acc) (cost_or_zero m))
             then (p, cost_or_zero m) else acc
         | None => acc
         end)
      available (first, start) in
  or_else (fst best) first.

(** [None] is [null]; [Some ""] can come out of the strategy helpers. *)
Definition getOptimalProvider (f : string) (available : list string)
    (strategy : RoutingStrategy) (r : t) : option string :=
  match available with
  | [] => None
  | [p] => if truthy p then Some p else None
  | _ =>
      Some (match strategy with
            | priority => getProviderByPriority f available r
            | fastest => getFastestProvider available r
            | reliability => getMostReliableProvider available r
            | cost => getCheapestProvider available r
            end)
  end.

(** The comparator of the fallback sort; a negative result puts [a] first. *)
Definition compareFallback (r : t) (a b : string) : Q :=
  match JsMap.get a (metrics r), JsMap.get b (metrics r) with
  | Some ma, Some mb =>
      if negb (Qeq_bool (successRate ma) (successRate mb))
      then (successRate mb - successRate ma)%Q
      else (avgResponseTime ma - avgResponseTime mb)%Q
  | _, _ => 0%Q
  end.

(** [Array.prototype.sort] is stable: insertion from the right keeps equal
    elements in their original order. *)
Fixpoint insert_sorted (cmp : string -> string -> Q) (x : string) (l : list string)
    : list string :=
  match l with
  | [] => [x]
  | y :: l' =>
      if Qle_bool (cmp x y) 0 then x :: l else y :: insert_sorted cmp x l'
  end.

Definition sort_by (cmp : string -> string -> Q) (l : list string) : list string :=
  fold_right (insert_sorted cmp) [] l.

Definition createRoutingPlan (f : string) (available : list string)
    (strategy : RoutingStrategy) (r : t) : option RoutingPlan :=
  let primaryProvider :=
    match getOptimalProvider f available strategy r with
    | Some p => if truthy p then Some p else None
    | None => None
    end in
  match primaryProvider with
  | None =>
      match JsMap.get f (fieldPriorities r) with
      | Some (firstPriority :: rest) =>
          if truthy firstPriority
          then Some (mkPlan f firstPriority rest (mkEstimated 1000 0 (Some 0%Q)))
          else None
      | _ => None
      end
  | Some primary =>
      let fallback :=
        sort_by (compareFallback r)
                (filter (fun p => negb (p =? primary)%string) available) in
      let m := JsMap.get primary (metrics r) in
      Some (mkPlan f primary fallback
              (mkEstimated
                 (match m with Some x => avgResponseTime x | None => 1000 end)
                 (match m with Some x => successRate x | None => 1 end)
                 (match m with Some x => metrics_cost x | None => None end)))
  end.

Definition getRoutingStrategy (options : option RequestOptions) (r : t)
    : RoutingStrategy :=
  defaultStrategy r.

Definition planTokenDataRouting (fields : list string)
    (options : option RequestOptions) (r : t) : JsMap.t RoutingPlan :=
  let strategy := getRoutingStrategy options r in
  fold_left
    (fun plan f =>
       match createRoutingPlan f (getProvidersForTokenField f r) strategy r with
       | Some rp => JsMap.set f rp plan
       | None => plan
       end)
    fields JsMap.empty.

Definition planWalletDataRouting (fields : list string)
    (options : option RequestOptions) (r : t) : JsMap.t RoutingPlan :=
  let strategy := getRoutingStrategy options r in
  fold_left
    (fun plan f =>
       match createRoutingPlan f (getProvidersForWalletField f r) strategy r with
       | Some rp => JsMap.set f rp plan
       | None => plan
       end)
    fields JsMap.empty.

(** The first entry of the field's priority list when it can serve as a
    provider name: the list exists, is not empty and does not start with
    the empty name. *)
Definition firstPriority (f : string) (r : t) : option string :=
  match getFieldPriorities f r with
  | Some (p :: _) => if truthy p then Some p else None
  | _ => None
  end.

(** Routers that a program can observe. *)
Inductive reachable : t -> Prop :=
| reach_new now ps prios : reachable (new now ps prios)
| reach_register now p r : reachable r -> reachable (registerProvider now p r)
| reach_unregister n r : reachable r -> reachable (unregisterProvider n r)
| reach_update n rt ok now r : reachable r -> reachable (updateMetrics n rt ok now r)
| reach_priority f ps r : reachable r -> reachable (setFieldPriority f ps r).

End Router.
Arguments t Value : clear implicits.

End FieldRouter.

(** ** [DataAggregator] (src/sdk/aggregator/data-aggregator.ts) *)

Module DataAggregator.
Import Provider.

Inductive CombineStrategy := first | latest | average | weighted | vote.

Inductive ConflictResolution := priority | newest | majority | manual.

Record AggregationStrategy := mkStrategy {
  combineStrategy : CombineStrategy;
  conflictResolution : ConflictResolution
}.

(** One entry of the response's error list. *)
Record ErrorEntry := mkErrorEntry {
  err_provider : string;
  err_error : string;
  recoverable : bool
}.

Record ResponseMetadata := mkMetadata {
  dataSources : list string;
  responseTime : Z;
  timestamp : Z;
  providerHealth : option (JsMap.t bool)
}.

Section Aggregator.
Context {Value : Type}.
(** [JSON.stringify] on a field value; it throws on values that have no
    JSON text. *)
Variable stringify : Value -> Completion string.
(** [===] on field values. *)
Variable strict_eq : Value -> Value -> bool.

Record TokenDataAggregationRequest := mkTokenRequest {
  assetUnit : string;
  fields : list string;
  options : option RequestOptions;
  strategy : option AggregationStrategy
}.

Record WalletDataAggregationRequest := mkWalletRequest {
  address : string;
  wallet_fields : list string;
  wallet_options : option RequestOptions;
  wallet_strategy : option AggregationStrategy
}.

Record ProviderExecution := mkExecution {
  provider : string;
  success : bool;
  data : option (JsMap.t Value);
  error : option JsError;
  exec_responseTime : Z;
  fieldsProvided : list string
}.

(** An element of [getUniqueValues]; the same objects end up in
    [conflicts]. *)
Record UniqueValue := mkUnique {
  uv_provider : string;
  uv_value : Value;
  count : Z
}.

Record FieldAggregationResult := mkResult {
  field : string;
  value : Value;
  sources : list string;
  confidence : Q;
  conflicts : option (list UniqueValue)
}.

(** The data object.  Its properties [dataSource] and [lastUpdated] are kept
    in fields of their own, [None] when the object has no such property, as
    with the empty object of the [catch] branch; [data_fields] holds the
    properties of every other name. *)
Record AggregatedData := mkData {
  data_fields : JsMap.t Value;
  dataSource : option (list string);
  lastUpdated : option Z
}.

(** What a property of the data object holds. *)
Inductive DataProperty :=
| FieldValue (v : Value)
| SourceList (l : list string)
| Timestamp (t : Z).

(** [data[name]] *)
Definition data_property (name : string) (d : AggregatedData) : option DataProperty :=
  if (name =? "dataSource")%string then option_map SourceList (dataSource d)
  else if (name =? "lastUpdated")%string then option_map Timestamp (lastUpdated d)
  else option_map FieldValue (JsMap.get name (data_fields d)).

Record SDKResponse := mkSDKResponse {
  response_data : AggregatedData;
  metadata : ResponseMetadata;
  errors : list ErrorEntry
}.

Record t := mk {
  fieldRouter : FieldRouter.t Value;
  providers : JsMap.t (DataProvider Value);
  defaultStrategy : AggregationStrategy
}.

Definition new (now : Z) (ps : list (DataProvider Value))
    (fieldPriorities : list (string * list string)) : t :=
  mk (FieldRouter.new now ps fieldPriorities)
     (fold_left (fun m p => JsMap.set (name p) p m) ps JsMap.empty)
     (mkStrategy first priority).

Definition registerProvider (now : Z) (p : DataProvider Value) (a : t) : t :=
  mk (FieldRouter.registerProvider now p (fieldRouter a))
     (JsMap.set (name p) p (providers a))
     (defaultStrategy a).

Definition setFieldPriority (f : string) (ps : list string) (a : t) : t :=
  mk (FieldRouter.setFieldPriority f ps (fieldRouter a)) (providers a)
     (defaultStrategy a).

(** *** Provider calls *)

(** What a request has done so far: the router with its metrics, the number
    of provider invocations issued, and the clock. *)
Record Run := mkRun {
  router : FieldRouter.t Value;
  calls : nat;
  clock : Z
}.

(** [options?.timeout || 30000] *)
Definition effectiveTimeout (o : option RequestOptions) : Z :=
  match o with
  | Some (mkOptions (Some ms)) => if ms =? 0 then 30000 else ms
  | _ => 30000
  end.

(** [Promise.race] of the provider's promise against the timer: a call that
    has not settled when the timer fires is rejected with the timeout
    error.  The provider's promise is created before the timer, so a call
    that settles in the millisecond of the timer wins.  The result comes with
    the time the race took. *)
Definition race (ms : Z) (c : ProviderCall Value) : Settled Value * Z :=
  if ms <? latency c
  then (Rejected (mkError ("Request timeout after " ++ show_Z ms ++ "ms")),
        Z.max 0 ms)
  else (settled c, latency c).

Definition Method :=
  DataProvider Value -> string -> option RequestOptions -> nat -> ProviderCall Value.

Definition notFound (providerName : string) (rt : Z) : ProviderExecution :=
  mkExecution providerName false None
    (Some (mkError ("Provider " ++ providerName ++ " not found"))) rt [].

(** The body of the [map] callback of the parallel phase.  All calls of the
    phase start at [start]; [calls] numbers the invocation. *)
Definition executePrimary (method : Method) (id : string)
    (o : option RequestOptions) (providersMap : JsMap.t (DataProvider Value))
    (start : Z) (entry : string * list string)
    (st : FieldRouter.t Value * nat)
    : FieldRouter.t Value * nat * ProviderExecution :=
  let '(providerName, requested) := entry in
  let '(r, n) := st in
  match JsMap.get providerName providersMap with
  | None => (r, n, notFound providerName 0)
  | Some p =>
      let '(outcome, elapsed) := race (effectiveTimeout o) (method p id o n) in
      match outcome with
      | Resolved resp =>
          let r' := FieldRouter.updateMetrics providerName elapsed
                      (Provider.success resp) (start + elapsed) r in
          (r', S n,
           if Provider.success resp
           then mkExecution providerName true (Provider.data resp) None elapsed
                            requested
           else mkExecution providerName false None (Provider.error resp)
                            elapsed [])
      | Rejected e =>
          let r' := FieldRouter.updateMetrics providerName elapsed false
                      (start + elapsed) r in
          (r', S n, mkExecution providerName false None (Some e) elapsed [])
      end
  end.

(** [Promise.all] over the provider requests: the executions come back in
    the order of the requests. *)
Fixpoint executeAll (method : Method) (id : string) (o : option RequestOptions)
    (providersMap : JsMap.t (DataProvider Value)) (start : Z)
    (requests : list (string * list string)) (st : FieldRouter.t Value * nat)
    : FieldRouter.t Value * nat * list ProviderExecution :=
  match requests with
  | [] => (fst st, snd st, [])
  | entry :: rest =>
      let '(r, n, e) := executePrimary method id o providersMap start entry st in
      let '(r', n', es) := executeAll method id o providersMap start rest (r, n) in
      (r', n', e :: es)
  end.

(** The sequential walk down the fallback list of one field; it stops at the
    first fallback that answers with success. *)
Fixpoint tryFallbacks (method : Method) (id : string) (o : option RequestOptions)
    (providersMap : JsMap.t (DataProvider Value))
    (executions : list ProviderExecution) (f : string)
    (fallbacks : list string) (run : Run) : Run * option ProviderExecution :=
  match fallbacks with
  | [] => (run, None)
  | fallbackProvider :: rest =>
      match JsMap.get fallbackProvider providersMap with
      | None => tryFallbacks method id o providersMap executions f rest run
      | Some p =>
          if existsb (fun e => (provider e =? fallbackProvider)%string && success e)
                     executions
          then tryFallbacks method id o providersMap executions f rest run
          else
            let '(outcome, elapsed) :=
              race (effectiveTimeout o) (method p id o (calls run)) in
            let finished := clock run + elapsed in
            match outcome with
            | Resolved resp =>
                let r' := FieldRouter.updateMetrics fallbackProvider elapsed
                            (Provider.success resp) finished (router run) in
                let run' := mkRun r' (S (calls run)) finished in
                if Provider.success resp
                then (run', Some (mkExecution fallbackProvider true
                                    (Provider.data resp) None elapsed [f]))
                else tryFallbacks method id o providersMap executions f rest run'
            | Rejected _ =>
                tryFallbacks method id o providersMap executions f rest
                  (mkRun (router run) (S (calls run)) finished)
            end
      end
  end.

Definition runFallbacks (method : Method) (id : string) (o : option RequestOptions)
    (providersMap : JsMap.t (DataProvider Value))
    (routingPlan : JsMap.t FieldRouter.RoutingPlan)
    (executions : list ProviderExecution) (run : Run)
    : Run * list ProviderExecution :=
  fold_left
    (fun acc fp =>
       let '(run, fallbackExecutions) := acc in
       let '(f, plan) := fp in
       match find (fun e => (provider e =? FieldRouter.plan_provider plan)%string)
                  executions with
       | Some primaryExecution =>
           if negb (success primaryExecution)
              && negb (Nat.eqb (List.length (FieldRouter.fallbackProviders plan)) 0)
           then
             match tryFallbacks method id o providersMap executions f
                     (FieldRouter.fallbackProviders plan) run with
             | (run', Some e) => (run', (fallbackExecutions ++ [e])%list)
             | (run', None) => (run', fallbackExecutions)
             end
           else acc
       | None => acc
       end)
    routingPlan (run, []).

(** "Group fields by provider". *)
Definition groupByPrimary (routingPlan : JsMap.t FieldRouter.RoutingPlan)
    : JsMap.t (list string) :=
  fold_left
    (fun reqs fp =>
       let p := FieldRouter.plan_provider (snd fp) in
       let reqs := if JsMap.has p reqs then reqs else JsMap.set p [] reqs in
       JsMap.update p (fun l => (l ++ [fst fp])%list) reqs)
    routingPlan JsMap.empty.

(** "For fields with multiple priority providers, add them all". *)
Definition addPriorityProviders (a : t)
    (routingPlan : JsMap.t FieldRouter.RoutingPlan)
    (reqs : JsMap.t (list string)) : JsMap.t (list string) :=
  fold_left
    (fun reqs fp =>
       let '(f, plan) := fp in
       match FieldRouter.getFieldPriorities f (fieldRouter a) with
       | Some fieldPriorities =>
           if (1 <? List.length fieldPriorities)%nat then
             fold_left
               (fun reqs providerName =>
                  if negb (providerName =? FieldRouter.plan_provider plan)%string
                     && JsMap.has providerName (providers a)
                  then
                    match JsMap.get providerName (providers a) with
                    | Some p =>
                        if FieldRouter.declares (tokenData (capabilities p)) f
                        then
                          let reqs :=
                            if JsMap.has providerName reqs then reqs
                            else JsMap.set providerName [] reqs in
                          match JsMap.get providerName reqs with
                          | Some l =>
                              if includes f l then reqs
                              else JsMap.update providerName (fun l => (l ++ [f])%list) reqs
                          | None => reqs
                          end
                        else reqs
                    | None => reqs
                    end
                  else reqs)
               fieldPriorities reqs
           else reqs
       | None => reqs
       end)
    routingPlan reqs.

(** The end of the parallel phase: when the slowest call has settled. *)
Definition phaseEnd (start : Z) (es : list ProviderExecution) : Z :=
  fold_left (fun tm e => Z.max tm (start + exec_responseTime e)) es start.

Definition executeRequests (method : Method) (id : string)
    (o : option RequestOptions) (a : t)
    (routingPlan : JsMap.t FieldRouter.RoutingPlan)
    (providerRequests : JsMap.t (list string)) (start : Z)
    : Run * list ProviderExecution :=
  let '(r, n, executions) :=
    executeAll method id o (providers a) start providerRequests (fieldRouter a, 0%nat) in
  let run := mkRun r n (phaseEnd start executions) in
  let '(run', fallbackExecutions) :=
    runFallbacks method id o (providers a) routingPlan executions run in
  (run', (executions ++ fallbackExecutions)%list).

Definition executeTokenDataRequests (id : string)
    (routingPlan : JsMap.t FieldRouter.RoutingPlan) (o : option RequestOptions)
    (start : Z) (a : t) : Run * list ProviderExecution :=
  executeRequests getTokenData id o a routingPlan
    (addPriorityProviders a routingPlan (groupByPrimary routingPlan)) start.

Definition executeWalletDataRequests (id : string)
    (routingPlan : JsMap.t FieldRouter.RoutingPlan) (o : option RequestOptions)
    (start : Z) (a : t) : Run * list ProviderExecution :=
  executeRequests getWalletData id o a routingPlan (groupByPrimary routingPlan) start.

(** *** Aggregation of the field values *)

(** [exec.data[field]], when it is not [undefined]. *)
Definition fieldValue (f : string) (e : ProviderExecution) : option Value :=
  if success e then
    match data e with
    | Some d => JsMap.get f d
    | None => None
    end
  else None.

Fixpoint getUniqueValues_from (unique : JsMap.t UniqueValue)
    (values : list (string * Value)) : Completion (JsMap.t UniqueValue) :=
  match values with
  | [] => Normal unique
  | (p, v) :: rest =>
      bindC (stringify v) (fun k =>
        getUniqueValues_from
          (match JsMap.get k unique with
           | Some u => JsMap.update k (fun u => mkUnique (uv_provider u) (uv_value u)
                                                         (count u + 1)) unique
           | None => JsMap.set k (mkUnique p v 1) unique
           end)
          rest)
  end.

Definition getUniqueValues (values : list (string * Value))
    : Completion (list UniqueValue) :=
  bindC (getUniqueValues_from JsMap.empty values)
        (fun unique => Normal (JsMap.values unique)).

Definition resolveBypriority (f : string) (values : list (string * Value))
    (uniqueValues : list UniqueValue) : Completion FieldAggregationResult :=
  match values with
  | [] => Throw (mkError ("No values available for field: " ++ f))
  | chosen :: _ =>
      Normal (mkResult f (snd chosen) [fst chosen] (8 # 10)
                (Some (filter (fun u => negb (strict_eq (uv_value u) (snd chosen)))
                              uniqueValues)))
  end.

Definition resolveByNewest (f : string) (values : list (string * Value))
    (uniqueValues : list UniqueValue) : Completion FieldAggregationResult :=
  resolveBypriority f values uniqueValues.

Definition same_json (a b : Value) : Completion bool :=
  bindC (stringify a) (fun x =>
  bindC (stringify b) (fun y => Normal (x =? y)%string)).

Fixpoint majoritySources (values : list (string * Value)) (v : Value)
    : Completion (list string) :=
  match values with
  | [] => Normal []
  | (p, w) :: rest =>
      bindC (same_json w v) (fun same =>
      bindC (majoritySources rest v) (fun ps =>
      Normal (if same then p :: ps else ps)))
  end.

Definition resolveByMajority (f : string) (values : list (string * Value))
    (uniqueValues : list UniqueValue) : Completion FieldAggregationResult :=
  match uniqueValues with
  | [] => Throw (mkError "Reduce of empty array with no initial value")
  | u0 :: us =>
      let m := fold_left (fun mx cur => if count mx <? count cur then cur else mx)
                         us u0 in
      bindC (majoritySources values (uv_value m)) (fun srcs =>
      Normal (mkResult f (uv_value m) srcs
                (inject_Z (count m) / inject_Z (Z.of_nat (List.length values)))%Q
                (Some (filter (fun u => negb (strict_eq (uv_value u) (uv_value m)))
                              uniqueValues))))
  end.

Definition resolveFieldConflicts (f : string) (values : list (string * Value))
    (s : AggregationStrategy) : Completion FieldAggregationResult :=
  bindC (getUniqueValues values) (fun uniqueValues =>
    match uniqueValues with
    | [u] => Normal (mkResult f (uv_value u) (map (fun pv => or_else (fst pv) "unknown") values)
                       1 None)
    | _ =>
        match conflictResolution s with
        | priority => resolveBypriority f values uniqueValues
        | newest => resolveByNewest f values uniqueValues
        | majority => resolveByMajority f values uniqueValues
        | manual => resolveBypriority f values uniqueValues
        end
    end).

(** The (provider, value) pairs of the executions that supply the field. *)
Fixpoint fieldValues (f : string) (executions : list ProviderExecution)
    : list (string * Value) :=
  match executions with
  | [] => []
  | e :: rest =>
      match fieldValue f e with
      | Some v => (provider e, v) :: fieldValues f rest
      | None => fieldValues f rest
      end
  end.

Definition aggregateField (f : string) (executions : list ProviderExecution)
    (s : AggregationStrategy) : Completion (option FieldAggregationResult) :=
  match fieldValues f executions with
  | [] => Normal None
  | [(p, v)] => Normal (Some (mkResult f v [or_else p "unknown"] 1 None))
  | values => bindC (resolveFieldConflicts f values s) (fun r => Normal (Some r))
  end.

Fixpoint aggregateFieldResults_from (results : JsMap.t FieldAggregationResult)
    (requestedFields : list string) (executions : list ProviderExecution)
    (s : AggregationStrategy) : Completion (JsMap.t FieldAggregationResult) :=
  match requestedFields with
  | [] => Normal results
  | f :: rest =>
      bindC (aggregateField f executions s) (fun fr =>
        aggregateFieldResults_from
          (match fr with
           | Some x => JsMap.set f x results
           | None => results
           end)
          rest executions s)
  end.

Definition aggregateFieldResults (requestedFields : list string)
    (executions : list ProviderExecution) (s : AggregationStrategy)
    : Completion (JsMap.t FieldAggregationResult) :=
  aggregateFieldResults_from JsMap.empty requestedFields executions s.

(** [buildTokenData] and [buildWalletData] have the same body.  The loop
    writes every result under the name of its field; the assignments to
    [dataSource] and [lastUpdated] that follow replace what the loop wrote
    under these two names. *)
Definition buildData (now : Z) (results : JsMap.t FieldAggregationResult)
    : AggregatedData :=
  let written :=
    fold_left (fun d fr => JsMap.set (fst fr) (value (snd fr)) d)
              results JsMap.empty in
  mkData (JsMap.delete "lastUpdated" (JsMap.delete "dataSource" written))
         (Some (dedup (flat_map (fun fr => sources (snd fr)) results)))
         (Some now).

Definition buildTokenData := buildData.

Definition buildWalletData := buildData.

Definition buildResponseMetadata (executions : list ProviderExecution)
    (startTime now : Z) : ResponseMetadata :=
  mkMetadata
    (dedup (map provider (filter success executions)))
    (Z.max 1 (now - startTime))
    now
    (Some (fold_left (fun h e => JsMap.set (provider e) (success e) h)
                     executions JsMap.empty)).

Definition extractErrors (executions : list ProviderExecution) : list ErrorEntry :=
  flat_map
    (fun e =>
       if success e then []
       else match error e with
            | Some err => [mkErrorEntry (provider e) (message err) true]
            | None => []
            end)
    executions.

(** The response of the [catch] branch. *)
Definition failureResponse (e : JsError) (startTime now : Z) : SDKResponse :=
  mkSDKResponse (mkData JsMap.empty None None)
                (mkMetadata [] (now - startTime) now None)
                [mkErrorEntry "aggregator" (message e) false].

(** The failed executions synthesized for the requested fields that the
    routing plan does not cover. *)
Definition missingProviderExecutions (requested : list string)
    (routingPlan : JsMap.t FieldRouter.RoutingPlan) (a : t)
    : list ProviderExecution :=
  flat_map
    (fun f =>
       if JsMap.has f routingPlan then []
       else
         let missingProvider :=
           match FieldRouter.getFieldPriorities f (fieldRouter a) with
           | Some (p :: _) => or_else p "unknown"
           | _ => "unknown"
           end in
         [notFound missingProvider 1])
    requested.

(** All executions of a token request, with the state they leave. *)
Definition tokenDataExecutions (request : TokenDataAggregationRequest)
    (startTime : Z) (a : t) : Run * list ProviderExecution :=
  let routingPlan :=
    FieldRouter.planTokenDataRouting (fields request) (options request)
      (fieldRouter a) in
  let missing := missingProviderExecutions (fields request) routingPlan a in
  let '(run, executions) :=
    executeTokenDataRequests (assetUnit request) routingPlan (options request)
      startTime a in
  (run, (executions ++ missing)%list).

Definition walletDataExecutions (request : WalletDataAggregationRequest)
    (startTime : Z) (a : t) : Run * list ProviderExecution :=
  let routingPlan :=
    FieldRouter.planWalletDataRouting (wallet_fields request)
      (wallet_options request) (fieldRouter a) in
  executeWalletDataRequests (address request) routingPlan (wallet_options request)
    startTime a.

(** The tail shared by both entry points: aggregate, build, or catch. *)
Definition respond (requested : list string) (s : AggregationStrategy)
    (startTime : Z) (a : t) (done : Run * list ProviderExecution)
    : SDKResponse * t :=
  let '(run, executions) := done in
  let a' := mk (router run) (providers a) (defaultStrategy a) in
  match aggregateFieldResults requested executions s with
  | Normal results =>
      (mkSDKResponse (buildData (clock run) results)
                     (buildResponseMetadata executions startTime (clock run))
                     (extractErrors executions),
       a')
  | Throw e => (failureResponse e startTime (clock run), a')
  end.

Definition aggregateTokenData (request : TokenDataAggregationRequest)
    (startTime : Z) (a : t) : SDKResponse * t :=
  let s := match strategy request with
           | Some s => s
           | None => defaultStrategy a
           end in
  respond (fields request) s startTime a (tokenDataExecutions request startTime a).

Definition aggregateWalletData (request : WalletDataAggregationRequest)
    (startTime : Z) (a : t) : SDKResponse * t :=
  let s := match wallet_strategy request with
           | Some s => s
           | None => defaultStrategy a
           end in
  respond (wallet_fields request) s startTime a
    (walletDataExecutions request startTime a).

End Aggregator.
Arguments t Value : clear implicits.
Arguments ProviderExecution Value : clear implicits.
Arguments FieldAggregationResult Value : clear implicits.
Arguments UniqueValue Value : clear implicits.
Arguments SDKResponse Value : clear implicits.
Arguments AggregatedData Value : clear implicits.
Arguments DataProperty Value : clear implicits.
Arguments TokenDataAggregationRequest : clear implicits.
Arguments WalletDataAggregationRequest : clear implicits.

End DataAggregator.

(** ** Fixtures of the examples *)

(** [estimateObjectSize] on string values. *)
Definition string_size (s : string) : Z := Z.of_nat (String.length s) * 2.

(** Field values of the examples: a JSON primitive, written as its JSON
    text, or a [BigInt], which [JSON.stringify] refuses. *)
Inductive JsPrim :=
| Json (text : string)
| BigInt (z : Z).

Definition prim_stringify (v : JsPrim) : Completion string :=
  match v with
  | Json text => Normal text
  | BigInt _ => Throw (mkError "Do not know how to serialize a BigInt")
  end.

Definition prim_strict_eq (a b : JsPrim) : bool :=
  match a, b with
  | Json x, Json y => (x =? y)%string
  | BigInt x, BigInt y => x =? y
  | _, _ => false
  end.

(** A provider that answers every call after [ms] milliseconds with the
    same response. *)
Definition steady (n : string) (token wallet : option (list string)) (ms : Z)
    (resp : Provider.ProviderResponse JsPrim) : Provider.DataProvider JsPrim :=
  Provider.mkProvider n (Provider.mkCapabilities token wallet)
    (fun _ _ _ => Provider.mkCall ms (Provider.Resolved resp))
    (fun _ _ _ => Provider.mkCall ms (Provider.Resolved resp)).

Definition answers (d : JsMap.t JsPrim) : Provider.ProviderResponse JsPrim :=
  Provider.mkResponse true (Some d) None.

(** The providers of tests/unit/sdk/data-aggregator.test.ts. *)
Definition coingecko : Provider.DataProvider JsPrim :=
  steady "coingecko" (Some ["price"; "priceUsd"; "marketCap"]) (Some []) 20
    (answers [("price", Json "0.45"); ("priceUsd", Json "0.45");
              ("marketCap", Json "15000000000")]).

Definition taptools : Provider.DataProvider JsPrim :=
  steady "taptools" (Some ["holders"; "price"]) (Some ["portfolio"]) 30
    (answers [("holders", Json "1500000"); ("price", Json "0.46")]).

Definition price_aggregator : DataAggregator.t JsPrim :=
  DataAggregator.new 0 [coingecko; taptools] [("price", ["coingecko"; "taptools"])].

Definition by_priority : DataAggregator.AggregationStrategy :=
  DataAggregator.mkStrategy DataAggregator.first DataAggregator.priority.

(** A provider whose response says [success: false] and carries no error. *)
Definition silent : Provider.DataProvider JsPrim :=
  steady "silent" (Some ["price"]) (Some []) 10 (Provider.mkResponse false None None).

(** A provider whose response says [success: false] and carries an error. *)
Definition refusing (n msg : string) : Provider.DataProvider JsPrim :=
  steady n (Some ["price"]) (Some []) 10
    (Provider.mkResponse false None (Some (mkError msg))).

(** A provider that reports the supply as a [BigInt]. *)
Definition ledger (n : string) (supply : Z) : Provider.DataProvider JsPrim :=
  steady n (Some ["totalSupply"]) (Some []) 10
    (answers [("totalSupply", BigInt supply)]).

Definition blockfrost : Provider.DataProvider JsPrim :=
  steady "blockfrost" (Some ["name"; "symbol"; "decimals"; "totalSupply"])
    (Some ["balance"]) 40
    (answers [("decimals", Json "6"); ("totalSupply", Json "45000000000")]).

(** Guarded calls of the circuit breaker examples, entered at [t0] and
    settled 5 ms later. *)
Definition failing (t0 : Z) : CircuitBreaker.Call unit :=
  CircuitBreaker.mkCall t0 (Throw (mkError "ECONNRESET")) (t0 + 5).

Definition passing (t0 : Z) : CircuitBreaker.Call unit :=
  CircuitBreaker.mkCall t0 (Normal tt) (t0 + 5).

(** ** Cache keys (src/sdk/cache/cache-key-builder.ts) *)

(** [String.prototype.split] with a separator of one character. *)
Fixpoint split (sep : ascii) (s : string) : list string :=
  match s with
  | EmptyString => [EmptyString]
  | String c s' =>
      if Ascii.eqb c sep then EmptyString :: split sep s'
      else match split sep s' with
           | x :: xs => String c x :: xs
           | [] => [String c EmptyString]
           end
  end.

(** [Array.prototype.join]. *)
Fixpoint join (sep : string) (parts : list string) : string :=
  match parts with
  | [] => EmptyString
  | x :: xs =>
      match xs with
      | [] => x
      | _ => x ++ sep ++ join sep xs
      end
  end.

(** [Array.prototype.sort] on strings, with the default order. *)
Fixpoint sort_insert (x : string) (l : list string) : list string :=
  match l with
  | [] => [x]
  | y :: l' => if String.leb x y then x :: l else y :: sort_insert x l'
  end.

Definition sort (l : list string) : list string := fold_right sort_insert [] l.

Record CacheKeyMetadata := mkKeyMetadata {
  key_type : string;
  identifier : string;
  key_fields : option (list string);
  key_provider : option string;
  key_providers : option (list string)
}.

(** ['token' | 'wallet'] *)
Inductive DataType := token | wallet.

Definition type_name (t : DataType) : string :=
  match t with
  | token => "token"
  | wallet => "wallet"
  end.

Module SimpleCacheKeyBuilder.

Definition buildTokenDataKey (assetUnit : string) : string := "token:" ++ assetUnit.

Definition buildWalletDataKey (address : string) : string := "wallet:" ++ address.

Definition buildAggregatedKey (type : DataType) (id : string) : string :=
  "aggregated:" ++ type_name type ++ ":" ++ id.

Definition parseKey (key : string) : option CacheKeyMetadata :=
  let parts := split ":" key in
  if (List.length parts <? 2)%nat then None
  else
    match parts with
    | p0 :: _ =>
        if (p0 =? "aggregated")%string
        then Some (mkKeyMetadata "aggregated" (join ":" (skipn 2 parts)) None None None)
        else Some (mkKeyMetadata p0 (join ":" (skipn 1 parts)) None None None)
    | [] => None
    end.

End SimpleCacheKeyBuilder.

Module DefaultCacheKeyBuilder.

Definition separator : string := ":".

Definition version : string := "v1".

(** [[a-zA-Z0-9_-]] *)
Definition allowed (c : ascii) : bool :=
  let n := nat_of_ascii c in
  ((97 <=? n) && (n <=? 122) || (65 <=? n) && (n <=? 90) || (48 <=? n) && (n <=? 57)
   || (n =? 95) || (n =? 45))%nat.

Fixpoint replace_disallowed (s : string) : string :=
  match s with
  | EmptyString => EmptyString
  | String c s' => String (if allowed c then c else "_"%char) (replace_disallowed s')
  end.

Definition sanitizeIdentifier (id : string) : string := lower (replace_disallowed id).

Section Hash.
(** [createHash('md5').update(s).digest('hex')] *)
Variable md5_hex : string -> string.

Definition hashFields (fields : list string) : string :=
  substring 0 8 (md5_hex (join "," fields)).

(** The optional parts of a key: [name] and the hash of the sorted list,
    when the list is given and not empty. *)
Definition hashed_part (name : string) (l : option (list string)) : list string :=
  match l with
  | Some (x :: xs) => [name; hashFields (sort (x :: xs))]
  | _ => []
  end.

Definition provider_part (provider : option string) : list string :=
  match provider with
  | Some p => if truthy p then ["provider"; sanitizeIdentifier p] else []
  | None => []
  end.

Definition buildTokenDataKey (assetUnit : string) (fields : option (list string))
    (provider : option string) : string :=
  join separator
    ([version; "token"; sanitizeIdentifier assetUnit]
     ++ provider_part provider ++ hashed_part "fields" fields).

Definition buildWalletDataKey (address : string) (fields : option (list string))
    (provider : option string) : string :=
  join separator
    ([version; "wallet"; sanitizeIdentifier address]
     ++ provider_part provider ++ hashed_part "fields" fields).

Definition buildAggregatedKey (type : DataType) (id : string)
    (fields providers : option (list string)) : string :=
  join separator
    ([version; "aggregated"; type_name type; sanitizeIdentifier id]
     ++ hashed_part "providers" providers ++ hashed_part "fields" fields).

Definition buildHealthCheckKey (provider : string) : string :=
  join separator [version; "health"; sanitizeIdentifier provider].

End Hash.

(** The loops over the additional parts, two at a time. *)
Fixpoint parseAggregatedParts (parts : list string) (md : CacheKeyMetadata)
    : CacheKeyMetadata :=
  match parts with
  | key :: value :: rest =>
      let md :=
        if truthy value then
          if (key =? "providers")%string
          then mkKeyMetadata (key_type md) (identifier md) (key_fields md)
                 (key_provider md) (Some ["multiple"])
          else if (key =? "fields")%string
          then mkKeyMetadata (key_type md) (identifier md) (Some ["multiple"])
                 (key_provider md) (key_providers md)
          else md
        else md in
      parseAggregatedParts rest md
  | _ => md
  end.

Fixpoint parseRegularParts (parts : list string) (md : CacheKeyMetadata)
    : CacheKeyMetadata :=
  match parts with
  | key :: value :: rest =>
      let md :=
        if truthy value then
          if (key =? "provider")%string
          then mkKeyMetadata (key_type md) (identifier md) (key_fields md)
                 (Some value) (key_providers md)
          else if (key =? "fields")%string
          then mkKeyMetadata (key_type md) (identifier md) (Some ["multiple"])
                 (key_provider md) (key_providers md)
          else md
        else md in
      parseRegularParts rest md
  | _ => md
  end.

Definition parseKey (key : string) : option CacheKeyMetadata :=
  match split ":" key with
  | p0 :: p1 :: p2 :: rest =>
      if negb (p0 =? version)%string then None
      else if (p1 =? "aggregated")%string then
        match rest with
        | p3 :: rest' =>
            Some (parseAggregatedParts rest'
                    (mkKeyMetadata "aggregated" p3 None None None))
        | [] => None
        end
      else Some (parseRegularParts rest (mkKeyMetadata p1 p2 None None None))
  | _ => None
  end.

End DefaultCacheKeyBuilder.

(** [s.includes(c)] for a character. *)
Fixpoint has_char (c : ascii) (s : string) : bool :=
  match s with
  | EmptyString => false
  | String x s' => Ascii.eqb x c || has_char c s'
  end.

(** A stand-in for MD5 in the examples: the digest of the empty input,
    whatever the input. *)
Definition constant_digest (s : string) : string := "d41d8cd98f00b204e9800998ecf8427e".

(** What [parseKey] finds in a key. *)
Definition fields_marker (fields : option (list string)) : option (list string) :=
  match fields with
  | Some (_ :: _) => Some ["multiple"]
  | _ => None
  end.

Definition provider_marker (provider : option string) : option string :=
  match provider with
  | Some p => if truthy p then Some (DefaultCacheKeyBuilder.sanitizeIdentifier p) else None
  | None => None
  end.

(** The attempt numbers [n], [n + 1], ..., [k] of them. *)
Fixpoint seqZ (n : Z) (k : nat) : list Z :=
  match k with
  | O => []
  | S k' => n :: seqZ (n + 1) k'
  end.

(** A function that rejects its first call with a plain error and resolves
    afterwards. *)
Definition flaky (n : Z) : RetryExecutor.Outcome string :=
  if n =? 1
  then RetryExecutor.Rejected (Errors.Err (Errors.Plain (mkError "Network timeout")))
  else RetryExecutor.Resolved "0.45".

(** The breaker after four failures and two calls that overlap: entered at
    40 and 41 on the closed breaker, the first rejected at 50, the second
    resolved at 60. *)
Definition overlapped : CircuitBreaker.t :=
  let cfg := CircuitBreaker.defaultConfig in
  let b := CircuitBreaker.run cfg [failing 0; failing 10; failing 20; failing 30]
             CircuitBreaker.init in
  let b := fst (CircuitBreaker.enter cfg 40 b) in
  let b := fst (CircuitBreaker.enter cfg 41 b) in
  let b := CircuitBreaker.settle cfg (Throw (mkError "ECONNRESET") : Completion unit) 50 b in
  CircuitBreaker.settle cfg (Normal tt) 60 b.

(** ** Predicates of the circuit breaker statements *)

(** A guarded call whose function rejects. *)
Definition call_fails {T} (c : CircuitBreaker.Call T) : Prop :=
  exists e, CircuitBreaker.fn c = Throw e.

(** A guarded call whose function resolves. *)
Definition call_succeeds {T} (c : CircuitBreaker.Call T) : Prop :=
  exists r, CircuitBreaker.fn c = Normal r.

(** What the fields of a breaker satisfy between two calls. *)
Definition breaker_inv (cfg : CircuitBreaker.Config) (b : CircuitBreaker.t) : Prop :=
  0 <= CircuitBreaker.failures b
  /\ match CircuitBreaker.state b with
     | CircuitBreaker.closed =>
         1 <= CircuitBreaker.failureThreshold cfg ->
         CircuitBreaker.failures b < CircuitBreaker.failureThreshold cfg
     | CircuitBreaker.open =>
         CircuitBreaker.failureThreshold cfg <= CircuitBreaker.failures b
         /\ CircuitBreaker.lastFailureTime b <> None
     | CircuitBreaker.half_open => True
     end.

(** ** Predicates of the field router statements *)

(** The choice of the [priority] strategy among the candidates. *)
Definition priority_choice (ps : option (list string)) (candidates : list string)
    (p : string) : Prop :=
  In p candidates
  /\ match ps with
     | Some l =>
         (exists before after,
             l = (before ++ p :: after)%list
             /\ forall q, In q before -> ~ In q candidates)
         \/ ((forall q, In q l -> ~ In q candidates) /\ hd_error candidates = Some p)
     | None => hd_error candidates = Some p
     end.

(** The bookkeeping of one metrics record stored under the name [n]. *)
Definition metrics_ok (n : string) (m : FieldRouter.ProviderMetrics) : Prop :=
  FieldRouter.provider m = n
  /\ 0 <= FieldRouter.failedRequests m <= FieldRouter.totalRequests m
  /\ (0 <= FieldRouter.successRate m <= 1)%Q
  /\ (FieldRouter.successRate m ==
      if FieldRouter.totalRequests m =? 0 then 1
      else inject_Z (FieldRouter.totalRequests m - FieldRouter.failedRequests m)
           / inject_Z (FieldRouter.totalRequests m))%Q
  /\ FieldRouter.metrics_cost m = None.

(** Registry and metrics go together, and every record is well kept. *)
Definition router_inv {Value} (r : FieldRouter.t Value) : Prop :=
  (forall n, JsMap.has n (FieldRouter.providers r) = JsMap.has n (FieldRouter.metrics r))
  /\ (forall n m, JsMap.get n (FieldRouter.metrics r) = Some m -> metrics_ok n m).

(** [metrics.get(p)?.successRate ?? 0] *)
Definition rate_or_zero {Value} (r : FieldRouter.t Value) (p : string) : Q :=
  match JsMap.get p (FieldRouter.metrics r) with
  | Some m => FieldRouter.successRate m
  | None => 0%Q
  end.

(** ** Quantities of the aggregator statements *)

(** The number of supplied values that a list of distinct values stands for. *)
Definition count_sum {Value} (us : list (DataAggregator.UniqueValue Value)) : Z :=
  fold_right Z.add 0 (map (@DataAggregator.count Value) us).

(** ** Fixtures of the aggregation examples *)

(** Field values given by their JSON text. *)
Definition text_stringify (v : string) : Completion string := Normal v.

(** Executions of a request for [price] and [holders]: two providers answer
    the price, one provider fails. *)
Definition price_executions : list (DataAggregator.ProviderExecution JsPrim) :=
  [DataAggregator.mkExecution "taptools" true
     (Some [("holders", Json "1500000"); ("price", Json "0.46")]) None 30 ["holders"];
   DataAggregator.mkExecution "coingecko" true
     (Some [("price", Json "0.45")]) None 20 ["price"];
   DataAggregator.mkExecution "blockfrost" false None
     (Some (mkError "HTTP 500")) 40 []].

(** The same executions with JSON texts as values and an agreed price. *)
Definition agreeing_executions : list (DataAggregator.ProviderExecution string) :=
  [DataAggregator.mkExecution "taptools" true
     (Some [("holders", "1500000"); ("price", "0.45")]) None 30 ["holders"];
   DataAggregator.mkExecution "coingecko" true
     (Some [("price", "0.45")]) None 20 ["price"];
   DataAggregator.mkExecution "blockfrost" false None
     (Some (mkError "HTTP 500")) 40 []].

(** The execution of a request for [decimals] and [lastUpdated]: the
    provider answers both. *)
Definition dated_executions : list (DataAggregator.ProviderExecution JsPrim) :=
  [DataAggregator.mkExecution "blockfrost" true
     (Some [("decimals", Json "6"); ("lastUpdated", Json "1704067200000")]) None 40
     ["decimals"; "lastUpdated"]].

(** A strategy that resolves conflicts by majority. *)
Definition by_majority : DataAggregator.AggregationStrategy :=
  DataAggregator.mkStrategy DataAggregator.first DataAggregator.majority.

(** ** The recency list of the cache *)

(** What comes first in [l], or after it. *)
Definition first_from (q : option string) (l : list string) : option string :=
  match l with
  | [] => q
  | x :: _ => Some x
  end.

(** What comes last in [l], or before it. *)
Definition last_from (p : option string) (l : list string) : option string :=
  fold_left (fun _ x => Some x) l p.

(** [o] is the key [x]. *)
Definition is_key (o : option string) (x : string) : bool :=
  match o with
  | Some y => (y =? x)%string
  | None => false
  end.

(** [seg p l q lk]: in the table of links [lk], the keys of [l] are linked
    one to the next, the first one back to [p] and the last one on to [q]. *)
Fixpoint seg (p : option string) (l : list string) (q : option string)
    (lk : string -> option (option string * option string)) : Prop :=
  match l with
  | [] => True
  | k :: l' => lk k = Some (p, first_from q l') /\ seg (Some k) l' q lk
  end.

Definition without (k : string) (l : list string) : list string :=
  filter (fun x => negb (x =? k)%string) l.

Section Recency.
Context {V : Type}.

(** The links of the node stored under a key. *)
Definition links (m : JsMap.t (MemoryCache.LRUNode V)) (k : string)
    : option (option string * option string) :=
  option_map (fun n => (MemoryCache.prev n, MemoryCache.next n)) (JsMap.get k m).

(** [l] is the doubly linked list of the cache, most recently used first. *)
Definition linked (l : list string) (c : MemoryCache.t V) : Prop :=
  NoDup l
  /\ MemoryCache.head c = first_from None l
  /\ MemoryCache.tail c = last_from None l
  /\ seg None l None (links (MemoryCache.cache c)).

(** The keys of [l] are the keys of the store. *)
Definition covers (l : list string) (c : MemoryCache.t V) : Prop :=
  NoDup (JsMap.keys (MemoryCache.cache c))
  /\ forall k, In k l <-> In k (JsMap.keys (MemoryCache.cache c)).



(** The splice shared by [deleteNode] and [moveToHead]: the neighbours of
    the node are linked to each other. *)
Definition unlink (node : MemoryCache.LRUNode V) (c : MemoryCache.t V) : MemoryCache.t V :=
  let c :=
    match MemoryCache.prev node with
    | Some p =>
        MemoryCache.with_cache
          (JsMap.update p (MemoryCache.set_next (MemoryCache.next node))) c
    | None => MemoryCache.with_head (MemoryCache.next node) c
    end in
  match MemoryCache.next node with
  | Some n =>
      MemoryCache.with_cache
        (JsMap.update n (MemoryCache.set_prev (MemoryCache.prev node))) c
  | None => MemoryCache.with_tail (MemoryCache.prev node) c
  end.

(** What holds of a cache between two operations. *)
Definition cache_inv (l : list string) (c : MemoryCache.t V) : Prop :=
  linked l c
  /\ covers l c
  /\ MemoryCache.keys_ok c
  /\ MemoryCache.size (MemoryCache.stats c) = Z.of_nat (List.length l).

(** The list after [set]. *)
Definition list_after_set (k : string) (l : list string) (c : MemoryCache.t V)
    : list string :=
  k :: (if MemoryCache.present k c then without k l
        else if MemoryCache.maxSize (MemoryCache.options c)
                <=? JsMap.size (MemoryCache.cache c)
             then removelast l else l).

(** The list after [get]. *)
Definition list_after_get (k : string) (now : Z) (l : list string) (c : MemoryCache.t V)
    : list string :=
  match JsMap.get k (MemoryCache.cache c) with
  | None => l
  | Some node =>
      if MemoryCache.isExpired now (MemoryCache.entry node)
      then without k l else k :: without k l
  end.

End Recency.

(** * Verified properties *)

(** ** Retry back-off *)

Section RetryBounds.
Variable rnd : Q -> Q.
Hypothesis rnd_mono : forall x y : Q, (x <= y)%Q -> (rnd x <= rnd y)%Q.
Hypothesis rnd_int :
  forall z : Z, Z.abs z <= RetryExecutor.two_53 -> (rnd (inject_Z z) == inject_Z z)%Q.

Lemma rnd_between (a b : Z) (x : Q) :
  Z.abs a <= RetryExecutor.two_53 -> Z.abs b <= RetryExecutor.two_53 ->
  (inject_Z a <= x <= inject_Z b)%Q ->
  (inject_Z a <= rnd x <= inject_Z b)%Q.
Proof.
  intros Ha Hb [H1 H2]. split.
  - rewrite <- (rnd_int a Ha). now apply rnd_mono.
  - rewrite <- (rnd_int b Hb). now apply rnd_mono.
Qed.

Lemma Math_round_between (a b : Z) (x : Q) :
  (inject_Z a <= x <= inject_Z b)%Q ->
  a <= RetryExecutor.Math_round x <= b.
Proof.
  intros [H1 H2]. unfold RetryExecutor.Math_round. split.
  - rewrite <- (Qfloor_Z a). apply Qfloor_resp_le. lra.
  - pose proof (Qfloor_le (x + (1 # 2))) as Hf.
    assert (Hlt : (inject_Z (Qfloor (x + (1 # 2))) < inject_Z (b + 1))%Q).
    { rewrite inject_Z_plus. change (inject_Z 1) with 1%Q. lra. }
    rewrite <- Zlt_Qlt in Hlt. lia.
Qed.

(** Window of the jittered delay around an integral capped delay [D]:
    the jitter range [D * 0.1] is at most [J]. *)
Lemma jitter_window (D J : Z) (d r : Q) :
  0 <= D -> 0 <= J -> D + J <= RetryExecutor.two_53 ->
  (d == inject_Z D)%Q ->
  (inject_Z D * RetryExecutor.lit_0_1 <= inject_Z J)%Q ->
  (0 <= r < 1)%Q ->
  let jitterRange := rnd (d * RetryExecutor.lit_0_1) in
  let jit := rnd (rnd (rnd (r * 2) - 1) * jitterRange) in
  D - J <= RetryExecutor.Math_round (rnd (d + jit)) <= D + J.
Proof.
  intros HD HJ Hsz Hd HlitJ Hr jitterRange jit.
  unfold RetryExecutor.two_53 in *.
  assert (Hjr : (inject_Z 0 <= jitterRange <= inject_Z J)%Q).
  { apply rnd_between; try (unfold RetryExecutor.two_53; lia).
    rewrite Hd. split; [| exact HlitJ].
    change (inject_Z 0) with 0%Q.
    apply Qmult_le_0_compat; [| now vm_compute].
    change 0%Q with (inject_Z 0). now rewrite <- Zle_Qle. }
  assert (Hu : (inject_Z 0 <= rnd (r * 2) <= inject_Z 2)%Q).
  { apply rnd_between; try (unfold RetryExecutor.two_53; lia).
    change (inject_Z 0) with 0%Q. change (inject_Z 2) with 2%Q. lra. }
  assert (Hv : (inject_Z (-1) <= rnd (rnd (r * 2) - 1) <= inject_Z 1)%Q).
  { apply rnd_between; try (unfold RetryExecutor.two_53; lia).
    change (inject_Z 0) with 0%Q in Hu. change (inject_Z 2) with 2%Q in Hu.
    change (inject_Z (-1)) with (-1)%Q. change (inject_Z 1) with 1%Q. lra. }
  assert (HJq : (0 <= inject_Z J)%Q).
  { change 0%Q with (inject_Z 0). now rewrite <- Zle_Qle. }
  assert (Hw : (inject_Z (- J) <= jit <= inject_Z J)%Q).
  { apply rnd_between; try (unfold RetryExecutor.two_53; lia).
    rewrite inject_Z_opp.
    change (inject_Z 0) with 0%Q in Hjr.
    change (inject_Z (-1)) with (-1)%Q in Hv. change (inject_Z 1) with 1%Q in Hv.
    destruct Hjr as [Hj0 Hj1], Hv as [Hv0 Hv1].
    set (v := rnd (rnd (r * 2) - 1)) in *. set (j := jitterRange) in *.
    split; nra. }
  apply Math_round_between. apply rnd_between; try (unfold RetryExecutor.two_53; lia).
  rewrite Hd. unfold Z.sub. rewrite !inject_Z_plus. lra.
Qed.

Lemma rnd_proper (x y : Q) : (x == y)%Q -> (rnd x == rnd y)%Q.
Proof.
  intros H. apply Qle_antisym; apply rnd_mono; rewrite H; apply Qle_refl.
Qed.

(** The capped exponential delay [min(100 * 2^k, maxDelay)] for the two
    first retries, when the cap is at least 250. *)
Lemma capped_delay (k P : Z) (maxD : Q) :
  (Qpower 2 k == inject_Z P)%Q -> 0 <= P <= 2 ->
  (250 <= maxD)%Q ->
  (Qmin (rnd (100 * rnd (Qpower 2 k))) maxD == inject_Z (100 * P))%Q.
Proof.
  intros Hp HP Hmax.
  assert (Hd : (rnd (100 * rnd (Qpower 2 k)) == inject_Z (100 * P))%Q).
  { assert (Hk : (rnd (Qpower 2 k) == inject_Z P)%Q).
    { rewrite (rnd_proper _ _ Hp). apply rnd_int. unfold RetryExecutor.two_53; lia. }
    apply Qeq_trans with (y := rnd (inject_Z (100 * P))).
    - apply rnd_proper. rewrite Hk, inject_Z_mult. reflexivity.
    - apply rnd_int. unfold RetryExecutor.two_53; lia. }
  rewrite Q.min_l; [exact Hd |].
  rewrite Hd. apply Qle_trans with (y := 250%Q); [| exact Hmax].
  change 250%Q with (inject_Z 250). rewrite <- Zle_Qle. lia.
Qed.

(** C9.  With [baseDelay = 100], [backoffMultiplier = 2], a cap of at least
    250 ms and jitter enabled, whatever [Math.random()] returns, the delay
    slept after the first failed attempt lies in [75, 125] and the delay
    slept after the second failed attempt lies in [150, 250]. *)
Theorem retry_delay_within_bounds (maxA : Z) (maxD r1 r2 : Q) :
  (250 <= maxD)%Q -> (0 <= r1 < 1)%Q -> (0 <= r2 < 1)%Q ->
  let cfg := RetryExecutor.mkConfig maxA 100 maxD 2 true in
  75 <= RetryExecutor.calculateDelay rnd 1 cfg r1 <= 125 /\
  150 <= RetryExecutor.calculateDelay rnd 2 cfg r2 <= 250.
Proof.
  intros Hmax Hr1 Hr2 cfg.
  unfold RetryExecutor.calculateDelay, cfg; cbn [RetryExecutor.baseDelay
    RetryExecutor.maxDelay RetryExecutor.backoffMultiplier RetryExecutor.jitter].
  pose proof (capped_delay (1 - 1) 1 maxD (Qeq_refl _) ltac:(lia) Hmax) as H1.
  pose proof (capped_delay (2 - 1) 2 maxD (Qeq_refl _) ltac:(lia) Hmax) as H2.
  pose proof (jitter_window 100 11 _ r1 ltac:(lia) ltac:(lia)
                ltac:(now vm_compute) H1 ltac:(now vm_compute) Hr1) as W1.
  pose proof (jitter_window 200 21 _ r2 ltac:(lia) ltac:(lia)
                ltac:(now vm_compute) H2 ltac:(now vm_compute) Hr2) as W2.
  cbv zeta in W1, W2. lia.
Qed.

End RetryBounds.

(** The bounds hold in particular for exact arithmetic ([rnd] the
    identity), here with a cap of 10 s and draws 1/2 and 0. *)
Lemma retry_delay_within_bounds_witness :
  75 <= RetryExecutor.calculateDelay (fun x => x) 1
          (RetryExecutor.mkConfig 3 100 10000 2 true) (1 # 2) <= 125 /\
  150 <= RetryExecutor.calculateDelay (fun x => x) 2
          (RetryExecutor.mkConfig 3 100 10000 2 true) 0 <= 250.
Proof.
  apply (retry_delay_within_bounds (fun x => x)).
  - intros x y H; exact H.
  - intros z _; reflexivity.
  - now vm_compute.
  - split; now vm_compute.
  - split; now vm_compute.
Defined.

(** ** Maps *)

Section JsMapFacts.
Context {A : Type}.

Lemma JsMap_get_cons k k' (v : A) m :
  JsMap.get k ((k', v) :: m) = if (k =? k')%string then Some v else JsMap.get k m.
Proof. reflexivity. Qed.

Lemma JsMap_delete_cons k k' (v : A) m :
  JsMap.delete k ((k', v) :: m)
  = if (k =? k')%string then JsMap.delete k m else (k', v) :: JsMap.delete k m.
Proof. unfold JsMap.delete; simpl. now destruct (k =? k')%string. Qed.

Lemma JsMap_get_update k k' (f : A -> A) m :
  JsMap.get k (JsMap.update k' f m)
  = if (k' =? k)%string then option_map f (JsMap.get k m) else JsMap.get k m.
Proof.
  induction m as [| [k0 v0] m IH]; cbn.
  - now destruct (k' =? k)%string.
  - destruct (k' =? k0)%string eqn:E1; cbn; destruct (k =? k0)%string eqn:E2.
    + apply String.eqb_eq in E1, E2. subst. now rewrite String.eqb_refl.
    + exact IH.
    + destruct (k' =? k)%string eqn:E3; [| reflexivity].
      apply String.eqb_eq in E2, E3. subst. now rewrite String.eqb_refl in E1.
    + exact IH.
Qed.

Lemma JsMap_get_set_same k (v : A) m : JsMap.get k (JsMap.set k v m) = Some v.
Proof.
  induction m as [| [k0 v0] m IH]; cbn.
  - now rewrite String.eqb_refl.
  - destruct (k =? k0)%string eqn:E; cbn; rewrite E; [reflexivity | exact IH].
Qed.

Lemma JsMap_get_delete k k' (m : JsMap.t A) :
  JsMap.get k (JsMap.delete k' m)
  = if (k' =? k)%string then None else JsMap.get k m.
Proof.
  induction m as [| [k0 v0] m IH].
  - cbn. now destruct (k' =? k)%string.
  - rewrite JsMap_delete_cons, JsMap_get_cons.
    destruct (k' =? k0)%string eqn:E1.
    + rewrite IH. destruct (k' =? k)%string eqn:E2; [reflexivity |].
      destruct (k =? k0)%string eqn:E3; [| reflexivity].
      apply String.eqb_eq in E1, E3. subst. now rewrite String.eqb_refl in E2.
    + rewrite JsMap_get_cons. destruct (k =? k0)%string eqn:E3; [| exact IH].
      destruct (k' =? k)%string eqn:E2; [| reflexivity].
      apply String.eqb_eq in E2, E3. subst. now rewrite String.eqb_refl in E1.
Qed.

Lemma JsMap_get_set k k' (v : A) m :
  JsMap.get k (JsMap.set k' v m)
  = if (k' =? k)%string then Some v else JsMap.get k m.
Proof.
  induction m as [| [k0 v0] m IH]; cbn.
  - rewrite (String.eqb_sym k k'). now destruct (k' =? k)%string.
  - destruct (k' =? k0)%string eqn:E1; cbn; destruct (k =? k0)%string eqn:E2.
    + apply String.eqb_eq in E1, E2. subst. now rewrite String.eqb_refl.
    + destruct (k' =? k)%string eqn:E3; [| reflexivity].
      apply String.eqb_eq in E1, E3. subst. now rewrite String.eqb_refl in E2.
    + destruct (k' =? k)%string eqn:E3; [| reflexivity].
      apply String.eqb_eq in E2, E3. subst. now rewrite String.eqb_refl in E1.
    + exact IH.
Qed.

Lemma JsMap_get_delete_same k (m : JsMap.t A) :
  JsMap.get k (JsMap.delete k m) = None.
Proof. now rewrite JsMap_get_delete, String.eqb_refl. Qed.

Lemma JsMap_get_set_other k k' (v : A) m :
  k' <> k -> JsMap.get k (JsMap.set k' v m) = JsMap.get k m.
Proof.
  intros H. rewrite JsMap_get_set.
  destruct (k' =? k)%string eqn:E; [| reflexivity].
  now apply String.eqb_eq in E.
Qed.

End JsMapFacts.

(** ** Cache *)

Section CacheProps.
Context {V : Type}.
Variable estimateObjectSize : V -> Z.

Local Abbreviation cset := (MemoryCache.set estimateObjectSize) (only parsing).
Local Abbreviation cget := (MemoryCache.get estimateObjectSize) (only parsing).
Local Abbreviation chas := (MemoryCache.has estimateObjectSize) (only parsing).

Ltac keys_distinct H :=
  repeat match type of H with
         | NoDup (_ :: _) =>
             let Hn := fresh "Hn" in
             let Hd := fresh "Hd" in
             apply NoDup_cons_iff in H; destruct H as [Hn Hd];
             cbn [In] in Hn; keys_distinct Hd
         end.

(** Symbolic evaluation of the cache: a call is unfolded, one level, only
    when it is applied to an explicit node and an explicit cache, so that
    the innermost call goes first and every key comparison is settled
    before the state is used again. *)
Ltac cache_call :=
  match goal with
  | |- context [MemoryCache.with_cache ?f (MemoryCache.mk ?m ?h ?tl ?st ?o ?ls ?d)] =>
      let t := constr:(MemoryCache.with_cache f (MemoryCache.mk m h tl st o ls d)) in
      let t' := eval cbv beta zeta delta [MemoryCache.with_cache] in t in
      replace t with t' by reflexivity
  | |- context [MemoryCache.with_head ?x (MemoryCache.mk ?m ?h ?tl ?st ?o ?ls ?d)] =>
      let t := constr:(MemoryCache.with_head x (MemoryCache.mk m h tl st o ls d)) in
      let t' := eval cbv beta zeta delta [MemoryCache.with_head] in t in
      replace t with t' by reflexivity
  | |- context [MemoryCache.with_tail ?x (MemoryCache.mk ?m ?h ?tl ?st ?o ?ls ?d)] =>
      let t := constr:(MemoryCache.with_tail x (MemoryCache.mk m h tl st o ls d)) in
      let t' := eval cbv beta zeta delta [MemoryCache.with_tail] in t in
      replace t with t' by reflexivity
  | |- context [MemoryCache.with_stats ?f (MemoryCache.mk ?m ?h ?tl ?st ?o ?ls ?d)] =>
      let t := constr:(MemoryCache.with_stats f (MemoryCache.mk m h tl st o ls d)) in
      let t' := eval cbv beta zeta delta [MemoryCache.with_stats] in t in
      replace t with t' by reflexivity
  | |- context [MemoryCache.incrementHits (MemoryCache.mk ?m ?h ?tl ?st ?o ?ls ?d)] =>
      let t := constr:(MemoryCache.incrementHits (MemoryCache.mk m h tl st o ls d)) in
      let t' := eval cbv beta zeta delta [MemoryCache.incrementHits] in t in
      replace t with t' by reflexivity
  | |- context [MemoryCache.incrementMisses (MemoryCache.mk ?m ?h ?tl ?st ?o ?ls ?d)] =>
      let t := constr:(MemoryCache.incrementMisses (MemoryCache.mk m h tl st o ls d)) in
      let t' := eval cbv beta zeta delta [MemoryCache.incrementMisses] in t in
      replace t with t' by reflexivity
  | |- context [MemoryCache.updateMemoryUsage ?sz (MemoryCache.mk ?m ?h ?tl ?st ?o ?ls ?d)] =>
      let t := constr:(MemoryCache.updateMemoryUsage sz (MemoryCache.mk m h tl st o ls d)) in
      let t' := eval cbv beta zeta delta [MemoryCache.updateMemoryUsage] in t in
      replace t with t' by reflexivity
  | |- context [MemoryCache.emitEvent ?ev ?k (MemoryCache.mk ?m ?h ?tl ?st ?o ?ls ?d)] =>
      let t := constr:(MemoryCache.emitEvent ev k (MemoryCache.mk m h tl st o ls d)) in
      let t' := eval cbv beta zeta delta [MemoryCache.emitEvent] in t in
      replace t with t' by reflexivity
  | |- context [MemoryCache.deleteNode ?sz (MemoryCache.mkNode ?nk ?ne ?np ?nn)
                  (MemoryCache.mk ?m ?h ?tl ?st ?o ?ls ?d)] =>
      let t := constr:(MemoryCache.deleteNode sz (MemoryCache.mkNode nk ne np nn)
                         (MemoryCache.mk m h tl st o ls d)) in
      let t' := eval cbv beta zeta delta [MemoryCache.deleteNode] in t in
      replace t with t' by reflexivity
  | |- context [MemoryCache.addToHead ?k (MemoryCache.mk ?m ?h ?tl ?st ?o ?ls ?d)] =>
      let t := constr:(MemoryCache.addToHead k (MemoryCache.mk m h tl st o ls d)) in
      let t' := eval cbv beta zeta delta [MemoryCache.addToHead] in t in
      replace t with t' by reflexivity
  | |- context [MemoryCache.moveToHead (MemoryCache.mkNode ?nk ?ne ?np ?nn)
                  (MemoryCache.mk ?m ?h ?tl ?st ?o ?ls ?d)] =>
      let t := constr:(MemoryCache.moveToHead (MemoryCache.mkNode nk ne np nn)
                         (MemoryCache.mk m h tl st o ls d)) in
      let t' := eval cbv beta zeta delta [MemoryCache.moveToHead] in t in
      replace t with t' by reflexivity
  | |- context [MemoryCache.evictLRU ?sz (MemoryCache.mk ?m ?h ?tl ?st ?o ?ls ?d)] =>
      let t := constr:(MemoryCache.evictLRU sz (MemoryCache.mk m h tl st o ls d)) in
      let t' := eval cbv beta zeta delta [MemoryCache.evictLRU] in t in
      replace t with t' by reflexivity
  | |- context [MemoryCache.get ?sz ?k ?now (MemoryCache.mk ?m ?h ?tl ?st ?o ?ls ?d)] =>
      let t := constr:(MemoryCache.get sz k now (MemoryCache.mk m h tl st o ls d)) in
      let t' := eval cbv beta zeta delta [MemoryCache.get] in t in
      replace t with t' by reflexivity
  | |- context [MemoryCache.set ?sz ?k ?v ?o_ttl ?now (MemoryCache.mk ?m ?h ?tl ?st ?o ?ls ?d)] =>
      let t := constr:(MemoryCache.set sz k v o_ttl now (MemoryCache.mk m h tl st o ls d)) in
      let t' := eval cbv beta zeta delta [MemoryCache.set] in t in
      replace t with t' by reflexivity
  | |- context [MemoryCache.set_prev ?x (MemoryCache.mkNode ?nk ?ne ?np ?nn)] =>
      let t := constr:(MemoryCache.set_prev x (MemoryCache.mkNode nk ne np nn)) in
      let t' := eval cbv beta zeta delta [MemoryCache.set_prev] in t in
      replace t with t' by reflexivity
  | |- context [MemoryCache.set_next ?x (MemoryCache.mkNode ?nk ?ne ?np ?nn)] =>
      let t := constr:(MemoryCache.set_next x (MemoryCache.mkNode nk ne np nn)) in
      let t' := eval cbv beta zeta delta [MemoryCache.set_next] in t in
      replace t with t' by reflexivity
  | |- context [MemoryCache.set_entry ?x (MemoryCache.mkNode ?nk ?ne ?np ?nn)] =>
      let t := constr:(MemoryCache.set_entry x (MemoryCache.mkNode nk ne np nn)) in
      let t' := eval cbv beta zeta delta [MemoryCache.set_entry] in t in
      replace t with t' by reflexivity
  end.

Ltac cache_step :=
  first
    [ progress cbn [MemoryCache.cache MemoryCache.head MemoryCache.tail MemoryCache.stats
                    MemoryCache.options MemoryCache.eventListeners MemoryCache.delivered
                    MemoryCache.key MemoryCache.entry MemoryCache.prev MemoryCache.next
                    MemoryCache.value MemoryCache.ttl MemoryCache.createdAt
                    MemoryCache.expiresAt MemoryCache.accessCount MemoryCache.lastAccessed
                    MemoryCache.hits MemoryCache.misses MemoryCache.size
                    MemoryCache.stats_maxSize MemoryCache.memoryUsage
                    MemoryCache.defaultTtl MemoryCache.maxSize MemoryCache.enableStats
                    JsMap.get JsMap.set JsMap.delete JsMap.update map filter
                    fst snd negb]
    | progress unfold MemoryCache.isExpired
    | rewrite String.eqb_refl
    | match goal with
      | H : (_ =? _)%string = false |- _ => rewrite H
      | H : (_ <? _) = false |- _ => rewrite H
      end
    | match goal with
      | |- context [Z.leb ?a (JsMap.size ?m)] =>
          let v := eval vm_compute in (Z.leb a (JsMap.size m)) in
          change (Z.leb a (JsMap.size m)) with v
      end
    | cache_call ].

Ltac cache_norm :=
  unfold MemoryCache.new, MemoryCache.isExpired, JsMap.empty; repeat cache_step.

(** C6.  A cache of capacity 3, built by the constructor; four distinct
    keys; [set k1], [set k2], [set k3], a [get k1] that finds [k1] alive,
    then [set k4].  The fourth insertion evicts [k2]; [k1], [k3] and [k4]
    stay in the store. *)
Theorem lru_evicts_second_oldest
    (o_ttl : option Z) (o_stats : option bool)
    (k1 k2 k3 k4 : string) (v1 v2 v3 v4 : V)
    (ttl1 ttl2 ttl3 ttl4 : option Z) (t1 t2 t3 t4 t5 : Z) :
  NoDup [k1; k2; k3; k4] ->
  let c0 := MemoryCache.new o_ttl (Some 3) o_stats in
  let c1 := cset k1 v1 ttl1 t1 c0 in
  let c2 := cset k2 v2 ttl2 t2 c1 in
  let c3 := cset k3 v3 ttl3 t3 c2 in
  t4 <= t1 + (match ttl1 with
              | Some s => s
              | None => MemoryCache.defaultTtl (MemoryCache.options c0)
              end) * 1000 ->
  let c4 := fst (cget k1 t4 c3) in
  let c5 := cset k4 v4 ttl4 t5 c4 in
  snd (cget k1 t4 c3) = Some v1 /\
  MemoryCache.present k2 c5 = false /\
  MemoryCache.present k1 c5 = true /\
  MemoryCache.present k3 c5 = true /\
  MemoryCache.present k4 c5 = true.
Proof.
  intros Hnd.
  assert (E : forall a b : string, a <> b -> (a =? b)%string = false)
    by (intros a b; apply String.eqb_neq).
  assert (H12 : k1 <> k2 /\ k1 <> k3 /\ k1 <> k4 /\ k2 <> k3 /\ k2 <> k4 /\ k3 <> k4).
  { keys_distinct Hnd. intuition congruence. }
  destruct H12 as (H12 & H13 & H14 & H23 & H24 & H34).
  pose proof (E _ _ H12) as E12. pose proof (E _ _ H13) as E13.
  pose proof (E _ _ H14) as E14. pose proof (E _ _ H23) as E23.
  pose proof (E _ _ H24) as E24. pose proof (E _ _ H34) as E34.
  pose proof (E _ _ (not_eq_sym H12)) as E21. pose proof (E _ _ (not_eq_sym H13)) as E31.
  pose proof (E _ _ (not_eq_sym H14)) as E41. pose proof (E _ _ (not_eq_sym H23)) as E32.
  pose proof (E _ _ (not_eq_sym H24)) as E42. pose proof (E _ _ (not_eq_sym H34)) as E43.
  intros c0 c1 c2 c3 Hlive c4 c5.
  unfold MemoryCache.new in c0.
  cbn [MemoryCache.defaultTtl MemoryCache.options c0] in Hlive.
  subst c0. cbn [MemoryCache.defaultTtl MemoryCache.options] in Hlive.
  apply Z.ltb_ge in Hlive.
  destruct o_stats as [[|]|].
  all: eassert (S1 : c1 = _) by (subst c1; cache_norm; reflexivity).
  all: eassert (S2 : c2 = _) by (subst c2; rewrite S1; cache_norm; reflexivity).
  all: eassert (S3 : c3 = _) by (subst c3; rewrite S2; cache_norm; reflexivity).
  all: clearbody c3; clear S1 S2 c2 c1.
  all: eassert (S4 : cget k1 t4 c3 = _) by (rewrite S3; cache_norm; reflexivity).
  all: eassert (S5 : c5 = _)
    by (subst c5 c4; rewrite S4; cache_norm; reflexivity).
  all: rewrite S4, S5; unfold MemoryCache.present, JsMap.has; cache_norm; repeat split.
Qed.
(** *** Entries are only replaced by [set] *)

Ltac rec_simpl :=
  cbn [MemoryCache.cache MemoryCache.head MemoryCache.tail MemoryCache.stats
       MemoryCache.options MemoryCache.eventListeners MemoryCache.delivered
       MemoryCache.with_cache MemoryCache.with_head MemoryCache.with_tail
       MemoryCache.with_stats MemoryCache.key MemoryCache.entry MemoryCache.prev
       MemoryCache.next MemoryCache.set_prev MemoryCache.set_next
       MemoryCache.set_entry option_map].

Ltac rec_simpl_in H :=
  cbn [MemoryCache.cache MemoryCache.head MemoryCache.tail MemoryCache.stats
       MemoryCache.options MemoryCache.eventListeners MemoryCache.delivered
       MemoryCache.with_cache MemoryCache.with_head MemoryCache.with_tail
       MemoryCache.with_stats MemoryCache.key MemoryCache.entry MemoryCache.prev
       MemoryCache.next MemoryCache.set_prev MemoryCache.set_next
       MemoryCache.set_entry option_map] in H.

Lemma entry_at_update k k' f (c : MemoryCache.t V) :
  MemoryCache.keeps_entry f ->
  MemoryCache.entry_at k (MemoryCache.with_cache (JsMap.update k' f) c)
  = MemoryCache.entry_at k c.
Proof.
  intros Hf. unfold MemoryCache.entry_at. rec_simpl.
  rewrite JsMap_get_update. destruct (k' =? k)%string; [| reflexivity].
  destruct (JsMap.get k (MemoryCache.cache c)); rec_simpl; [now rewrite Hf | reflexivity].
Qed.

Lemma keeps_entry_set_prev p : MemoryCache.keeps_entry (@MemoryCache.set_prev V p).
Proof. now intros n. Qed.

Lemma keeps_entry_set_next p : MemoryCache.keeps_entry (@MemoryCache.set_next V p).
Proof. now intros n. Qed.

Lemma entry_at_addToHead k k' (c : MemoryCache.t V) :
  MemoryCache.entry_at k (MemoryCache.addToHead k' c) = MemoryCache.entry_at k c.
Proof.
  destruct c as [m [h |] [tl |] st o ls d];
    unfold MemoryCache.addToHead, MemoryCache.entry_at; rec_simpl;
    rewrite ?JsMap_get_update;
    repeat match goal with
           | |- context [(?a =? ?b)%string] => destruct (a =? b)%string
           end;
    destruct (JsMap.get k m); reflexivity.
Qed.


Lemma entry_at_moveToHead k node (c : MemoryCache.t V) :
  MemoryCache.entry_at k (MemoryCache.moveToHead node c) = MemoryCache.entry_at k c.
Proof.
  unfold MemoryCache.moveToHead.
  destruct (MemoryCache.prev node) as [p |]; [| reflexivity].
  rewrite entry_at_addToHead.
  destruct (MemoryCache.next node) as [n |].
  - rewrite !entry_at_update; auto using keeps_entry_set_prev, keeps_entry_set_next.
  - change (MemoryCache.entry_at k
              (MemoryCache.with_cache
                 (JsMap.update p (MemoryCache.set_next None)) c)
            = MemoryCache.entry_at k c).
    apply entry_at_update, keeps_entry_set_next.
Qed.

Lemma entry_at_emitEvent k ev k' (c : MemoryCache.t V) :
  MemoryCache.entry_at k (MemoryCache.emitEvent ev k' c) = MemoryCache.entry_at k c.
Proof. unfold MemoryCache.emitEvent. now destruct (MemoryCache.eventListeners c). Qed.

Lemma entry_at_updateMemoryUsage k c :
  MemoryCache.entry_at k (MemoryCache.updateMemoryUsage estimateObjectSize c)
  = MemoryCache.entry_at k c.
Proof.
  unfold MemoryCache.updateMemoryUsage.
  now destruct (MemoryCache.enableStats (MemoryCache.options c)).
Qed.

(** After [set k v ttl now], the store holds under [k] exactly the entry
    built by that call. *)
Lemma entry_at_set k v o_ttl now c :
  MemoryCache.keys_ok c ->
  let timeToLive :=
    (match o_ttl with
     | Some s => s
     | None => MemoryCache.defaultTtl (MemoryCache.options c)
     end) * 1000 in
  MemoryCache.entry_at k (cset k v o_ttl now c)
  = Some (MemoryCache.mkEntry v timeToLive now (now + timeToLive) 0 now).
Proof.
  intros Hok timeToLive. unfold MemoryCache.set.
  rewrite entry_at_emitEvent, entry_at_updateMemoryUsage.
  destruct (JsMap.get k (MemoryCache.cache c)) as [existing |] eqn:Hget.
  - rewrite entry_at_moveToHead.
    unfold MemoryCache.entry_at; rec_simpl.
    rewrite (Hok _ _ Hget), JsMap_get_update, String.eqb_refl, Hget. reflexivity.
  - change (MemoryCache.entry_at k (MemoryCache.with_stats ?f ?c0))
      with (MemoryCache.entry_at k c0).
    rewrite entry_at_addToHead.
    unfold MemoryCache.entry_at; rec_simpl.
    now rewrite JsMap_get_set_same.
Qed.

(** *** Nodes stay under their own key *)

Ltac keys_crush H :=
  repeat match goal with
         | |- context [(?a =? ?b)%string] =>
             let E := fresh "E" in destruct (a =? b)%string eqn:E
         end;
  repeat match goal with
         | |- context [JsMap.get ?a ?m] =>
             let G := fresh "G" in
             destruct (JsMap.get a m) eqn:G; rec_simpl
         end;
  intros Heq; try discriminate; try (inversion Heq; subst; clear Heq); rec_simpl;
  try (eapply H; eassumption);
  try (now apply String.eqb_eq);
  try (symmetry; now apply String.eqb_eq).

Lemma keys_ok_new o_ttl o_max o_stats :
  MemoryCache.keys_ok (@MemoryCache.new V o_ttl o_max o_stats).
Proof. intros k n. discriminate. Qed.

Lemma keys_ok_emitEvent ev k (c : MemoryCache.t V) :
  MemoryCache.keys_ok c -> MemoryCache.keys_ok (MemoryCache.emitEvent ev k c).
Proof. unfold MemoryCache.emitEvent. now destruct (MemoryCache.eventListeners c). Qed.

Lemma keys_ok_updateMemoryUsage (c : MemoryCache.t V) :
  MemoryCache.keys_ok c ->
  MemoryCache.keys_ok (MemoryCache.updateMemoryUsage estimateObjectSize c).
Proof.
  unfold MemoryCache.updateMemoryUsage.
  now destruct (MemoryCache.enableStats (MemoryCache.options c)).
Qed.

Lemma keys_ok_deleteNode node (c : MemoryCache.t V) :
  MemoryCache.keys_ok c ->
  MemoryCache.keys_ok (MemoryCache.deleteNode estimateObjectSize node c).
Proof.
  intros H. unfold MemoryCache.deleteNode.
  apply keys_ok_updateMemoryUsage.
  destruct c as [m h tl st o ls d], node as [nk ne [p |] [n |]];
    unfold MemoryCache.keys_ok in *; rec_simpl_in H; rec_simpl;
    intros k0 n0; rewrite ?JsMap_get_update, ?JsMap_get_delete, ?JsMap_get_set;
    keys_crush H.
Qed.

Lemma keys_ok_addToHead k (c : MemoryCache.t V) :
  MemoryCache.keys_ok c -> MemoryCache.keys_ok (MemoryCache.addToHead k c).
Proof.
  intros H. unfold MemoryCache.addToHead.
  destruct c as [m [h |] [tl |] st o ls d];
    unfold MemoryCache.keys_ok in *; rec_simpl_in H; rec_simpl;
    intros k0 n0; rewrite ?JsMap_get_update, ?JsMap_get_delete, ?JsMap_get_set;
    keys_crush H.
Qed.

Lemma keys_ok_moveToHead node (c : MemoryCache.t V) :
  MemoryCache.keys_ok c -> MemoryCache.keys_ok (MemoryCache.moveToHead node c).
Proof.
  intros H. unfold MemoryCache.moveToHead.
  destruct node as [nk ne [p |] [n |]]; rec_simpl; try exact H;
    apply keys_ok_addToHead;
    destruct c as [m h tl st o ls d];
    unfold MemoryCache.keys_ok in *; rec_simpl_in H; rec_simpl;
    intros k0 n0; rewrite ?JsMap_get_update, ?JsMap_get_delete, ?JsMap_get_set;
    keys_crush H.
Qed.

Lemma keys_ok_evictLRU (c : MemoryCache.t V) :
  MemoryCache.keys_ok c ->
  MemoryCache.keys_ok (MemoryCache.evictLRU estimateObjectSize c).
Proof.
  intros H. unfold MemoryCache.evictLRU.
  destruct (MemoryCache.tail c) as [tl |]; [| exact H].
  destruct (JsMap.get tl (MemoryCache.cache c)); [| exact H].
  now apply keys_ok_emitEvent, keys_ok_deleteNode.
Qed.

Lemma keys_ok_set k v o_ttl now (c : MemoryCache.t V) :
  MemoryCache.keys_ok c -> MemoryCache.keys_ok (cset k v o_ttl now c).
Proof.
  intros H. unfold MemoryCache.set.
  apply keys_ok_emitEvent, keys_ok_updateMemoryUsage.
  destruct (JsMap.get k (MemoryCache.cache c)) as [existing |] eqn:Hget.
  - apply keys_ok_moveToHead.
    destruct c as [m h tl st o ls d].
    unfold MemoryCache.keys_ok in *; rec_simpl_in H; rec_simpl.
    intros k0 n0; rewrite ?JsMap_get_update, ?JsMap_get_delete, ?JsMap_get_set.
    keys_crush H.
  - change (MemoryCache.keys_ok (MemoryCache.with_stats ?f ?c0))
      with (MemoryCache.keys_ok c0).
    apply keys_ok_addToHead.
    assert (H' : MemoryCache.keys_ok
                   (if MemoryCache.maxSize (MemoryCache.options c)
                       <=? JsMap.size (MemoryCache.cache c)
                    then MemoryCache.evictLRU estimateObjectSize c else c)).
    { destruct (_ <=? _); [now apply keys_ok_evictLRU | exact H]. }
    revert H'. generalize (if MemoryCache.maxSize (MemoryCache.options c)
                              <=? JsMap.size (MemoryCache.cache c)
                           then MemoryCache.evictLRU estimateObjectSize c else c).
    intros [m h tl st o ls d] H'.
    unfold MemoryCache.keys_ok in *; rec_simpl_in H'; rec_simpl.
    intros k0 n0; rewrite ?JsMap_get_update, ?JsMap_get_delete, ?JsMap_get_set.
    keys_crush H'.
Qed.

Lemma keys_ok_get k now (c : MemoryCache.t V) :
  MemoryCache.keys_ok c -> MemoryCache.keys_ok (fst (cget k now c)).
Proof.
  intros H. unfold MemoryCache.get.
  destruct (JsMap.get k (MemoryCache.cache c)) as [node |] eqn:Hget; cbn [fst].
  - destruct (MemoryCache.isExpired now (MemoryCache.entry node)); cbn [fst].
    + apply keys_ok_emitEvent.
      unfold MemoryCache.incrementMisses.
      destruct (MemoryCache.enableStats _); now apply keys_ok_deleteNode.
    + apply keys_ok_emitEvent.
      assert (H' : MemoryCache.keys_ok
                (MemoryCache.moveToHead node
                   (MemoryCache.with_cache
                      (JsMap.update (MemoryCache.key node)
                         (MemoryCache.set_entry
                            (MemoryCache.mkEntry
                               (MemoryCache.value (MemoryCache.entry node))
                               (MemoryCache.ttl (MemoryCache.entry node))
                               (MemoryCache.createdAt (MemoryCache.entry node))
                               (MemoryCache.expiresAt (MemoryCache.entry node))
                               (MemoryCache.accessCount (MemoryCache.entry node) + 1)
                               now))) c))).
      { apply keys_ok_moveToHead. destruct c as [m h tl st o ls d].
        unfold MemoryCache.keys_ok in *; rec_simpl_in H; rec_simpl.
    intros k0 n0; rewrite ?JsMap_get_update, ?JsMap_get_delete, ?JsMap_get_set.
    keys_crush H. }
      unfold MemoryCache.incrementHits.
      destruct (MemoryCache.enableStats _); exact H'.
  - apply keys_ok_emitEvent. unfold MemoryCache.incrementMisses.
    destruct (MemoryCache.enableStats _); exact H.
Qed.

Lemma keys_ok_has k now (c : MemoryCache.t V) :
  MemoryCache.keys_ok c -> MemoryCache.keys_ok (fst (chas k now c)).
Proof.
  intros H. unfold MemoryCache.has.
  destruct (JsMap.get k (MemoryCache.cache c)) as [node |]; [| exact H].
  destruct (MemoryCache.isExpired now (MemoryCache.entry node)); cbn [fst];
    [now apply keys_ok_deleteNode | exact H].
Qed.

Lemma keys_ok_delete k (c : MemoryCache.t V) :
  MemoryCache.keys_ok c ->
  MemoryCache.keys_ok (fst (MemoryCache.delete estimateObjectSize k c)).
Proof.
  intros H. unfold MemoryCache.delete.
  destruct (JsMap.get k (MemoryCache.cache c)) as [node |]; [| exact H].
  now apply keys_ok_emitEvent, keys_ok_deleteNode.
Qed.

Lemma keys_ok_clear (c : MemoryCache.t V) :
  MemoryCache.keys_ok (MemoryCache.clear c).
Proof. apply keys_ok_emitEvent. intros k n. discriminate. Qed.

Lemma keys_ok_cleanupExpired now (c : MemoryCache.t V) :
  MemoryCache.keys_ok c ->
  MemoryCache.keys_ok (fst (MemoryCache.cleanupExpired estimateObjectSize now c)).
Proof.
  unfold MemoryCache.cleanupExpired. cbn [fst].
  generalize (JsMap.keys
                (filter (fun kn => MemoryCache.isExpired now (MemoryCache.entry (snd kn)))
                        (MemoryCache.cache c))).
  intros ks. revert c. induction ks as [| k ks IH]; intros c H; [exact H |].
  cbn [fold_left]. apply IH.
  destruct (JsMap.get k (MemoryCache.cache c)); [| exact H].
  now apply keys_ok_emitEvent, keys_ok_deleteNode.
Qed.

Lemma reachable_keys_ok (c : MemoryCache.t V) :
  MemoryCache.reachable estimateObjectSize c -> MemoryCache.keys_ok c.
Proof.
  induction 1.
  - apply keys_ok_new.
  - now apply keys_ok_set.
  - now apply keys_ok_get.
  - now apply keys_ok_has.
  - now apply keys_ok_delete.
  - apply keys_ok_clear.
  - now apply keys_ok_cleanupExpired.
  - assumption.
  - assumption.
Qed.

(** C7, as the code has it.  An entry stored with a TTL of zero expires at
    the millisecond of the [set]: a [get] issued while the clock still shows
    that millisecond returns the stored value, and a [get] issued at any
    later time returns [null]. *)
Theorem ttl_zero_expires_once_clock_advances
    (c : MemoryCache.t V) (k : string) (v : V) (t t' : Z) :
  MemoryCache.reachable estimateObjectSize c ->
  t < t' ->
  snd (cget k t' (cset k v (Some 0) t c)) = None /\
  snd (cget k t (cset k v (Some 0) t c)) = Some v.
Proof.
  intros Hr Hlt.
  pose proof (entry_at_set k v (Some 0) t c (reachable_keys_ok c Hr)) as He.
  cbv beta iota zeta in He. unfold MemoryCache.entry_at in He.
  unfold MemoryCache.get.
  destruct (JsMap.get k (MemoryCache.cache (cset k v (Some 0) t c)))
    as [node |]; [| discriminate].
  cbn [option_map] in He. injection He as He. rewrite He.
  unfold MemoryCache.isExpired. cbn [MemoryCache.expiresAt MemoryCache.value].
  rewrite !Z.add_0_r.
  rewrite (proj2 (Z.ltb_lt t t') Hlt), Z.ltb_irrefl. split; reflexivity.
Qed.

End CacheProps.

Lemma lru_evicts_second_oldest_witness :
  let c0 := MemoryCache.new None (Some 3) None in
  let c1 := MemoryCache.set string_size "key1" "value1" None 0 c0 in
  let c2 := MemoryCache.set string_size "key2" "value2" None 1 c1 in
  let c3 := MemoryCache.set string_size "key3" "value3" None 2 c2 in
  let c4 := fst (MemoryCache.get string_size "key1" 3 c3) in
  let c5 := MemoryCache.set string_size "key4" "value4" None 4 c4 in
  snd (MemoryCache.get string_size "key1" 3 c3) = Some "value1" /\
  MemoryCache.present "key2" c5 = false /\
  MemoryCache.present "key1" c5 = true /\
  MemoryCache.present "key3" c5 = true /\
  MemoryCache.present "key4" c5 = true.
Proof.
  refine (lru_evicts_second_oldest string_size None None
            "key1" "key2" "key3" "key4" "value1" "value2" "value3" "value4"
            None None None None 0 1 2 3 4 _ _).
  - repeat constructor; cbn; intuition discriminate.
  - vm_compute. discriminate.
Defined.


Lemma ttl_zero_expires_once_clock_advances_witness :
  snd (MemoryCache.get string_size "token:lovelace" 1001
         (MemoryCache.set string_size "token:lovelace" "ADA" (Some 0) 1000
            (MemoryCache.new None None None))) = None /\
  snd (MemoryCache.get string_size "token:lovelace" 1000
         (MemoryCache.set string_size "token:lovelace" "ADA" (Some 0) 1000
            (MemoryCache.new None None None))) = Some "ADA".
Proof.
  apply (ttl_zero_expires_once_clock_advances string_size).
  - apply MemoryCache.reach_new.
  - lia.
Defined.

(** C7 as stated fails when the [get] falls in the millisecond of the
    [set]: the entry is returned. *)
Lemma ttl_zero_same_millisecond_counterexample :
  ~ (forall (k v : string) (t t' : Z),
       t <= t' ->
       snd (MemoryCache.get string_size k t'
              (MemoryCache.set string_size k v (Some 0) t
                 (MemoryCache.new None None None))) = None).
Proof.
  intros H. specialize (H "zero-ttl" "value" 1000 1000 (Z.le_refl _)).
  vm_compute in H. discriminate H.
Qed.

(** [has] never calls a listener, whatever it does to the store. *)
Lemma has_delivers_nothing {V} (estimateObjectSize : V -> Z) k now
    (c : MemoryCache.t V) :
  MemoryCache.delivered (fst (MemoryCache.has estimateObjectSize k now c))
  = MemoryCache.delivered c.
Proof.
  unfold MemoryCache.has.
  destruct (JsMap.get k (MemoryCache.cache c)) as [node |]; [| reflexivity].
  destruct (MemoryCache.isExpired now (MemoryCache.entry node)); [| reflexivity].
  cbn [fst]. unfold MemoryCache.deleteNode, MemoryCache.updateMemoryUsage.
  destruct c as [m h tl st o ls d], node as [nk ne [p |] [n |]];
    cbn; destruct (MemoryCache.enableStats o); reflexivity.
Qed.

(** C5.  A listener is registered, an entry is stored and later found
    expired by [has]: the entry is removed from the store, yet no event
    reaches the listener, whereas [get] in the same state reports
    ['expired']. *)
Theorem has_expiry_fires_no_event :
  let c0 := MemoryCache.addEventListener 7%nat (MemoryCache.new None None None) in
  let c1 := MemoryCache.set string_size "k" "v" (Some 1) 0 c0 in
  let c2 := fst (MemoryCache.has string_size "k" 2000 c1) in
  MemoryCache.present "k" c1 = true /\
  MemoryCache.present "k" c2 = false /\
  MemoryCache.delivered c2 = MemoryCache.delivered c1 /\
  MemoryCache.delivered c1 = [(7%nat, MemoryCache.ev_set, "k")] /\
  MemoryCache.delivered (fst (MemoryCache.get string_size "k" 2000 c1))
  = [(7%nat, MemoryCache.ev_set, "k"); (7%nat, MemoryCache.ev_expired, "k")].
Proof. vm_compute. repeat split. Qed.

(** ** Circuit breaker *)

Lemma reachable_run {T} cfg (history : list (CircuitBreaker.Call T)) b :
  CircuitBreaker.reachable (T:=T) cfg b ->
  CircuitBreaker.reachable (T:=T) cfg (CircuitBreaker.run cfg history b).
Proof.
  revert b. induction history as [| c history IH]; intros b Hb; [exact Hb |].
  apply IH. now apply CircuitBreaker.reach_execute.
Qed.

(** C2.  The default breaker (threshold 5) opens after five failures; once
    the recovery time has elapsed two calls succeed, which leaves it
    half-open with three failures counted.  The next guarded call fails:
    the count becomes four, below the threshold, and the breaker is still
    half-open, not open. *)
Theorem half_open_failure_stays_half_open :
  let cfg := CircuitBreaker.defaultConfig in
  let history := [failing 0; failing 10; failing 20; failing 30; failing 40;
                  passing 60100; passing 60200] in
  let b := CircuitBreaker.run cfg history CircuitBreaker.init in
  CircuitBreaker.reachable (T:=unit) cfg b
  /\ b = CircuitBreaker.mk 3 (Some 45) CircuitBreaker.half_open
  /\ CircuitBreaker.execute cfg (failing 60300) b
     = (CircuitBreaker.mk 4 (Some 60305) CircuitBreaker.half_open,
        Throw (mkError "ECONNRESET")).
Proof.
  intros cfg history b. split; [| split].
  - apply reachable_run, CircuitBreaker.reach_init.
  - reflexivity.
  - reflexivity.
Qed.

(** ** Field router *)

Section RouterProps.
Context {Value : Type}.
Implicit Types r : FieldRouter.t Value.

(** *** Metrics of unknown providers *)

Lemma metrics_after_unregister name r :
  FieldRouter.getProviderMetrics name (FieldRouter.unregisterProvider name r) = None.
Proof. apply JsMap_get_delete_same. Qed.

(** C10.  [updateMetrics] for a provider without a metrics record leaves
    the router as it is: registry, metrics and field priorities. *)
Theorem updateMetrics_unknown_provider_noop r name rt ok now :
  FieldRouter.getProviderMetrics name r = None ->
  FieldRouter.updateMetrics name rt ok now r = r.
Proof.
  unfold FieldRouter.getProviderMetrics, FieldRouter.updateMetrics.
  now intros ->.
Qed.

(** In particular after the provider has been unregistered. *)
Lemma updateMetrics_after_unregister r name rt ok now :
  let r' := FieldRouter.unregisterProvider name r in
  FieldRouter.updateMetrics name rt ok now r' = r'.
Proof.
  intros r'. unfold FieldRouter.updateMetrics.
  pose proof (metrics_after_unregister name r) as H.
  unfold FieldRouter.getProviderMetrics in H. fold r' in H. now rewrite H.
Qed.

Lemma metrics_registerProvider name now p r :
  Provider.name p <> name ->
  FieldRouter.getProviderMetrics name (FieldRouter.registerProvider now p r)
  = FieldRouter.getProviderMetrics name r.
Proof.
  intros H. unfold FieldRouter.getProviderMetrics, FieldRouter.registerProvider.
  cbn [FieldRouter.metrics].
  destruct (JsMap.has (Provider.name p) (FieldRouter.metrics r)); [reflexivity |].
  now apply JsMap_get_set_other.
Qed.

(** And for a provider that was never registered. *)
Lemma metrics_never_registered name now ps prios :
  ~ In name (map Provider.name ps) ->
  FieldRouter.getProviderMetrics name (@FieldRouter.new Value now ps prios) = None.
Proof.
  intros Hnot. unfold FieldRouter.new.
  assert (Hp : forall prios r,
             FieldRouter.getProviderMetrics name
               (fold_left
                  (fun r fp =>
                     FieldRouter.mk (FieldRouter.providers r) (FieldRouter.metrics r)
                       (JsMap.set (fst fp) (snd fp) (FieldRouter.fieldPriorities r))
                       (FieldRouter.defaultStrategy r)) prios r)
             = FieldRouter.getProviderMetrics name r).
  { clear. induction prios as [| fp prios IH]; intros r; [reflexivity |].
    cbn [fold_left]. now rewrite IH. }
  rewrite Hp. clear Hp.
  assert (Hr : forall r,
             FieldRouter.getProviderMetrics name
               (fold_left (fun r p => FieldRouter.registerProvider now p r) ps r)
             = FieldRouter.getProviderMetrics name r).
  { induction ps as [| p ps IH]; intros r; [reflexivity |].
    cbn [fold_left]. rewrite IH.
    - apply metrics_registerProvider. intros E. apply Hnot. now left.
    - intros Hin. apply Hnot. now right. }
  now rewrite Hr.
Qed.

(** *** Presence of a field in the routing plan *)

Lemma truthy_iff s : truthy s = true <-> s <> "".
Proof.
  unfold truthy. rewrite negb_true_iff. apply String.eqb_neq.
Qed.

Lemma includes_In x l : includes x l = true -> In x l.
Proof.
  unfold includes. rewrite existsb_exists. intros [y [Hy E]].
  apply String.eqb_eq in E. now subst.
Qed.

Lemma token_providers_registered f r n :
  In n (FieldRouter.getProvidersForTokenField f r) ->
  In n (JsMap.keys (FieldRouter.providers r)).
Proof.
  unfold FieldRouter.getProvidersForTokenField, JsMap.keys.
  rewrite !in_map_iff. intros [np [E Hin]].
  apply filter_In in Hin. exists np. tauto.
Qed.

Lemma or_else_truthy x d : truthy d = true -> truthy (or_else x d) = true.
Proof. intros H. unfold or_else. now destruct (truthy x) eqn:E. Qed.

Lemma getProviderByPriority_truthy f a b rest r :
  (forall n, In n (a :: b :: rest) -> truthy n = true) ->
  truthy (FieldRouter.getProviderByPriority f (a :: b :: rest) r) = true.
Proof.
  intros Hall. unfold FieldRouter.getProviderByPriority.
  cbn [FieldRouter.first_or_empty].
  destruct (JsMap.get f (FieldRouter.fieldPriorities r)) as [prios |];
    [| apply Hall; now left].
  destruct (find _ prios) as [p |] eqn:Hf; [| apply Hall; now left].
  apply find_some in Hf. apply Hall, includes_In, Hf.
Qed.

(** With non-empty provider names, a non-empty candidate list always
    yields a usable primary provider. *)
Lemma getOptimalProvider_truthy f available strategy r :
  available <> [] ->
  (forall n, In n available -> truthy n = true) ->
  exists p, FieldRouter.getOptimalProvider f available strategy r = Some p
            /\ truthy p = true.
Proof.
  intros Hne Hall. destruct available as [| a [| b rest]]; [congruence | |].
  - cbn. rewrite (Hall a) by now left. exists a. split; [reflexivity |].
    apply Hall. now left.
  - unfold FieldRouter.getOptimalProvider. eexists. split; [reflexivity |].
    assert (Ha : truthy (FieldRouter.first_or_empty (a :: b :: rest)) = true)
      by (apply Hall; now left).
    destruct strategy.
    + now apply or_else_truthy.
    + now apply getProviderByPriority_truthy.
    + now apply or_else_truthy.
    + now apply or_else_truthy.
Qed.

Lemma createRoutingPlan_no_candidates f strategy r :
  FieldRouter.createRoutingPlan f [] strategy r
  = match FieldRouter.firstPriority f r with
    | Some p =>
        Some (FieldRouter.mkPlan f p
                (tl (match FieldRouter.getFieldPriorities f r with
                     | Some l => l
                     | None => []
                     end))
                (FieldRouter.mkEstimated 1000 0 (Some 0%Q)))
    | None => None
    end.
Proof.
  unfold FieldRouter.createRoutingPlan, FieldRouter.firstPriority, FieldRouter.getFieldPriorities.
  cbn [FieldRouter.getOptimalProvider].
  destruct (JsMap.get f (FieldRouter.fieldPriorities r)) as [[| p rest] |];
    try reflexivity.
  now destruct (truthy p).
Qed.

Lemma createRoutingPlan_candidates f available strategy r :
  available <> [] ->
  (forall n, In n available -> truthy n = true) ->
  FieldRouter.createRoutingPlan f available strategy r <> None.
Proof.
  intros Hne Hall.
  destruct (getOptimalProvider_truthy f available strategy r Hne Hall) as [p [E T]].
  unfold FieldRouter.createRoutingPlan. rewrite E, T. discriminate.
Qed.

Lemma plan_fold_get (create : string -> option FieldRouter.RoutingPlan) f fields :
  forall plan,
    JsMap.get f (fold_left (fun plan f0 =>
                              match create f0 with
                              | Some rp => JsMap.set f0 rp plan
                              | None => plan
                              end) fields plan)
    = if includes f fields
      then match create f with
           | Some rp => Some rp
           | None => JsMap.get f plan
           end
      else JsMap.get f plan.
Proof.
  induction fields as [| f0 fields IH]; intros plan; [reflexivity |].
  cbn [fold_left includes existsb]. rewrite IH. fold (includes f fields).
  destruct (f =? f0)%string eqn:E.
  - apply String.eqb_eq in E. subst f0. cbn [orb].
    destruct (create f) as [rp |] eqn:C.
    + rewrite JsMap_get_set_same. now destruct (includes f fields).
    + now destruct (includes f fields).
  - cbn [orb]. destruct (create f0) as [rp0 |]; [| reflexivity].
    rewrite JsMap_get_set_other; [reflexivity |].
    intros ->. now rewrite String.eqb_refl in E.
Qed.

Lemma In_includes x l : In x l -> includes x l = true.
Proof.
  intros H. unfold includes. apply existsb_exists. exists x.
  split; [exact H | apply String.eqb_refl].
Qed.

(** The entry of a requested field in the plan is what
    [createRoutingPlan] returns for it. *)
Lemma planTokenDataRouting_get f fields options r :
  In f fields ->
  JsMap.get f (FieldRouter.planTokenDataRouting fields options r)
  = FieldRouter.createRoutingPlan f (FieldRouter.getProvidersForTokenField f r)
      (FieldRouter.getRoutingStrategy options r) r.
Proof.
  intros Hin. unfold FieldRouter.planTokenDataRouting.
  rewrite (plan_fold_get
             (fun f0 => FieldRouter.createRoutingPlan f0
                          (FieldRouter.getProvidersForTokenField f0 r)
                          (FieldRouter.getRoutingStrategy options r) r)).
  rewrite (In_includes _ _ Hin).
  now destruct (FieldRouter.createRoutingPlan _ _ _ _).
Qed.

(** C8, as the code has it.  Provider names are not empty.  A requested
    field is absent from the plan exactly when no registered provider
    declares it and its priority list is missing, empty or starts with an
    empty name; when no provider declares it and the list starts with a
    proper name, the plan names that first entry as primary with an
    estimated success rate of 0. *)
Theorem plan_absent_iff_no_candidate_and_no_priority f fields options r :
  In f fields ->
  (forall n, In n (JsMap.keys (FieldRouter.providers r)) -> n <> "") ->
  let plan := FieldRouter.planTokenDataRouting fields options r in
  (JsMap.has f plan = false <->
   FieldRouter.getProvidersForTokenField f r = [] /\ FieldRouter.firstPriority f r = None)
  /\
  (FieldRouter.getProvidersForTokenField f r = [] ->
   forall p, FieldRouter.firstPriority f r = Some p ->
   exists rp, JsMap.get f plan = Some rp
              /\ FieldRouter.plan_provider rp = p
              /\ FieldRouter.est_successRate (FieldRouter.estimated rp) = 0%Q).
Proof.
  intros Hin Hnames plan. subst plan. unfold JsMap.has.
  rewrite (planTokenDataRouting_get f fields options r Hin).
  destruct (FieldRouter.getProvidersForTokenField f r) as [| a rest] eqn:Hav.
  - rewrite createRoutingPlan_no_candidates.
    destruct (FieldRouter.firstPriority f r) as [p |]; split.
    + split; [discriminate | intros [_ H]; discriminate].
    + intros _ q [= <-]. eexists. repeat split.
    + split; auto.
    + intros _ q H. discriminate.
  - assert (Hne : FieldRouter.createRoutingPlan f (a :: rest)
                    (FieldRouter.getRoutingStrategy options r) r <> None).
    { apply createRoutingPlan_candidates; [discriminate |].
      intros n Hn. apply truthy_iff, Hnames, (token_providers_registered f).
      now rewrite Hav. }
    destruct (FieldRouter.createRoutingPlan _ _ _ _); [| congruence].
    split; [| discriminate].
    split; [discriminate | intros [H _]; discriminate].
Qed.

End RouterProps.

Lemma updateMetrics_unknown_provider_noop_witness :
  let r := FieldRouter.unregisterProvider "blockfrost"
             (FieldRouter.new 0 [blockfrost] []) in
  FieldRouter.updateMetrics "blockfrost" 120 true 5 r = r.
Proof.
  intros r. apply updateMetrics_unknown_provider_noop. reflexivity.
Defined.

Lemma plan_absent_iff_no_candidate_and_no_priority_witness :
  let r := FieldRouter.new 0 [blockfrost] [("price", ["coingecko"; "taptools"])] in
  let plan := FieldRouter.planTokenDataRouting ["name"; "price"; "holders"] None r in
  (JsMap.has "price" plan = false <->
   FieldRouter.getProvidersForTokenField "price" r = []
   /\ FieldRouter.firstPriority "price" r = None)
  /\
  (FieldRouter.getProvidersForTokenField "price" r = [] ->
   forall p, FieldRouter.firstPriority "price" r = Some p ->
   exists rp, JsMap.get "price" plan = Some rp
              /\ FieldRouter.plan_provider rp = p
              /\ FieldRouter.est_successRate (FieldRouter.estimated rp) = 0%Q).
Proof.
  intros r.
  apply (plan_absent_iff_no_candidate_and_no_priority "price").
  - cbn. tauto.
  - cbn. intros n [<- | []]. discriminate.
Defined.

(** C8 as stated fails for a field whose priority list was set to the empty
    list: a list is configured, no provider declares the field, and the
    plan has no entry for it. *)
Lemma plan_absent_with_empty_priority_list_counterexample :
  let r := FieldRouter.setFieldPriority "price" []
             (FieldRouter.new 0 [blockfrost] []) in
  ~ (JsMap.has "price" (FieldRouter.planTokenDataRouting ["price"] None r) = false
     <-> (FieldRouter.getProvidersForTokenField "price" r = []
          /\ FieldRouter.getFieldPriorities "price" r = None)).
Proof.
  intros r [H _]. destruct (H eq_refl) as [_ Hp]. discriminate Hp.
Qed.

(** ** Data aggregator *)

Section AggregatorProps.
Context {Value : Type}.
Variable stringify : Value -> Completion string.
Variable strict_eq : Value -> Value -> bool.
Implicit Types a : DataAggregator.t Value.

Lemma extractErrors_In
    (executions : list (DataAggregator.ProviderExecution Value)) e err :
  In e executions ->
  DataAggregator.success e = false ->
  DataAggregator.error e = Some err ->
  In (DataAggregator.mkErrorEntry (DataAggregator.provider e) (message err) true)
     (DataAggregator.extractErrors executions).
Proof.
  intros Hin Hs He. unfold DataAggregator.extractErrors.
  apply in_flat_map. exists e. split; [exact Hin |].
  rewrite Hs, He. now left.
Qed.

Lemma extractErrors_recoverable
    (executions : list (DataAggregator.ProviderExecution Value)) x :
  In x (DataAggregator.extractErrors executions) ->
  DataAggregator.recoverable x = true.
Proof.
  unfold DataAggregator.extractErrors. rewrite in_flat_map.
  intros [e [_ H]].
  destruct (DataAggregator.success e); [contradiction |].
  destruct (DataAggregator.error e); [| contradiction].
  destruct H as [<- | []]. reflexivity.
Qed.

(** What [respond] returns, by the outcome of the aggregation step. *)
Lemma respond_cases requested s startTime a run executions :
  let resp := fst (DataAggregator.respond stringify strict_eq requested s startTime a
                     (run, executions)) in
  match DataAggregator.aggregateFieldResults stringify strict_eq requested
          executions s with
  | Normal _ =>
      DataAggregator.errors resp = DataAggregator.extractErrors executions
  | Throw err =>
      DataAggregator.response_data resp = DataAggregator.mkData JsMap.empty None None
      /\ DataAggregator.errors resp
         = [DataAggregator.mkErrorEntry "aggregator" (message err) false]
  end.
Proof.
  unfold DataAggregator.respond.
  destruct (DataAggregator.aggregateFieldResults _ _ _ _ _); cbn; auto.
Qed.

Lemma extractErrors_iff
    (executions : list (DataAggregator.ProviderExecution Value)) x :
  In x (DataAggregator.extractErrors executions)
  <-> exists e err,
        In e executions
        /\ DataAggregator.success e = false
        /\ DataAggregator.error e = Some err
        /\ x = DataAggregator.mkErrorEntry (DataAggregator.provider e) (message err) true.
Proof.
  unfold DataAggregator.extractErrors. rewrite in_flat_map. split.
  - intros (e & Hin & H).
    destruct (DataAggregator.success e) eqn:Hs; [contradiction |].
    destruct (DataAggregator.error e) as [err |] eqn:He; [| contradiction].
    destruct H as [<- | []]. exists e, err. auto.
  - intros (e & err & Hin & Hs & He & ->). exists e. split; [exact Hin |].
    rewrite Hs, He. now left.
Qed.

Lemma extractErrors_app (xs ys : list (DataAggregator.ProviderExecution Value)) :
  DataAggregator.extractErrors (xs ++ ys)
  = (DataAggregator.extractErrors xs ++ DataAggregator.extractErrors ys)%list.
Proof. unfold DataAggregator.extractErrors. apply flat_map_app. Qed.

Lemma extractErrors_successes (xs : list (DataAggregator.ProviderExecution Value)) :
  Forall (fun e => DataAggregator.success e = true) xs ->
  DataAggregator.extractErrors xs = [].
Proof.
  induction 1 as [| e xs He _ IH]; [reflexivity |].
  unfold DataAggregator.extractErrors in *. cbn [flat_map]. now rewrite He, IH.
Qed.

(** The fallback walk records successes only: a fallback that rejects, or
    answers without success, leaves no execution. *)
Lemma tryFallbacks_success (method : DataAggregator.Method) id o
    (providersMap : JsMap.t (Provider.DataProvider Value))
    (executions : list (DataAggregator.ProviderExecution Value)) f fallbacks :
  forall run run' e,
    DataAggregator.tryFallbacks method id o providersMap executions f fallbacks run
    = (run', Some e) ->
    DataAggregator.success e = true.
Proof.
  induction fallbacks as [| fb rest IH]; intros run run' e; [discriminate |].
  cbn [DataAggregator.tryFallbacks].
  destruct (JsMap.get fb providersMap) as [p |]; [| apply IH].
  destruct (existsb _ executions); [apply IH |].
  destruct (DataAggregator.race _ _) as [outcome elapsed].
  destruct outcome as [resp | err]; [| apply IH].
  destruct (Provider.success resp); [| apply IH].
  now intros [= _ <-].
Qed.

Lemma runFallbacks_success (method : DataAggregator.Method) id o
    (providersMap : JsMap.t (Provider.DataProvider Value))
    (routingPlan : JsMap.t FieldRouter.RoutingPlan)
    (executions : list (DataAggregator.ProviderExecution Value)) run :
  Forall (fun e => DataAggregator.success e = true)
         (snd (DataAggregator.runFallbacks method id o providersMap routingPlan
                 executions run)).
Proof.
  unfold DataAggregator.runFallbacks.
  assert (H : Forall (fun e : DataAggregator.ProviderExecution Value =>
                        DataAggregator.success e = true)
                     (snd (run, @nil (DataAggregator.ProviderExecution Value))))
    by constructor.
  revert H. generalize (run, @nil (DataAggregator.ProviderExecution Value)).
  induction routingPlan as [| [f plan] routingPlan IH]; intros acc Hacc; [exact Hacc |].
  cbn [fold_left]. apply IH. destruct acc as [run0 fbs]. cbn [snd] in Hacc.
  destruct (find _ executions) as [primaryExecution |]; [| exact Hacc].
  destruct (negb (DataAggregator.success primaryExecution) && _); [| exact Hacc].
  destruct (DataAggregator.tryFallbacks method id o providersMap executions f
              (FieldRouter.fallbackProviders plan) run0) as [run' [e |]] eqn:E;
    [| exact Hacc].
  cbn [snd]. apply Forall_app. split; [exact Hacc |].
  constructor; [| constructor]. exact (tryFallbacks_success _ _ _ _ _ _ _ _ _ _ E).
Qed.

(** The executions of a request: the ones of the parallel phase, then the
    successful fallbacks. *)
Lemma executeRequests_split (method : DataAggregator.Method) id o a
    (routingPlan : JsMap.t FieldRouter.RoutingPlan) providerRequests start :
  exists fallbackExecutions,
    snd (DataAggregator.executeRequests method id o a routingPlan providerRequests start)
    = (snd (DataAggregator.executeAll method id o (DataAggregator.providers a) start
              providerRequests (DataAggregator.fieldRouter a, 0%nat))
       ++ fallbackExecutions)%list
    /\ Forall (fun e => DataAggregator.success e = true) fallbackExecutions.
Proof.
  unfold DataAggregator.executeRequests.
  destruct (DataAggregator.executeAll method id o (DataAggregator.providers a) start
              providerRequests (DataAggregator.fieldRouter a, 0%nat))
    as [[r n] executions].
  pose proof (runFallbacks_success method id o (DataAggregator.providers a) routingPlan
                executions
                (DataAggregator.mkRun r n (DataAggregator.phaseEnd start executions)))
    as H.
  destruct (DataAggregator.runFallbacks method id o (DataAggregator.providers a)
              routingPlan executions
              (DataAggregator.mkRun r n (DataAggregator.phaseEnd start executions)))
    as [run' fallbackExecutions].
  exists fallbackExecutions. split; [reflexivity | exact H].
Qed.

(** What the error list holds when the executions are those of the parallel
    phase, successful fallbacks and further recorded executions. *)
Lemma respond_errors requested s startTime a run
    (primary fallback missing : list (DataAggregator.ProviderExecution Value)) :
  Forall (fun e => DataAggregator.success e = true) fallback ->
  let executions := (primary ++ fallback ++ missing)%list in
  let resp := fst (DataAggregator.respond stringify strict_eq requested s startTime a
                     (run, executions)) in
  match DataAggregator.aggregateFieldResults stringify strict_eq requested
          executions s with
  | Normal _ =>
      DataAggregator.errors resp = DataAggregator.extractErrors (primary ++ missing)
      /\ forall x,
           In x (DataAggregator.errors resp)
           <-> exists e err,
                 In e (primary ++ missing)
                 /\ DataAggregator.success e = false
                 /\ DataAggregator.error e = Some err
                 /\ x = DataAggregator.mkErrorEntry (DataAggregator.provider e)
                          (message err) true
  | Throw err =>
      DataAggregator.response_data resp = DataAggregator.mkData JsMap.empty None None
      /\ DataAggregator.errors resp
         = [DataAggregator.mkErrorEntry "aggregator" (message err) false]
  end.
Proof.
  intros Hfb executions resp.
  pose proof (respond_cases requested s startTime a run executions) as H.
  cbv zeta in H. fold resp in H.
  destruct (DataAggregator.aggregateFieldResults _ _ _ executions _); [| exact H].
  assert (E : DataAggregator.errors resp
              = DataAggregator.extractErrors (primary ++ missing)).
  { rewrite H. subst executions.
    rewrite !extractErrors_app, (extractErrors_successes fallback Hfb). reflexivity. }
  split; [exact E |]. intros x. rewrite E. apply extractErrors_iff.
Qed.

(** C4, as the code has it.  Both entry points return a response in every
    case: their whole body is inside [try]/[catch], and the functions of the
    model are total.  The executions of a request are those of the parallel
    phase, then the fallbacks that succeeded, then, for a token request, the
    ones made up for the fields without a plan; a fallback call that fails is
    not recorded.  When the aggregation step completes, the error list holds
    exactly one entry, with [recoverable = true], for every execution of the
    parallel phase and every made-up execution that failed and carries an
    error; a failed execution without an error has no entry.  When the
    aggregation step throws, the response has the empty data object and the
    single entry of the aggregator, with [recoverable = false], and no
    provider failure is reported. *)
Theorem aggregate_surfaces_failures
    (token : DataAggregator.TokenDataAggregationRequest)
    (wallet : DataAggregator.WalletDataAggregationRequest)
    (startTime : Z) a :
  let strategy_of o := match o with
                       | Some s => s
                       | None => DataAggregator.defaultStrategy a
                       end in
  let outcome requested o executions reported resp :=
    match DataAggregator.aggregateFieldResults stringify strict_eq requested
            executions (strategy_of o) with
    | Normal _ =>
        DataAggregator.errors resp = DataAggregator.extractErrors reported
        /\ forall x,
             In x (DataAggregator.errors resp)
             <-> exists e err,
                   In e reported
                   /\ DataAggregator.success e = false
                   /\ DataAggregator.error e = Some err
                   /\ x = DataAggregator.mkErrorEntry (DataAggregator.provider e)
                            (message err) true
    | Throw err =>
        DataAggregator.response_data resp = DataAggregator.mkData JsMap.empty None None
        /\ DataAggregator.errors resp
           = [DataAggregator.mkErrorEntry "aggregator" (message err) false]
    end in
  let tplan :=
    FieldRouter.planTokenDataRouting (DataAggregator.fields token)
      (DataAggregator.options token) (DataAggregator.fieldRouter a) in
  let tprimary :=
    snd (DataAggregator.executeAll (@Provider.getTokenData Value)
           (DataAggregator.assetUnit token) (DataAggregator.options token)
           (DataAggregator.providers a) startTime
           (DataAggregator.addPriorityProviders a tplan
              (DataAggregator.groupByPrimary tplan))
           (DataAggregator.fieldRouter a, 0%nat)) in
  let tmissing :=
    DataAggregator.missingProviderExecutions (DataAggregator.fields token) tplan a in
  let wplan :=
    FieldRouter.planWalletDataRouting (DataAggregator.wallet_fields wallet)
      (DataAggregator.wallet_options wallet) (DataAggregator.fieldRouter a) in
  let wprimary :=
    snd (DataAggregator.executeAll (@Provider.getWalletData Value)
           (DataAggregator.address wallet) (DataAggregator.wallet_options wallet)
           (DataAggregator.providers a) startTime
           (DataAggregator.groupByPrimary wplan)
           (DataAggregator.fieldRouter a, 0%nat)) in
  (exists fallback,
     snd (DataAggregator.tokenDataExecutions token startTime a)
     = (tprimary ++ fallback ++ tmissing)%list
     /\ Forall (fun e => DataAggregator.success e = true) fallback
     /\ outcome (DataAggregator.fields token) (DataAggregator.strategy token)
          (snd (DataAggregator.tokenDataExecutions token startTime a))
          (tprimary ++ tmissing)%list
          (fst (DataAggregator.aggregateTokenData stringify strict_eq token startTime a)))
  /\
  (exists fallback,
     snd (DataAggregator.walletDataExecutions wallet startTime a)
     = (wprimary ++ fallback)%list
     /\ Forall (fun e => DataAggregator.success e = true) fallback
     /\ outcome (DataAggregator.wallet_fields wallet)
          (DataAggregator.wallet_strategy wallet)
          (snd (DataAggregator.walletDataExecutions wallet startTime a))
          wprimary
          (fst (DataAggregator.aggregateWalletData stringify strict_eq wallet startTime a))).
Proof.
  intros strategy_of outcome tplan tprimary tmissing wplan wprimary.
  subst outcome. cbv beta. split.
  - unfold DataAggregator.aggregateTokenData.
    fold (strategy_of (DataAggregator.strategy token)).
    unfold DataAggregator.tokenDataExecutions. fold tplan. fold tmissing.
    unfold DataAggregator.executeTokenDataRequests.
    destruct (executeRequests_split (@Provider.getTokenData Value)
                (DataAggregator.assetUnit token) (DataAggregator.options token) a tplan
                (DataAggregator.addPriorityProviders a tplan
                   (DataAggregator.groupByPrimary tplan)) startTime)
      as (fallback & Hsplit & Hfb).
    fold tprimary in Hsplit.
    destruct (DataAggregator.executeRequests _ _ _ a tplan _ startTime)
      as [run executions].
    cbn [snd] in Hsplit |- *. subst executions.
    exists fallback. rewrite <- app_assoc. split; [reflexivity |].
    split; [exact Hfb |].
    exact (respond_errors (DataAggregator.fields token)
             (strategy_of (DataAggregator.strategy token)) startTime a run
             tprimary fallback tmissing Hfb).
  - unfold DataAggregator.aggregateWalletData.
    fold (strategy_of (DataAggregator.wallet_strategy wallet)).
    unfold DataAggregator.walletDataExecutions. fold wplan.
    unfold DataAggregator.executeWalletDataRequests.
    destruct (executeRequests_split (@Provider.getWalletData Value)
                (DataAggregator.address wallet) (DataAggregator.wallet_options wallet) a
                wplan (DataAggregator.groupByPrimary wplan) startTime)
      as (fallback & Hsplit & Hfb).
    fold wprimary in Hsplit.
    destruct (DataAggregator.executeRequests _ _ _ a wplan _ startTime)
      as [run executions].
    cbn [snd] in Hsplit |- *. subst executions.
    exists fallback. split; [reflexivity |]. split; [exact Hfb |].
    pose proof (respond_errors (DataAggregator.wallet_fields wallet)
                  (strategy_of (DataAggregator.wallet_strategy wallet)) startTime a run
                  wprimary fallback [] Hfb) as H.
    cbv zeta in H. rewrite !app_nil_r in H. exact H.
Qed.

(** The token entry point reports every requested field that the router
    left out of the plan: when the aggregation step completes, the error
    list names the first priority provider of the field, or "unknown". *)
Lemma token_unrouted_field_surfaces_error
    (token : DataAggregator.TokenDataAggregationRequest) (startTime : Z) a f :
  In f (DataAggregator.fields token) ->
  JsMap.has f (FieldRouter.planTokenDataRouting (DataAggregator.fields token)
                 (DataAggregator.options token) (DataAggregator.fieldRouter a)) = false ->
  let missingProvider :=
    match FieldRouter.getFieldPriorities f (DataAggregator.fieldRouter a) with
    | Some (p :: _) => or_else p "unknown"
    | _ => "unknown"
    end in
  let executions := snd (DataAggregator.tokenDataExecutions token startTime a) in
  In (DataAggregator.notFound missingProvider 1) executions /\
  (forall rs,
     DataAggregator.aggregateFieldResults stringify strict_eq
       (DataAggregator.fields token) executions
       (match DataAggregator.strategy token with
        | Some s => s
        | None => DataAggregator.defaultStrategy a
        end) = Normal rs ->
     In (DataAggregator.mkErrorEntry missingProvider
           ("Provider " ++ missingProvider ++ " not found") true)
        (DataAggregator.errors
           (fst (DataAggregator.aggregateTokenData stringify strict_eq token startTime a)))).
Proof.
  intros Hin Hplan missingProvider executions.
  assert (Hex : In (DataAggregator.notFound missingProvider 1) executions).
  { subst executions. unfold DataAggregator.tokenDataExecutions.
    destruct (DataAggregator.executeTokenDataRequests _ _ _ _ _) as [run es].
    cbn [snd]. apply in_or_app. right.
    unfold DataAggregator.missingProviderExecutions.
    apply in_flat_map. exists f. split; [exact Hin |].
    rewrite Hplan. now left. }
  split; [exact Hex |].
  intros rs Hrs.
  unfold DataAggregator.aggregateTokenData.
  fold executions in Hex.
  destruct (DataAggregator.tokenDataExecutions token startTime a) as [run es] eqn:Hdone.
  cbn [snd] in executions. subst executions.
  pose proof (respond_cases (DataAggregator.fields token)
                (match DataAggregator.strategy token with
                 | Some s => s
                 | None => DataAggregator.defaultStrategy a
                 end) startTime a run es) as H.
  cbv zeta in H. rewrite Hrs in H. rewrite H.
  apply (extractErrors_In es _
           (mkError ("Provider " ++ missingProvider ++ " not found")) Hex);
    reflexivity.
Qed.

End AggregatorProps.

(** C3.  The fixtures of the test suite, priority order
    [coingecko, taptools] for [price], conflict resolution by priority.
    When [holders] is requested before [price], taptools (primary for
    [holders]) is executed first, the two providers return distinct
    prices, and the resolved price is the one of taptools, the provider
    ranked lower; the price of coingecko is the recorded conflict. *)
Theorem priority_resolution_follows_execution_order :
  let request :=
    DataAggregator.mkTokenRequest "lovelace" ["holders"; "price"] None
      (Some by_priority) in
  let executions :=
    snd (DataAggregator.tokenDataExecutions request 1000 price_aggregator) in
  FieldRouter.getFieldPriorities "price" (DataAggregator.fieldRouter price_aggregator)
  = Some ["coingecko"; "taptools"]
  /\ DataAggregator.fieldValues "price" executions
     = [("taptools", Json "0.46"); ("coingecko", Json "0.45")]
  /\ DataAggregator.aggregateField prim_stringify prim_strict_eq "price" executions
       by_priority
     = Normal (Some (DataAggregator.mkResult "price" (Json "0.46") ["taptools"] (8 # 10)
                       (Some [DataAggregator.mkUnique "coingecko" (Json "0.45") 1])))
  /\ JsMap.get "price"
       (DataAggregator.data_fields
          (DataAggregator.response_data
             (fst (DataAggregator.aggregateTokenData prim_stringify prim_strict_eq
                     request 1000 price_aggregator))))
     = Some (Json "0.46").
Proof. vm_compute. repeat split. Qed.

(** C1.  No provider declares the wallet field [balance] and no priority
    list names it, so the routing plan leaves it out.  The wallet entry
    point returns neither the field nor an error; the token entry point, in
    the same situation, reports "Provider unknown not found". *)
Theorem wallet_unrouted_field_has_no_error :
  let a := DataAggregator.new 0 [coingecko] [] in
  let wallet := DataAggregator.mkWalletRequest "addr1qxy" ["balance"] None None in
  let token := DataAggregator.mkTokenRequest "lovelace" ["holders"] None None in
  let wresp := fst (DataAggregator.aggregateWalletData prim_stringify prim_strict_eq
                      wallet 1000 a) in
  let tresp := fst (DataAggregator.aggregateTokenData prim_stringify prim_strict_eq
                      token 1000 a) in
  JsMap.has "balance"
    (FieldRouter.planWalletDataRouting ["balance"] None (DataAggregator.fieldRouter a))
  = false
  /\ DataAggregator.walletDataExecutions wallet 1000 a
     = (DataAggregator.mkRun (DataAggregator.fieldRouter a) 0 1000, [])
  /\ DataAggregator.data_fields (DataAggregator.response_data wresp) = []
  /\ DataAggregator.errors wresp = []
  /\ DataAggregator.errors tresp
     = [DataAggregator.mkErrorEntry "unknown" "Provider unknown not found" true].
Proof. vm_compute. repeat split. Qed.

(** C4 as stated fails for a failed execution without an error object: the
    execution is there, failed, and the error list is empty. *)
Lemma failed_execution_without_error_counterexample :
  let a := DataAggregator.new 0 [silent] [] in
  let request := DataAggregator.mkTokenRequest "lovelace" ["price"] None None in
  let executions := snd (DataAggregator.tokenDataExecutions request 1000 a) in
  let resp := fst (DataAggregator.aggregateTokenData prim_stringify prim_strict_eq
                     request 1000 a) in
  ~ (forall e,
       In e executions ->
       DataAggregator.success e = false ->
       exists x, In x (DataAggregator.errors resp)
                 /\ DataAggregator.err_provider x = DataAggregator.provider e
                 /\ DataAggregator.recoverable x = true).
Proof.
  intros a request executions resp H.
  destruct (H (DataAggregator.mkExecution "silent" false None None 10 []))
    as [x [Hin _]].
  - vm_compute. now left.
  - reflexivity.
  - vm_compute in Hin. exact Hin.
Qed.

(** A fallback call that fails is not reported: the primary provider and
    the fallback both answer with an error, two provider calls are made, and
    only the execution of the primary is recorded and reported. *)
Example failed_fallback_is_not_reported :
  let a := DataAggregator.new 0 [refusing "koios" "HTTP 503"; refusing "kupo" "HTTP 500"]
             [] in
  let request := DataAggregator.mkTokenRequest "lovelace" ["price"] None None in
  let done := DataAggregator.tokenDataExecutions request 1000 a in
  DataAggregator.calls (fst done) = 2%nat
  /\ map (@DataAggregator.provider JsPrim) (snd done) = ["koios"]
  /\ DataAggregator.errors
       (fst (DataAggregator.aggregateTokenData prim_stringify prim_strict_eq
               request 1000 a))
     = [DataAggregator.mkErrorEntry "koios" "HTTP 503" true].
Proof. vm_compute. repeat split. Qed.

(** A provider failure is lost when the aggregation step throws: [koios]
    fails on [price] with an error, the two ledgers make [JSON.stringify]
    throw on [totalSupply], and the error list holds the entry of the
    aggregator alone. *)
Example provider_failure_lost_when_aggregation_throws :
  let a := DataAggregator.new 0
             [refusing "koios" "HTTP 503"; ledger "kupo" 45; ledger "blockfrost" 45]
             [("totalSupply", ["kupo"; "blockfrost"])] in
  let request := DataAggregator.mkTokenRequest "lovelace" ["price"; "totalSupply"]
                   None None in
  map (fun e => (DataAggregator.provider e, DataAggregator.success e))
      (snd (DataAggregator.tokenDataExecutions request 1000 a))
  = [("koios", false); ("kupo", true); ("blockfrost", true)]
  /\ DataAggregator.errors
       (fst (DataAggregator.aggregateTokenData prim_stringify prim_strict_eq
               request 1000 a))
     = [DataAggregator.mkErrorEntry "aggregator"
          "Do not know how to serialize a BigInt" false].
Proof. vm_compute. repeat split. Qed.

(** The [catch] branch is reachable: two providers answer [totalSupply]
    with [BigInt]s, [JSON.stringify] throws inside the aggregation step,
    and the response is the one of the aggregator. *)
Example aggregator_fault_response :
  let a := DataAggregator.new 0 [ledger "koios" 45; ledger "blockfrost" 45]
             [("totalSupply", ["koios"; "blockfrost"])] in
  let request := DataAggregator.mkTokenRequest "lovelace" ["totalSupply"] None None in
  fst (DataAggregator.aggregateTokenData prim_stringify prim_strict_eq request 1000 a)
  = DataAggregator.mkSDKResponse
      (DataAggregator.mkData [] None None)
      (DataAggregator.mkMetadata [] 10 1010 None)
      [DataAggregator.mkErrorEntry "aggregator"
         "Do not know how to serialize a BigInt" false].
Proof. vm_compute. reflexivity. Qed.

(** ** Circuit breaker: the state machine as a whole *)

Section BreakerProps.
Context {T : Type}.
Variable cfg : CircuitBreaker.Config.

Lemma run_snoc (calls : list (CircuitBreaker.Call T)) c b :
  CircuitBreaker.run cfg (calls ++ [c]) b
  = fst (CircuitBreaker.execute cfg c (CircuitBreaker.run cfg calls b)).
Proof. unfold CircuitBreaker.run. now rewrite fold_left_app. Qed.

Lemma run_cons (calls : list (CircuitBreaker.Call T)) c b :
  CircuitBreaker.run cfg (c :: calls) b
  = CircuitBreaker.run cfg calls (fst (CircuitBreaker.execute cfg c b)).
Proof. reflexivity. Qed.

Lemma breaker_inv_execute (c : CircuitBreaker.Call T) b :
  breaker_inv cfg b -> breaker_inv cfg (fst (CircuitBreaker.execute cfg c b)).
Proof.
  destruct b as [f l s]. unfold breaker_inv, CircuitBreaker.execute,
    CircuitBreaker.onSuccess, CircuitBreaker.onFailure,
    CircuitBreaker.shouldAttemptRecovery. cbn.
  intros [Hf Hs].
  destruct s; cbn.
  - destruct (CircuitBreaker.fn c); cbn.
    + split; [lia | intros; lia].
    + split; [lia|].
      destruct (Z.leb_spec (CircuitBreaker.failureThreshold cfg) (f + 1)); cbn.
      * split; [lia | discriminate].
      * intros; lia.
  - destruct Hs as [Hth Hl]. destruct l as [t0|]; [|congruence].
    destruct (CircuitBreaker.recoveryTime cfg <=? CircuitBreaker.now c - t0); cbn.
    + destruct (CircuitBreaker.fn c); cbn.
      * split; [lia|].
        destruct (Z.eqb_spec (Z.max 0 (f - 1)) 0); cbn; [intros; lia | trivial].
      * split; [lia|].
        destruct (Z.leb_spec (CircuitBreaker.failureThreshold cfg) (f + 1)); cbn.
        -- split; [lia | discriminate].
        -- trivial.
    + split; [lia | split; [lia | discriminate]].
  - destruct (CircuitBreaker.fn c); cbn.
    + split; [lia|].
      destruct (Z.eqb_spec (Z.max 0 (f - 1)) 0); cbn; [intros; lia | trivial].
    + split; [lia|].
      destruct (Z.leb_spec (CircuitBreaker.failureThreshold cfg) (f + 1)); cbn.
      * split; [lia | discriminate].
      * trivial.
Qed.

Lemma reachable_breaker_inv b :
  @CircuitBreaker.reachable T cfg b -> breaker_inv cfg b.
Proof.
  induction 1.
  - split; cbn; [lia | intros; lia].
  - now apply breaker_inv_execute.
  - split; cbn; [lia | intros; lia].
Qed.

(** A call that does not overlap any other is an [enter] followed by the
    [settle] of the same call. *)
Lemma execute_enter_settle (c : CircuitBreaker.Call T) b :
  fst (CircuitBreaker.execute cfg c b)
  = match snd (CircuitBreaker.enter cfg (CircuitBreaker.now c) b) with
    | Normal _ =>
        CircuitBreaker.settle cfg (CircuitBreaker.fn c) (CircuitBreaker.done c)
          (fst (CircuitBreaker.enter cfg (CircuitBreaker.now c) b))
    | Throw _ => b
    end.
Proof.
  unfold CircuitBreaker.execute, CircuitBreaker.enter, CircuitBreaker.settle.
  destruct (CircuitBreaker.state b);
    try destruct (CircuitBreaker.shouldAttemptRecovery cfg (CircuitBreaker.now c) b);
    cbn [fst snd]; now destruct (CircuitBreaker.fn c).
Qed.

Lemma reachable_interleaved b :
  @CircuitBreaker.reachable T cfg b -> @CircuitBreaker.interleaved T cfg b 0.
Proof.
  induction 1 as [| b c _ IH | b _ IH].
  - constructor.
  - rewrite execute_enter_settle.
    destruct (snd (CircuitBreaker.enter cfg (CircuitBreaker.now c) b)) as [[] |] eqn:E;
      [| exact IH].
    apply CircuitBreaker.inter_settle. now apply CircuitBreaker.inter_enter.
  - now apply CircuitBreaker.inter_reset.
Qed.

(** What overlapping calls keep. *)
Lemma interleaved_inv b n :
  1 <= CircuitBreaker.failureThreshold cfg ->
  @CircuitBreaker.interleaved T cfg b n ->
  0 <= CircuitBreaker.failures b
  /\ (CircuitBreaker.state b = CircuitBreaker.closed ->
      CircuitBreaker.failures b < CircuitBreaker.failureThreshold cfg).
Proof.
  intros Hth. induction 1 as [| b n now _ IH _ | b n result done _ IH | b n _ IH].
  - cbn. split; [lia | intros _; lia].
  - destruct b as [f l s]. unfold CircuitBreaker.enter. cbn in IH |- *.
    destruct s; cbn; [exact IH | | exact IH].
    destruct (CircuitBreaker.shouldAttemptRecovery cfg now (CircuitBreaker.mk f l _));
      cbn; [split; [lia | discriminate] | exact IH].
  - destruct b as [f l s]. cbn in IH. destruct IH as [Hf Hs].
    unfold CircuitBreaker.settle, CircuitBreaker.onSuccess, CircuitBreaker.onFailure.
    destruct result as [r | e]; cbn.
    + destruct s; cbn; try (split; [lia | intros; lia]).
      split; [lia |].
      destruct (Z.eqb_spec (Z.max 0 (f - 1)) 0); cbn; [intros _; lia | discriminate].
    + split; [lia |].
      destruct (Z.leb_spec (CircuitBreaker.failureThreshold cfg) (f + 1)); cbn;
        [discriminate |].
      intros E. specialize (Hs E). lia.
  - cbn. split; [lia | intros _; lia].
Qed.

(** X1.  Whatever calls go through a breaker, overlapping or not, its failure counter
    is never negative and stays below the threshold while the breaker is closed.
    While the breaker is open the counter is at least the threshold as long as no
    two calls have overlapped; calls that overlap can break this (see
    [overlapping_calls_open_with_no_failure]). *)
Theorem breaker_failure_count_invariant b n :
  1 <= CircuitBreaker.failureThreshold cfg ->
  @CircuitBreaker.interleaved T cfg b n ->
  0 <= CircuitBreaker.failures b
  /\ (CircuitBreaker.state b = CircuitBreaker.closed ->
      CircuitBreaker.failures b < CircuitBreaker.failureThreshold cfg)
  /\ (@CircuitBreaker.reachable T cfg b ->
      CircuitBreaker.state b = CircuitBreaker.open ->
      CircuitBreaker.failureThreshold cfg <= CircuitBreaker.failures b).
Proof.
  intros Hth Hi. destruct (interleaved_inv b n Hth Hi) as [Hf Hc].
  split; [exact Hf |]. split; [exact Hc |].
  intros Hr E. destruct (reachable_breaker_inv b Hr) as [_ Hs].
  rewrite E in Hs. apply Hs.
Qed.

(** X2.  An open breaker that can be observed has a last failure time, and rejects every call entered less
    than [recoveryTime] after it: the wrapped function's result is not used and the breaker is
    left as it is. *)
Theorem open_breaker_rejects_until_recovery b :
  @CircuitBreaker.reachable T cfg b ->
  CircuitBreaker.state b = CircuitBreaker.open ->
  exists t0,
    CircuitBreaker.lastFailureTime b = Some t0
    /\ forall c : CircuitBreaker.Call T,
         CircuitBreaker.now c - t0 < CircuitBreaker.recoveryTime cfg ->
         CircuitBreaker.execute cfg c b
         = (b, Throw (mkError "Circuit breaker is open")).
Proof.
  intros Hr Hs. destruct (reachable_breaker_inv b Hr) as [_ Hi].
  rewrite Hs in Hi. destruct Hi as [_ Hl].
  destruct (CircuitBreaker.lastFailureTime b) as [t0|] eqn:El; [|congruence].
  exists t0. split; [reflexivity|]. intros c Hc.
  unfold CircuitBreaker.execute, CircuitBreaker.shouldAttemptRecovery.
  rewrite Hs, El.
  destruct (Z.leb_spec (CircuitBreaker.recoveryTime cfg) (CircuitBreaker.now c - t0));
    [lia | reflexivity].
Qed.

(** The breaker after a row of rejected results, starting fresh. *)
Lemma failures_from_init (calls : list (CircuitBreaker.Call T)) :
  1 <= CircuitBreaker.failureThreshold cfg ->
  Forall call_fails calls ->
  let b := CircuitBreaker.run cfg calls CircuitBreaker.init in
  let n := Z.of_nat (List.length calls) in
  (n < CircuitBreaker.failureThreshold cfg
   /\ CircuitBreaker.state b = CircuitBreaker.closed
   /\ CircuitBreaker.failures b = n)
  \/ (CircuitBreaker.failureThreshold cfg <= n
      /\ CircuitBreaker.state b = CircuitBreaker.open
      /\ CircuitBreaker.failureThreshold cfg <= CircuitBreaker.failures b).
Proof.
  intros Hth.
  induction calls as [|c calls IH] using rev_ind; intros Hall.
  - cbn. left. repeat split; lia.
  - apply Forall_app in Hall. destruct Hall as [Hall Hc].
    specialize (IH Hall). cbv zeta in IH |- *.
    inversion Hc as [|? ? [e He] _]; subst.
    rewrite run_snoc, length_app, Nat2Z.inj_add. cbn [List.length].
    destruct (CircuitBreaker.run cfg calls CircuitBreaker.init) as [f l s].
    cbn [CircuitBreaker.state CircuitBreaker.failures] in IH.
    unfold CircuitBreaker.execute, CircuitBreaker.onFailure,
      CircuitBreaker.shouldAttemptRecovery.
    cbn [CircuitBreaker.state CircuitBreaker.failures CircuitBreaker.lastFailureTime].
    rewrite He.
    destruct IH as [(Hn & Hs & Hf) | (Hn & Hs & Hf)]; subst s; cbn.
    + destruct (Z.leb_spec (CircuitBreaker.failureThreshold cfg) (f + 1)); cbn.
      * right. repeat split; lia.
      * left. repeat split; lia.
    + destruct l as [t0|].
      * destruct (CircuitBreaker.recoveryTime cfg <=? CircuitBreaker.now c - t0); cbn.
        -- destruct (Z.leb_spec (CircuitBreaker.failureThreshold cfg) (f + 1)); cbn;
             [right; repeat split; lia | lia].
        -- right. repeat split; lia.
      * cbn. destruct (Z.leb_spec (CircuitBreaker.failureThreshold cfg) (f + 1)); cbn;
             [right; repeat split; lia | lia].
Qed.

(** X3.  Starting from a fresh breaker, a row of calls whose function rejects leaves the breaker open
    exactly when the row is at least [failureThreshold] long. *)
Theorem breaker_opens_at_threshold (calls : list (CircuitBreaker.Call T)) :
  1 <= CircuitBreaker.failureThreshold cfg ->
  Forall call_fails calls ->
  CircuitBreaker.state (CircuitBreaker.run cfg calls CircuitBreaker.init)
  = CircuitBreaker.open
  <-> CircuitBreaker.failureThreshold cfg <= Z.of_nat (List.length calls).
Proof.
  intros Hth Hall.
  destruct (failures_from_init calls Hth Hall) as [(Hn & Hs & _) | (Hn & Hs & _)];
    rewrite Hs; split; intros; try lia; try reflexivity; discriminate.
Qed.

(** A row of resolved results on a breaker that is half-open or closed. *)
Lemma successes_from_half_open (calls : list (CircuitBreaker.Call T)) b :
  Forall call_succeeds calls ->
  CircuitBreaker.state b <> CircuitBreaker.open ->
  (CircuitBreaker.state b = CircuitBreaker.half_open -> 1 <= CircuitBreaker.failures b) ->
  CircuitBreaker.state (CircuitBreaker.run cfg calls b) = CircuitBreaker.closed
  <-> (CircuitBreaker.state b = CircuitBreaker.closed
       \/ CircuitBreaker.failures b <= Z.of_nat (List.length calls)).
Proof.
  intros Hall. revert b.
  induction Hall as [|c calls [r Hr] Hall IH]; intros b Hopen Hhalf.
  - cbn. split; [tauto|]. intros [H|H]; [exact H|].
    destruct (CircuitBreaker.state b); [reflexivity | congruence | ].
    specialize (Hhalf eq_refl). lia.
  - rewrite run_cons. rewrite IH; clear IH.
    + destruct b as [f l s].
      unfold CircuitBreaker.execute, CircuitBreaker.onSuccess. cbn in *.
      destruct s; [ | congruence | ]; rewrite Hr; cbn.
      * tauto.
      * specialize (Hhalf eq_refl).
        destruct (Z.eqb_spec (Z.max 0 (f - 1)) 0); cbn; split; intros [H|H];
          try discriminate; try lia; right; lia.
    + destruct b as [f l s].
      unfold CircuitBreaker.execute, CircuitBreaker.onSuccess. cbn in *.
      destruct s; [ | congruence | ]; rewrite Hr; cbn; [discriminate|].
      destruct (Z.max 0 (f - 1) =? 0); discriminate.
    + destruct b as [f l s].
      unfold CircuitBreaker.execute, CircuitBreaker.onSuccess. cbn in *.
      destruct s; [ | congruence | ]; rewrite Hr; cbn; [discriminate|].
      destruct (Z.eqb_spec (Z.max 0 (f - 1)) 0); cbn; [discriminate | lia].
Qed.

(** X4.  An open breaker whose recovery time has elapsed closes again after as many resolved
    calls in a row as it has failures on its counter; [successThreshold] plays no part. *)
Theorem breaker_closes_after_as_many_successes_as_failures
    (c : CircuitBreaker.Call T) (calls : list (CircuitBreaker.Call T)) b :
  CircuitBreaker.state b = CircuitBreaker.open ->
  CircuitBreaker.shouldAttemptRecovery cfg (CircuitBreaker.now c) b = true ->
  Forall call_succeeds (c :: calls) ->
  CircuitBreaker.state (CircuitBreaker.run cfg (c :: calls) b) = CircuitBreaker.closed
  <-> CircuitBreaker.failures b <= Z.of_nat (List.length (c :: calls)).
Proof.
  intros Hs Hrec Hall. inversion Hall as [|? ? [r Hr] Hall']; subst.
  rewrite run_cons.
  assert (E : fst (CircuitBreaker.execute cfg c b)
              = CircuitBreaker.onSuccess
                  (CircuitBreaker.mk (CircuitBreaker.failures b)
                     (CircuitBreaker.lastFailureTime b) CircuitBreaker.half_open)).
  { unfold CircuitBreaker.execute. now rewrite Hs, Hrec, Hr. }
  rewrite E. clear E. unfold CircuitBreaker.onSuccess. cbn [CircuitBreaker.state CircuitBreaker.failures CircuitBreaker.lastFailureTime].
  rewrite successes_from_half_open; trivial.
  - cbn [CircuitBreaker.state CircuitBreaker.failures List.length].
    rewrite Nat2Z.inj_succ.
    destruct (Z.eqb_spec (Z.max 0 (CircuitBreaker.failures b - 1)) 0);
      intuition (try discriminate; try lia).
  - cbn. destruct (Z.max 0 (CircuitBreaker.failures b - 1) =? 0); discriminate.
  - cbn. destruct (Z.eqb_spec (Z.max 0 (CircuitBreaker.failures b - 1)) 0); [discriminate | lia].
Qed.

End BreakerProps.

Lemma breaker_failure_count_invariant_witness :
  0 <= CircuitBreaker.failures overlapped
  /\ (CircuitBreaker.state overlapped = CircuitBreaker.closed ->
      CircuitBreaker.failures overlapped < 5)
  /\ (CircuitBreaker.reachable (T:=unit) CircuitBreaker.defaultConfig overlapped ->
      CircuitBreaker.state overlapped = CircuitBreaker.open ->
      5 <= CircuitBreaker.failures overlapped).
Proof.
  apply (breaker_failure_count_invariant (T:=unit) CircuitBreaker.defaultConfig
           overlapped 0).
  - cbn. lia.
  - unfold overlapped.
    apply CircuitBreaker.inter_settle, CircuitBreaker.inter_settle.
    apply (CircuitBreaker.inter_enter CircuitBreaker.defaultConfig
             (CircuitBreaker.run CircuitBreaker.defaultConfig
                [failing 0; failing 10; failing 20; failing 30] CircuitBreaker.init)
             1 41); [| reflexivity].
    apply (CircuitBreaker.inter_enter CircuitBreaker.defaultConfig
             (CircuitBreaker.run CircuitBreaker.defaultConfig
                [failing 0; failing 10; failing 20; failing 30] CircuitBreaker.init)
             0 40); [| reflexivity].
    apply reachable_interleaved, reachable_run, CircuitBreaker.reach_init.
Defined.

(** Four failures, then two calls that overlap: both enter while the breaker
    is closed, the first rejects and opens the breaker, the second resolves
    and clears the counter of the open breaker. *)
Example overlapping_calls_open_with_no_failure :
  CircuitBreaker.interleaved (T:=unit) CircuitBreaker.defaultConfig overlapped 0
  /\ overlapped = CircuitBreaker.mk 0 (Some 50) CircuitBreaker.open.
Proof.
  split; [| reflexivity].
  unfold overlapped.
  apply CircuitBreaker.inter_settle, CircuitBreaker.inter_settle.
  apply (CircuitBreaker.inter_enter CircuitBreaker.defaultConfig
           (CircuitBreaker.run CircuitBreaker.defaultConfig
              [failing 0; failing 10; failing 20; failing 30] CircuitBreaker.init)
           1 41); [| reflexivity].
  apply (CircuitBreaker.inter_enter CircuitBreaker.defaultConfig
           (CircuitBreaker.run CircuitBreaker.defaultConfig
              [failing 0; failing 10; failing 20; failing 30] CircuitBreaker.init)
           0 40); [| reflexivity].
  apply reachable_interleaved, reachable_run, CircuitBreaker.reach_init.
Qed.

Lemma open_breaker_rejects_until_recovery_witness :
  let b := CircuitBreaker.run CircuitBreaker.defaultConfig
             [failing 0; failing 10; failing 20; failing 30; failing 40]
             CircuitBreaker.init in
  exists t0,
    CircuitBreaker.lastFailureTime b = Some t0
    /\ forall c : CircuitBreaker.Call unit,
         CircuitBreaker.now c - t0 < 60000 ->
         CircuitBreaker.execute CircuitBreaker.defaultConfig c b
         = (b, Throw (mkError "Circuit breaker is open")).
Proof.
  intros b.
  apply (open_breaker_rejects_until_recovery (T:=unit) CircuitBreaker.defaultConfig b).
  - apply reachable_run, CircuitBreaker.reach_init.
  - reflexivity.
Defined.

Lemma breaker_opens_at_threshold_witness :
  CircuitBreaker.state
    (CircuitBreaker.run CircuitBreaker.defaultConfig
       [failing 0; failing 10; failing 20; failing 30; failing 40; failing 50]
       CircuitBreaker.init)
  = CircuitBreaker.open
  <-> 5 <= 6.
Proof.
  apply (breaker_opens_at_threshold (T:=unit) CircuitBreaker.defaultConfig
           [failing 0; failing 10; failing 20; failing 30; failing 40; failing 50]).
  - cbn. lia.
  - repeat constructor; eexists; reflexivity.
Defined.

Lemma breaker_closes_after_as_many_successes_as_failures_witness :
  let b := CircuitBreaker.mk 5 (Some 45) CircuitBreaker.open in
  CircuitBreaker.state
    (CircuitBreaker.run CircuitBreaker.defaultConfig
       [passing 60100; passing 60200; passing 60300; passing 60400; passing 60500] b)
  = CircuitBreaker.closed
  <-> 5 <= 5.
Proof.
  intros b.
  apply (breaker_closes_after_as_many_successes_as_failures (T:=unit)
           CircuitBreaker.defaultConfig (passing 60100)
           [passing 60200; passing 60300; passing 60400; passing 60500] b).
  - reflexivity.
  - reflexivity.
  - repeat constructor; eexists; reflexivity.
Defined.

(** ** More about the maps *)

Section JsMapKeys.
Context {A : Type}.

Lemma JsMap_keys_update k (f : A -> A) m :
  JsMap.keys (JsMap.update k f m) = JsMap.keys m.
Proof.
  unfold JsMap.keys, JsMap.update. rewrite map_map.
  apply map_ext. intros [k0 v0]. cbn. now destruct (k =? k0)%string.
Qed.

Lemma JsMap_get_In_keys k (m : JsMap.t A) :
  In k (JsMap.keys m) <-> JsMap.get k m <> None.
Proof.
  induction m as [| [k0 v0] m IH]; cbn.
  - split; [intros [] | congruence].
  - destruct (k =? k0)%string eqn:E.
    + apply String.eqb_eq in E. subst. split; [discriminate | now left].
    + rewrite <- IH. split; [intros [-> | H]; [| exact H] | now right].
      now rewrite String.eqb_refl in E.
Qed.

Lemma JsMap_has_In_keys k (m : JsMap.t A) :
  JsMap.has k m = true <-> In k (JsMap.keys m).
Proof.
  rewrite JsMap_get_In_keys. unfold JsMap.has.
  destruct (JsMap.get k m); split; congruence.
Qed.

Lemma JsMap_keys_set k (v : A) m :
  JsMap.keys (JsMap.set k v m)
  = if JsMap.has k m then JsMap.keys m else (JsMap.keys m ++ [k])%list.
Proof.
  unfold JsMap.has, JsMap.keys.
  induction m as [| [k0 v0] m IH]; cbn; [reflexivity |].
  destruct (k =? k0)%string eqn:E; cbn; [reflexivity |].
  rewrite IH. now destruct (JsMap.get k m).
Qed.

Lemma JsMap_keys_delete k (m : JsMap.t A) :
  JsMap.keys (JsMap.delete k m)
  = filter (fun x => negb (k =? x)%string) (JsMap.keys m).
Proof.
  unfold JsMap.keys.
  induction m as [| [k0 v0] m IH]; [reflexivity |].
  rewrite JsMap_delete_cons. cbn. destruct (k =? k0)%string; cbn; now rewrite IH.
Qed.

Lemma JsMap_NoDup_set k (v : A) m :
  NoDup (JsMap.keys m) -> NoDup (JsMap.keys (JsMap.set k v m)).
Proof.
  intros H. rewrite JsMap_keys_set. destruct (JsMap.has k m) eqn:E; [exact H |].
  apply NoDup_app; [exact H | repeat constructor; intros [] |].
  intros x Hx [<- | []]. apply JsMap_has_In_keys in Hx. congruence.
Qed.

Lemma JsMap_NoDup_delete k (m : JsMap.t A) :
  NoDup (JsMap.keys m) -> NoDup (JsMap.keys (JsMap.delete k m)).
Proof. intros H. rewrite JsMap_keys_delete. now apply NoDup_filter. Qed.

Lemma JsMap_get_In k (v : A) m : JsMap.get k m = Some v -> In (k, v) m.
Proof.
  induction m as [| [k0 v0] m IH]; cbn; [discriminate |].
  destruct (k =? k0)%string eqn:E.
  - apply String.eqb_eq in E. intros [= ->]. left. now subst.
  - intros H. right. now apply IH.
Qed.

Lemma JsMap_In_get k (v : A) m :
  NoDup (JsMap.keys m) -> In (k, v) m -> JsMap.get k m = Some v.
Proof.
  induction m as [| [k0 v0] m IH]; cbn; [intros _ [] |].
  intros Hnd [E | Hin].
  - injection E as -> ->. now rewrite String.eqb_refl.
  - inversion Hnd as [| ? ? Hnot Hnd']; subst.
    destruct (k =? k0)%string eqn:E; [| now apply IH].
    apply String.eqb_eq in E. subst k0. exfalso. apply Hnot.
    change k with (fst (k, v)). now apply in_map.
Qed.

Lemma JsMap_NoDup_filter (test : string * A -> bool) (m : JsMap.t A) :
  NoDup (JsMap.keys m) -> NoDup (JsMap.keys (filter test m)).
Proof.
  unfold JsMap.keys. induction m as [| kv m IH]; cbn; [trivial |].
  intros Hnd. inversion Hnd as [| ? ? Hnot Hnd']; subst.
  destruct (test kv); [| now apply IH]. cbn. constructor; [| now apply IH].
  intros Hin. apply Hnot. apply in_map_iff in Hin. destruct Hin as (x & E & Hx).
  apply filter_In in Hx. apply in_map_iff. exists x. tauto.
Qed.

End JsMapKeys.

(** ** Field router: what a plan names, and the bookkeeping of the metrics *)

Section RouterPlans.
Context {Value : Type}.
Implicit Types r : FieldRouter.t Value.

(** *** The routing strategy of a router *)

Lemma new_strategy now ps prios :
  FieldRouter.defaultStrategy (@FieldRouter.new Value now ps prios)
  = FieldRouter.priority.
Proof.
  unfold FieldRouter.new.
  assert (Hp : forall prios r,
             FieldRouter.defaultStrategy
               (fold_left
                  (fun r fp =>
                     FieldRouter.mk (FieldRouter.providers r) (FieldRouter.metrics r)
                       (JsMap.set (fst fp) (snd fp) (FieldRouter.fieldPriorities r))
                       (FieldRouter.defaultStrategy r)) prios r)
             = FieldRouter.defaultStrategy r).
  { clear. induction prios as [| fp prios IH]; intros r; [reflexivity |].
    cbn [fold_left]. now rewrite IH. }
  rewrite Hp. clear Hp.
  assert (Hr : forall r,
             FieldRouter.defaultStrategy
               (fold_left (fun r p => FieldRouter.registerProvider now p r) ps r)
             = FieldRouter.defaultStrategy r).
  { induction ps as [| p ps IH]; intros r; [reflexivity |].
    cbn [fold_left]. now rewrite IH. }
  now rewrite Hr.
Qed.

Lemma reachable_strategy r :
  FieldRouter.reachable r -> FieldRouter.defaultStrategy r = FieldRouter.priority.
Proof.
  induction 1; trivial.
  - apply new_strategy.
  - unfold FieldRouter.updateMetrics.
    now destruct (JsMap.get n (FieldRouter.metrics r)).
Qed.

(** *** The plan of a field that has candidates *)

Lemma createRoutingPlan_primary f available strategy r p :
  FieldRouter.getOptimalProvider f available strategy r = Some p ->
  truthy p = true ->
  exists est,
    FieldRouter.createRoutingPlan f available strategy r
    = Some (FieldRouter.mkPlan f p
              (FieldRouter.sort_by (FieldRouter.compareFallback r)
                 (filter (fun q => negb (q =? p)%string) available))
              est).
Proof.
  intros E Ht. unfold FieldRouter.createRoutingPlan. rewrite E, Ht.
  eexists. reflexivity.
Qed.

Lemma find_split {A} (test : A -> bool) l x :
  find test l = Some x ->
  exists before after,
    l = (before ++ x :: after)%list /\ forall q, In q before -> test q = false.
Proof.
  induction l as [| y l IH]; [discriminate |]. cbn.
  destruct (test y) eqn:Ey.
  - intros [= ->]. exists [], l. split; [reflexivity | intros q []].
  - intros H. destruct (IH H) as (before & after & -> & Hb).
    exists (y :: before), after. split; [reflexivity |].
    intros q [<- | Hq]; auto.
Qed.

Lemma not_includes x l : includes x l = false -> ~ In x l.
Proof.
  intros H Hin. apply In_includes in Hin. congruence.
Qed.

Lemma getOptimalProvider_priority f available r :
  available <> [] ->
  (forall n, In n available -> truthy n = true) ->
  exists p,
    FieldRouter.getOptimalProvider f available FieldRouter.priority r = Some p
    /\ truthy p = true
    /\ priority_choice (FieldRouter.getFieldPriorities f r) available p.
Proof.
  intros Hne Hall. unfold priority_choice, FieldRouter.getFieldPriorities.
  destruct available as [| a [| b rest]]; [congruence | |].
  - cbn [FieldRouter.getOptimalProvider]. rewrite (Hall a) by now left.
    exists a. split; [reflexivity |]. split; [apply Hall; now left |].
    split; [now left |].
    destruct (JsMap.get f (FieldRouter.fieldPriorities r)) as [l |]; [| reflexivity].
    destruct (find (fun p => includes p [a]) l) as [x |] eqn:Hf.
    + left. destruct (find_split _ _ _ Hf) as (before & after & -> & Hb).
      apply find_some in Hf. destruct Hf as [_ Hx].
      apply includes_In in Hx. destruct Hx as [<- | []].
      exists before, after. split; [reflexivity |].
      intros q Hq. apply not_includes. now apply Hb.
    + right. split; [| reflexivity].
      intros q Hq. apply not_includes.
      exact (find_none _ _ Hf q Hq).
  - cbn [FieldRouter.getOptimalProvider]. eexists. split; [reflexivity |].
    split; [now apply getProviderByPriority_truthy |].
    unfold FieldRouter.getProviderByPriority. cbn [FieldRouter.first_or_empty].
    destruct (JsMap.get f (FieldRouter.fieldPriorities r)) as [l |].
    + destruct (find (fun p => includes p (a :: b :: rest)) l) as [x |] eqn:Hf.
      * destruct (find_split _ _ _ Hf) as (before & after & -> & Hb).
        apply find_some in Hf. destruct Hf as [_ Hx].
        split; [now apply includes_In |].
        left. exists before, after. split; [reflexivity |].
        intros q Hq. apply not_includes. now apply Hb.
      * split; [now left |]. right. split; [| reflexivity].
        intros q Hq. apply not_includes. exact (find_none _ _ Hf q Hq).
    + split; [now left | reflexivity].
Qed.

(** X5.  A router that can be observed routes by priority, whatever the request options say:
    when providers declare a requested token field, the plan's primary provider is one of
    them; it is the first entry of the field's priority list that declares the field, and
    the first registered candidate when the list is missing or names none of them. *)
Theorem plan_primary_follows_priority_list f fields options r :
  FieldRouter.reachable r ->
  In f fields ->
  (forall n, In n (JsMap.keys (FieldRouter.providers r)) -> n <> "") ->
  FieldRouter.getProvidersForTokenField f r <> [] ->
  exists rp,
    JsMap.get f (FieldRouter.planTokenDataRouting fields options r) = Some rp
    /\ priority_choice (FieldRouter.getFieldPriorities f r)
         (FieldRouter.getProvidersForTokenField f r) (FieldRouter.plan_provider rp).
Proof.
  intros Hr Hin Hnames Hne.
  rewrite (planTokenDataRouting_get f fields options r Hin).
  unfold FieldRouter.getRoutingStrategy. rewrite (reachable_strategy r Hr).
  destruct (getOptimalProvider_priority f (FieldRouter.getProvidersForTokenField f r) r Hne)
    as (p & E & Ht & Hc).
  { intros n Hn. apply truthy_iff, Hnames, (token_providers_registered f), Hn. }
  destruct (createRoutingPlan_primary _ _ _ _ _ E Ht) as [est ->].
  eexists. split; [reflexivity | exact Hc].
Qed.

(** *** The fallback list *)

Lemma insert_sorted_perm cmp x l :
  Permutation (FieldRouter.insert_sorted cmp x l) (x :: l).
Proof.
  induction l as [| y l IH]; cbn; [reflexivity |].
  destruct (Qle_bool (cmp x y) 0); [reflexivity |].
  rewrite IH. apply perm_swap.
Qed.

Lemma sort_by_perm cmp l : Permutation (FieldRouter.sort_by cmp l) l.
Proof.
  induction l as [| x l IH]; cbn; [reflexivity |].
  rewrite insert_sorted_perm. now constructor.
Qed.

(** X6.  The fallback list of a plan with candidates is a rearrangement of the other candidates:
    every candidate but the primary is tried, none twice over what the registry holds, and
    the primary is not among them. *)
Theorem plan_fallbacks_are_the_other_candidates f fields options r :
  In f fields ->
  (forall n, In n (JsMap.keys (FieldRouter.providers r)) -> n <> "") ->
  FieldRouter.getProvidersForTokenField f r <> [] ->
  exists rp,
    JsMap.get f (FieldRouter.planTokenDataRouting fields options r) = Some rp
    /\ Permutation (FieldRouter.fallbackProviders rp)
         (filter (fun q => negb (q =? FieldRouter.plan_provider rp)%string)
            (FieldRouter.getProvidersForTokenField f r))
    /\ ~ In (FieldRouter.plan_provider rp) (FieldRouter.fallbackProviders rp).
Proof.
  intros Hin Hnames Hne.
  rewrite (planTokenDataRouting_get f fields options r Hin).
  destruct (getOptimalProvider_truthy f (FieldRouter.getProvidersForTokenField f r)
              (FieldRouter.getRoutingStrategy options r) r Hne) as (p & E & Ht).
  { intros n Hn. apply truthy_iff, Hnames, (token_providers_registered f), Hn. }
  destruct (createRoutingPlan_primary _ _ _ _ _ E Ht) as [est ->].
  eexists. split; [reflexivity |].
  cbn [FieldRouter.fallbackProviders FieldRouter.plan_provider].
  pose proof (sort_by_perm (FieldRouter.compareFallback r)
                (filter (fun q => negb (q =? p)%string)
                   (FieldRouter.getProvidersForTokenField f r))) as Hp.
  split; [exact Hp |].
  intros Hin'. apply (Permutation_in _ Hp) in Hin'.
  apply filter_In in Hin'. destruct Hin' as [_ Hq].
  now rewrite String.eqb_refl in Hq.
Qed.

End RouterPlans.

Lemma plan_primary_follows_priority_list_witness :
  let r := FieldRouter.new 0 [coingecko; taptools]
             [("price", ["blockfrost"; "taptools"; "coingecko"])] in
  exists rp,
    JsMap.get "price" (FieldRouter.planTokenDataRouting ["price"; "holders"] None r)
    = Some rp
    /\ priority_choice (FieldRouter.getFieldPriorities "price" r)
         (FieldRouter.getProvidersForTokenField "price" r)
         (FieldRouter.plan_provider rp).
Proof.
  intros r.
  apply (plan_primary_follows_priority_list "price" ["price"; "holders"] None r).
  - apply FieldRouter.reach_new.
  - cbn. tauto.
  - cbn. intros n [<- | [<- | []]]; discriminate.
  - cbn. discriminate.
Defined.

Lemma plan_fallbacks_are_the_other_candidates_witness :
  let r := FieldRouter.new 0 [coingecko; taptools]
             [("price", ["blockfrost"; "taptools"; "coingecko"])] in
  exists rp,
    JsMap.get "price" (FieldRouter.planTokenDataRouting ["price"; "holders"] None r)
    = Some rp
    /\ Permutation (FieldRouter.fallbackProviders rp)
         (filter (fun q => negb (q =? FieldRouter.plan_provider rp)%string)
            (FieldRouter.getProvidersForTokenField "price" r))
    /\ ~ In (FieldRouter.plan_provider rp) (FieldRouter.fallbackProviders rp).
Proof.
  intros r.
  apply (plan_fallbacks_are_the_other_candidates "price" ["price"; "holders"] None r).
  - cbn. tauto.
  - cbn. intros n [<- | [<- | []]]; discriminate.
  - cbn. discriminate.
Defined.

Section RouterMetrics.
Context {Value : Type}.
Implicit Types r : FieldRouter.t Value.

(** *** The bookkeeping of the metrics *)

Lemma ratio_in_unit (a b : Z) :
  0 <= a <= b -> 0 < b -> (0 <= inject_Z a / inject_Z b <= 1)%Q.
Proof.
  intros Ha Hb.
  assert (Hq : (0 < inject_Z b)%Q) by (unfold Qlt; cbn; lia).
  split.
  - apply Qle_shift_div_l; [exact Hq |]. rewrite Qmult_0_l.
    unfold Qle; cbn; lia.
  - apply Qle_shift_div_r; [exact Hq |]. rewrite Qmult_1_l.
    rewrite <- Zle_Qle. lia.
Qed.

Lemma router_inv_empty :
  router_inv (@FieldRouter.mk Value JsMap.empty JsMap.empty JsMap.empty
                FieldRouter.priority).
Proof. split; [reflexivity | intros n m; discriminate]. Qed.

Lemma router_inv_registerProvider now p r :
  router_inv r -> router_inv (FieldRouter.registerProvider now p r).
Proof.
  intros [Hreg Hm]. unfold FieldRouter.registerProvider. split.
  - intros n. cbn [FieldRouter.providers FieldRouter.metrics]. unfold JsMap.has.
    rewrite JsMap_get_set.
    destruct (JsMap.get (Provider.name p) (FieldRouter.metrics r)) as [m0 |] eqn:G.
    + destruct (Provider.name p =? n)%string eqn:E.
      * apply String.eqb_eq in E. subst n. now rewrite G.
      * apply Hreg.
    + rewrite JsMap_get_set. destruct (Provider.name p =? n)%string; [reflexivity |].
      apply Hreg.
  - intros n m. cbn [FieldRouter.metrics]. unfold JsMap.has.
    destruct (JsMap.get (Provider.name p) (FieldRouter.metrics r)) as [m0 |] eqn:G.
    + apply Hm.
    + rewrite JsMap_get_set. destruct (Provider.name p =? n)%string eqn:E.
      * apply String.eqb_eq in E. intros [= <-]. unfold metrics_ok.
        cbn [FieldRouter.provider FieldRouter.failedRequests FieldRouter.totalRequests
             FieldRouter.successRate FieldRouter.metrics_cost Z.eqb].
        split; [exact E |]. split; [lia |].
        split; [split; unfold Qle; cbn; lia |].
        split; reflexivity.
      * apply Hm.
Qed.

Lemma router_inv_priorities r fp :
  router_inv r ->
  router_inv (FieldRouter.mk (FieldRouter.providers r) (FieldRouter.metrics r) fp
                (FieldRouter.defaultStrategy r)).
Proof. intros H. exact H. Qed.

Lemma router_inv_new now ps prios : router_inv (@FieldRouter.new Value now ps prios).
Proof.
  unfold FieldRouter.new.
  assert (Hp : forall prios r,
             router_inv r ->
             router_inv
               (fold_left
                  (fun r fp =>
                     FieldRouter.mk (FieldRouter.providers r) (FieldRouter.metrics r)
                       (JsMap.set (fst fp) (snd fp) (FieldRouter.fieldPriorities r))
                       (FieldRouter.defaultStrategy r)) prios r)).
  { clear. induction prios as [| fp prios IH]; intros r H; [exact H |].
    cbn [fold_left]. apply IH. exact H. }
  apply Hp. clear Hp.
  assert (Hr : forall r,
             router_inv r ->
             router_inv (fold_left (fun r p => FieldRouter.registerProvider now p r) ps r)).
  { induction ps as [| p ps IH]; intros r H; [exact H |].
    cbn [fold_left]. apply IH. now apply router_inv_registerProvider. }
  apply Hr, router_inv_empty.
Qed.

Lemma router_inv_unregisterProvider name r :
  router_inv r -> router_inv (FieldRouter.unregisterProvider name r).
Proof.
  intros [Hreg Hm]. unfold FieldRouter.unregisterProvider. split.
  - intros n. cbn [FieldRouter.providers FieldRouter.metrics]. unfold JsMap.has.
    rewrite !JsMap_get_delete. destruct (name =? n)%string; [reflexivity | apply Hreg].
  - intros n m. cbn [FieldRouter.metrics]. rewrite JsMap_get_delete.
    destruct (name =? n)%string; [discriminate | apply Hm].
Qed.

Lemma router_inv_updateMetrics name rt ok now r :
  router_inv r -> router_inv (FieldRouter.updateMetrics name rt ok now r).
Proof.
  intros [Hreg Hm]. unfold FieldRouter.updateMetrics.
  destruct (JsMap.get name (FieldRouter.metrics r)) as [m0 |] eqn:G; [| now split].
  destruct (Hm _ _ G) as (Hn & Hc & _ & _ & Hcost).
  split.
  - intros n. cbn [FieldRouter.providers FieldRouter.metrics]. rewrite Hreg.
    unfold JsMap.has. rewrite JsMap_get_update.
    destruct (name =? n)%string; [| reflexivity].
    now destruct (JsMap.get n (FieldRouter.metrics r)).
  - intros n m. cbn [FieldRouter.metrics]. rewrite JsMap_get_update.
    destruct (name =? n)%string eqn:E; [| apply Hm].
    apply String.eqb_eq in E. subst n. rewrite G. cbn [option_map].
    intros [= <-]. unfold metrics_ok.
    cbn [FieldRouter.provider FieldRouter.failedRequests FieldRouter.totalRequests
         FieldRouter.successRate FieldRouter.metrics_cost].
    assert (Hb : 0 <= FieldRouter.totalRequests m0 + 1
                      - (if ok then FieldRouter.failedRequests m0
                         else FieldRouter.failedRequests m0 + 1)
                 <= FieldRouter.totalRequests m0 + 1) by (destruct ok; lia).
    split; [exact Hn |]. split; [destruct ok; lia |].
    split; [apply ratio_in_unit; lia |].
    split; [| exact Hcost].
    destruct (Z.eqb_spec (FieldRouter.totalRequests m0 + 1) 0); [lia | reflexivity].
Qed.

Lemma reachable_router_inv r : FieldRouter.reachable r -> router_inv r.
Proof.
  induction 1.
  - apply router_inv_new.
  - now apply router_inv_registerProvider.
  - now apply router_inv_unregisterProvider.
  - now apply router_inv_updateMetrics.
  - exact IHreachable.
Qed.

(** X7.  In a router that can be observed, a name has a metrics record exactly when a provider is
    registered under it, and every record is consistent: it carries its own name, the failed
    requests are between 0 and the total, the success rate is within [0, 1] and is the share
    of requests that did not fail (1 before the first request), and no cost is recorded. *)
Theorem metrics_bookkeeping_invariant r :
  FieldRouter.reachable r ->
  (forall n, JsMap.has n (FieldRouter.providers r) = true
             <-> FieldRouter.getProviderMetrics n r <> None)
  /\ (forall n m, FieldRouter.getProviderMetrics n r = Some m -> metrics_ok n m).
Proof.
  intros Hr. destruct (reachable_router_inv r Hr) as [Hreg Hm]. split.
  - intros n. rewrite Hreg. unfold JsMap.has, FieldRouter.getProviderMetrics.
    destruct (JsMap.get n (FieldRouter.metrics r)); split; congruence.
  - exact Hm.
Qed.

(** *** The strategies that read the metrics *)

Lemma fastest_fold r (l : list string) :
  forall acc : string * option Q,
    snd acc = option_map FieldRouter.avgResponseTime
                (JsMap.get (fst acc) (FieldRouter.metrics r)) ->
    let res :=
      fold_left
        (fun acc p =>
           match JsMap.get p (FieldRouter.metrics r) with
           | Some m =>
               let better :=
                 match snd acc with
                 | Some tm => negb (Qle_bool tm (FieldRouter.avgResponseTime m))
                 | None => true
                 end in
               if better then (p, Some (FieldRouter.avgResponseTime m)) else acc
           | None => acc
           end)
        l acc in
    snd res = option_map FieldRouter.avgResponseTime
                (JsMap.get (fst res) (FieldRouter.metrics r))
    /\ (fst res = fst acc \/ In (fst res) l)
    /\ (forall q mq, In q l -> JsMap.get q (FieldRouter.metrics r) = Some mq ->
        exists t, snd res = Some t /\ (t <= FieldRouter.avgResponseTime mq)%Q)
    /\ (forall t0, snd acc = Some t0 -> exists t, snd res = Some t /\ (t <= t0)%Q).
Proof.
  induction l as [| p l IH]; intros acc Hacc.
  - cbn. repeat split; auto.
    + intros q mq [].
    + intros t0 H. exists t0. split; [exact H | apply Qle_refl].
  - cbn [fold_left].
    set (acc' := match JsMap.get p (FieldRouter.metrics r) with
                 | Some m => _
                 | None => acc
                 end).
    assert (Hacc' : snd acc' = option_map FieldRouter.avgResponseTime
                                 (JsMap.get (fst acc') (FieldRouter.metrics r))
                    /\ (fst acc' = fst acc \/ fst acc' = p)
                    /\ (forall mq, JsMap.get p (FieldRouter.metrics r) = Some mq ->
                        exists t, snd acc' = Some t
                                  /\ (t <= FieldRouter.avgResponseTime mq)%Q)
                    /\ (forall t0, snd acc = Some t0 ->
                        exists t, snd acc' = Some t /\ (t <= t0)%Q)).
    { subst acc'. destruct acc as [pa otm]. cbn [fst snd] in Hacc |- *.
      destruct (JsMap.get p (FieldRouter.metrics r)) as [m |] eqn:G.
      - destruct otm as [tm |]; cbv zeta.
        + destruct (Qle_bool tm (FieldRouter.avgResponseTime m)) eqn:Hq; cbn [negb fst snd].
          * apply Qle_bool_iff in Hq. repeat split; auto.
            -- intros mq [= <-]. exists tm. now split.
            -- intros t0 [= <-]. exists tm. split; [reflexivity | apply Qle_refl].
          * rewrite G. repeat split; auto.
            -- intros mq [= <-]. eexists. split; [reflexivity | apply Qle_refl].
            -- intros t0 [= <-]. eexists. split; [reflexivity |].
               apply Qlt_le_weak, Qnot_le_lt. intros H.
               apply Qle_bool_iff in H. congruence.
        + cbn [fst snd]. rewrite G. repeat split; auto.
          * intros mq [= <-]. eexists. split; [reflexivity | apply Qle_refl].
          * intros t0 H. discriminate.
      - cbn [fst snd]. repeat split; auto.
        + intros mq H. discriminate.
        + intros t0 H. exists t0. split; [exact H | apply Qle_refl]. }
    destruct Hacc' as (H1 & H2 & H3 & H4).
    destruct (IH acc' H1) as (I1 & I2 & I3 & I4). cbv zeta in I1, I2, I3, I4 |- *.
    split; [exact I1 |]. split; [| split].
    + destruct I2 as [I2 | I2]; [| right; now right].
      rewrite I2. destruct H2 as [H2 | H2]; [now left | right; now left].
    + intros q mq [<- | Hq] G.
      * destruct (H3 mq G) as (t & Ht & Hle).
        destruct (I4 t Ht) as (t' & Ht' & Hle').
        exists t'. split; [exact Ht' | now apply Qle_trans with t].
      * now apply (I3 q mq).
    + intros t0 H. destruct (H4 t0 H) as (t & Ht & Hle).
      destruct (I4 t Ht) as (t' & Ht' & Hle').
      exists t'. split; [exact Ht' | now apply Qle_trans with t].
Qed.

(** X8.  The [fastest] strategy returns one of the candidates, and no candidate with a metrics
    record has a smaller average response time than the one returned. *)
Theorem fastest_strategy_picks_least_response_time f available r :
  available <> [] ->
  (forall n, In n available -> truthy n = true) ->
  exists p,
    FieldRouter.getOptimalProvider f available FieldRouter.fastest r = Some p
    /\ In p available
    /\ forall q mq,
         In q available -> FieldRouter.getProviderMetrics q r = Some mq ->
         exists m, FieldRouter.getProviderMetrics p r = Some m
                   /\ (FieldRouter.avgResponseTime m <= FieldRouter.avgResponseTime mq)%Q.
Proof.
  intros Hne Hall. unfold FieldRouter.getProviderMetrics.
  destruct available as [| a [| b rest]]; [congruence | |].
  - cbn [FieldRouter.getOptimalProvider]. rewrite (Hall a) by now left.
    exists a. split; [reflexivity |]. split; [now left |].
    intros q mq [<- | []] G. exists mq. split; [exact G | apply Qle_refl].
  - cbn [FieldRouter.getOptimalProvider]. eexists. split; [reflexivity |].
    unfold FieldRouter.getFastestProvider. cbn [FieldRouter.first_or_empty].
    destruct (fastest_fold r (a :: b :: rest)
                (a, option_map FieldRouter.avgResponseTime
                      (JsMap.get a (FieldRouter.metrics r))) eq_refl)
      as (I1 & I2 & I3 & _).
    cbv zeta in I1, I2, I3.
    match type of I1 with
    | snd ?res = _ => set (best := res) in *
    end.
    assert (Hin : In (fst best) (a :: b :: rest)).
    { destruct I2 as [I2 | I2]; [rewrite I2; now left | exact I2]. }
    assert (Hor : or_else (fst best) a = fst best).
    { unfold or_else. now rewrite (Hall _ Hin). }
    rewrite Hor. split; [exact Hin |].
    intros q mq Hq G. destruct (I3 q mq Hq G) as (t & Ht & Hle).
    rewrite Ht in I1.
    destruct (JsMap.get (fst best) (FieldRouter.metrics r)) as [m |]; [| discriminate].
    exists m. split; [reflexivity |]. injection I1 as ->. exact Hle.
Qed.

Lemma reliable_fold r (l : list string) :
  forall acc : string * Q,
    snd acc = rate_or_zero r (fst acc) ->
    let res :=
      fold_left
        (fun acc p =>
           match JsMap.get p (FieldRouter.metrics r) with
           | Some m =>
               if negb (Qle_bool (FieldRouter.successRate m) (snd acc))
               then (p, FieldRouter.successRate m) else acc
           | None => acc
           end)
        l acc in
    snd res = rate_or_zero r (fst res)
    /\ (fst res = fst acc \/ In (fst res) l)
    /\ (forall q mq, In q l -> JsMap.get q (FieldRouter.metrics r) = Some mq ->
        (FieldRouter.successRate mq <= snd res)%Q)
    /\ (snd acc <= snd res)%Q.
Proof.
  induction l as [| p l IH]; intros acc Hacc.
  - cbn. repeat split; auto; [intros q mq [] | apply Qle_refl].
  - cbn [fold_left].
    set (acc' := match JsMap.get p (FieldRouter.metrics r) with
                 | Some m => _
                 | None => acc
                 end).
    assert (Hacc' : snd acc' = rate_or_zero r (fst acc')
                    /\ (fst acc' = fst acc \/ fst acc' = p)
                    /\ (forall mq, JsMap.get p (FieldRouter.metrics r) = Some mq ->
                        (FieldRouter.successRate mq <= snd acc')%Q)
                    /\ (snd acc <= snd acc')%Q).
    { subst acc'. destruct (JsMap.get p (FieldRouter.metrics r)) as [m |] eqn:G.
      - destruct (Qle_bool (FieldRouter.successRate m) (snd acc)) eqn:Hq; cbn [negb].
        + apply Qle_bool_iff in Hq. repeat split; auto.
          * now intros mq [= <-].
          * apply Qle_refl.
        + cbn [fst snd]. unfold rate_or_zero. rewrite G. repeat split; auto.
          * intros mq [= <-]. apply Qle_refl.
          * apply Qlt_le_weak, Qnot_le_lt. intros H.
            apply Qle_bool_iff in H. congruence.
      - repeat split; auto; [intros mq H; discriminate | apply Qle_refl]. }
    destruct Hacc' as (H1 & H2 & H3 & H4).
    destruct (IH acc' H1) as (I1 & I2 & I3 & I4). cbv zeta in I1, I2, I3, I4 |- *.
    split; [exact I1 |]. split; [| split].
    + destruct I2 as [I2 | I2]; [| right; now right].
      rewrite I2. destruct H2 as [H2 | H2]; [now left | right; now left].
    + intros q mq [<- | Hq] G.
      * apply Qle_trans with (snd acc'); [now apply H3 | exact I4].
      * now apply (I3 q mq).
    + now apply Qle_trans with (snd acc').
Qed.

(** X9.  The [reliability] strategy returns one of the candidates, and when every candidate has
    a metrics record no candidate has a higher success rate than the one returned. *)
Theorem reliability_strategy_picks_highest_success_rate f available r :
  available <> [] ->
  (forall n, In n available -> truthy n = true) ->
  (forall n, In n available -> FieldRouter.getProviderMetrics n r <> None) ->
  exists p m,
    FieldRouter.getOptimalProvider f available FieldRouter.reliability r = Some p
    /\ In p available
    /\ FieldRouter.getProviderMetrics p r = Some m
    /\ forall q mq,
         In q available -> FieldRouter.getProviderMetrics q r = Some mq ->
         (FieldRouter.successRate mq <= FieldRouter.successRate m)%Q.
Proof.
  intros Hne Hall Hmet. unfold FieldRouter.getProviderMetrics in *.
  destruct available as [| a [| b rest]]; [congruence | |].
  - cbn [FieldRouter.getOptimalProvider]. rewrite (Hall a) by now left.
    destruct (JsMap.get a (FieldRouter.metrics r)) as [m |] eqn:G;
      [| exfalso; apply (Hmet a); [now left | exact G]].
    exists a, m. split; [reflexivity |]. split; [now left |].
    split; [exact G |].
    intros q mq [<- | []] G'. rewrite G in G'. injection G' as <-. apply Qle_refl.
  - cbn [FieldRouter.getOptimalProvider].
    unfold FieldRouter.getMostReliableProvider. cbn [FieldRouter.first_or_empty].
    destruct (reliable_fold r (a :: b :: rest) (a, rate_or_zero r a) eq_refl)
      as (I1 & I2 & I3 & _).
    cbv zeta in I1, I2, I3. cbn [fst snd] in I2.
    change (match JsMap.get a (FieldRouter.metrics r) with
            | Some m => FieldRouter.successRate m
            | None => 0%Q
            end) with (rate_or_zero r a).
    match type of I1 with
    | snd ?res = _ => set (best := res) in *
    end.
    assert (Hin : In (fst best) (a :: b :: rest)).
    { destruct I2 as [I2 | I2]; [rewrite I2; now left | exact I2]. }
    assert (Hor : or_else (fst best) a = fst best).
    { unfold or_else. now rewrite (Hall _ Hin). }
    unfold rate_or_zero in I1.
    destruct (JsMap.get (fst best) (FieldRouter.metrics r)) as [m |] eqn:G;
      [| exfalso; apply (Hmet _ Hin); exact G].
    exists (fst best), m. rewrite Hor. split; [reflexivity |].
    split; [exact Hin |]. split; [exact G |].
    intros q mq Hq G'. rewrite <- I1. now apply (I3 q mq).
Qed.

Lemma cost_fold r (l : list string) (a : string) :
  (forall n m, JsMap.get n (FieldRouter.metrics r) = Some m ->
               FieldRouter.metrics_cost m = None) ->
  fold_left
    (fun acc p =>
       match JsMap.get p (FieldRouter.metrics r) with
       | Some m =>
           if negb (Qle_bool (snd acc) (FieldRouter.cost_or_zero m))
           then (p, FieldRouter.cost_or_zero m) else acc
       | None => acc
       end)
    l (a, 0%Q)
  = (a, 0%Q).
Proof.
  intros Hcost. induction l as [| p l IH]; [reflexivity |].
  cbn [fold_left]. destruct (JsMap.get p (FieldRouter.metrics r)) as [m |] eqn:G;
    [| exact IH].
  unfold FieldRouter.cost_or_zero. rewrite (Hcost _ _ G). cbn [snd].
  exact IH.
Qed.

(** X10.  No operation of the router records a cost, so on a router that can be observed the
    [cost] strategy returns the first candidate, whatever the metrics are. *)
Theorem cost_strategy_picks_first_candidate f a rest r :
  FieldRouter.reachable r ->
  truthy a = true ->
  FieldRouter.getOptimalProvider f (a :: rest) FieldRouter.cost r = Some a.
Proof.
  intros Hr Ha. destruct (reachable_router_inv r Hr) as [_ Hm].
  assert (Hcost : forall n m, JsMap.get n (FieldRouter.metrics r) = Some m ->
                              FieldRouter.metrics_cost m = None).
  { intros n m G. apply (Hm n m G). }
  destruct rest as [| b rest].
  - cbn. now rewrite Ha.
  - cbn [FieldRouter.getOptimalProvider]. f_equal.
    unfold FieldRouter.getCheapestProvider. cbn [FieldRouter.first_or_empty].
    assert (Hs : match JsMap.get a (FieldRouter.metrics r) with
                 | Some m => FieldRouter.cost_or_zero m
                 | None => 0%Q
                 end = 0%Q).
    { destruct (JsMap.get a (FieldRouter.metrics r)) as [m |] eqn:G; [| reflexivity].
      unfold FieldRouter.cost_or_zero. now rewrite (Hcost _ _ G). }
    rewrite Hs, (cost_fold r (a :: b :: rest) a Hcost). cbn [fst].
    unfold or_else. now rewrite Ha.
Qed.

End RouterMetrics.

Lemma metrics_bookkeeping_invariant_witness :
  let r := FieldRouter.updateMetrics "coingecko" 120 false 5
             (FieldRouter.new 0 [coingecko; taptools] []) in
  (forall n, JsMap.has n (FieldRouter.providers r) = true
             <-> FieldRouter.getProviderMetrics n r <> None)
  /\ (forall n m, FieldRouter.getProviderMetrics n r = Some m -> metrics_ok n m).
Proof.
  intros r. apply (metrics_bookkeeping_invariant r).
  apply FieldRouter.reach_update, FieldRouter.reach_new.
Defined.

Lemma fastest_strategy_picks_least_response_time_witness :
  let r := FieldRouter.updateMetrics "taptools" 50 true 5
             (FieldRouter.new 0 [coingecko; taptools] []) in
  exists p,
    FieldRouter.getOptimalProvider "price" ["coingecko"; "taptools"]
      FieldRouter.fastest r = Some p
    /\ In p ["coingecko"; "taptools"]
    /\ forall q mq,
         In q ["coingecko"; "taptools"] ->
         FieldRouter.getProviderMetrics q r = Some mq ->
         exists m, FieldRouter.getProviderMetrics p r = Some m
                   /\ (FieldRouter.avgResponseTime m <= FieldRouter.avgResponseTime mq)%Q.
Proof.
  intros r.
  apply (fastest_strategy_picks_least_response_time "price" ["coingecko"; "taptools"] r).
  - discriminate.
  - intros n [<- | [<- | []]]; reflexivity.
Defined.

Lemma reliability_strategy_picks_highest_success_rate_witness :
  let r := FieldRouter.updateMetrics "coingecko" 120 false 5
             (FieldRouter.new 0 [coingecko; taptools] []) in
  exists p m,
    FieldRouter.getOptimalProvider "price" ["coingecko"; "taptools"]
      FieldRouter.reliability r = Some p
    /\ In p ["coingecko"; "taptools"]
    /\ FieldRouter.getProviderMetrics p r = Some m
    /\ forall q mq,
         In q ["coingecko"; "taptools"] ->
         FieldRouter.getProviderMetrics q r = Some mq ->
         (FieldRouter.successRate mq <= FieldRouter.successRate m)%Q.
Proof.
  intros r.
  apply (reliability_strategy_picks_highest_success_rate "price"
           ["coingecko"; "taptools"] r).
  - discriminate.
  - intros n [<- | [<- | []]]; reflexivity.
  - intros n [<- | [<- | []]]; discriminate.
Defined.

Lemma cost_strategy_picks_first_candidate_witness :
  FieldRouter.getOptimalProvider "price" ["coingecko"; "taptools"] FieldRouter.cost
    (FieldRouter.updateMetrics "taptools" 50 true 5
       (FieldRouter.new 0 [coingecko; taptools] []))
  = Some "coingecko".
Proof.
  apply (cost_strategy_picks_first_candidate "price" "coingecko" ["taptools"]).
  - apply FieldRouter.reach_update, FieldRouter.reach_new.
  - reflexivity.
Defined.

(** ** Deduplication *)

Lemma dedup_from_In x xs : forall seen,
  In x (dedup_from seen xs) <-> In x xs /\ ~ In x seen.
Proof.
  induction xs as [| y xs IH]; intros seen; cbn [dedup_from].
  - cbn. tauto.
  - destruct (includes y seen) eqn:I.
    + rewrite IH. apply includes_In in I. cbn [In]. split.
      * intros [H1 H2]. split; [now right | exact H2].
      * intros [[<- | H1] H2]; [contradiction | now split].
    + cbn [In]. rewrite IH. cbn [In].
      assert (Hy : ~ In y seen) by now apply not_includes.
      split.
      * intros [<- | [H1 H2]]; [split; [now left | exact Hy] |].
        split; [now right | tauto].
      * intros [[<- | H1] H2]; [now left |].
        destruct (String.eqb_spec y x) as [-> | Hne]; [now left |].
        right. split; [exact H1 |]. intros [E | H]; [congruence | contradiction].
Qed.

Lemma dedup_from_NoDup xs : forall seen, NoDup (dedup_from seen xs).
Proof.
  induction xs as [| y xs IH]; intros seen; cbn [dedup_from]; [constructor |].
  destruct (includes y seen); [apply IH |].
  constructor; [| apply IH].
  rewrite dedup_from_In. intros [_ H]. apply H. now left.
Qed.

(** Only the membership in [seen] matters. *)
Lemma dedup_from_ext xs : forall seen seen',
  (forall x, In x seen <-> In x seen') ->
  dedup_from seen xs = dedup_from seen' xs.
Proof.
  induction xs as [| y xs IH]; intros seen seen' H; cbn [dedup_from]; [reflexivity |].
  assert (E : includes y seen = includes y seen').
  { destruct (includes y seen) eqn:I1, (includes y seen') eqn:I2; try reflexivity.
    - apply includes_In, H, In_includes in I1. congruence.
    - apply includes_In, H, In_includes in I2. congruence. }
  rewrite <- E. destruct (includes y seen).
  - now apply IH.
  - f_equal. apply IH. intros x. cbn [In]. now rewrite H.
Qed.

(** ** Data aggregator: where the values of a response come from *)

Section AggregationProps.
Context {Value : Type}.
Variable stringify : Value -> Completion string.
Variable strict_eq : Value -> Value -> bool.
Implicit Types e : DataAggregator.ProviderExecution Value.

(** *** The values that supply a field *)

Lemma fieldValues_In f (es : list (DataAggregator.ProviderExecution Value)) p v :
  In (p, v) (DataAggregator.fieldValues f es)
  <-> exists e, In e es /\ DataAggregator.provider e = p
                /\ DataAggregator.fieldValue f e = Some v.
Proof.
  induction es as [| e es IH]; cbn [DataAggregator.fieldValues].
  - split; [intros [] | intros (e & [] & _)].
  - destruct (DataAggregator.fieldValue f e) as [w |] eqn:E.
    + cbn [In]. rewrite IH. split.
      * intros [[= <- <-] | (e' & Hin & H)].
        -- exists e. repeat split; [now left | exact E].
        -- exists e'. split; [now right | exact H].
      * intros (e' & [<- | Hin] & Hp & Hv).
        -- left. rewrite E in Hv. injection Hv as <-. now subst.
        -- right. now exists e'.
    + rewrite IH. split.
      * intros (e' & Hin & H). exists e'. split; [now right | exact H].
      * intros (e' & [<- | Hin] & Hp & Hv); [congruence |]. now exists e'.
Qed.

Lemma fieldValue_success f e v :
  DataAggregator.fieldValue f e = Some v -> DataAggregator.success e = true.
Proof.
  unfold DataAggregator.fieldValue. now destruct (DataAggregator.success e).
Qed.

Lemma fieldValues_nil f (es : list (DataAggregator.ProviderExecution Value)) :
  DataAggregator.fieldValues f es = []
  <-> forall e, In e es -> DataAggregator.fieldValue f e = None.
Proof.
  induction es as [| e es IH]; cbn [DataAggregator.fieldValues].
  - split; [intros _ e [] | reflexivity].
  - destruct (DataAggregator.fieldValue f e) as [w |] eqn:E.
    + split; [discriminate |]. intros H. specialize (H e (or_introl eq_refl)). congruence.
    + rewrite IH. split.
      * intros H e' [<- | Hin]; [exact E | now apply H].
      * intros H e' Hin. apply H. now right.
Qed.

(** *** The distinct values *)

Lemma values_update_In k (f : DataAggregator.UniqueValue Value -> DataAggregator.UniqueValue Value)
    (m : JsMap.t (DataAggregator.UniqueValue Value)) u :
  In u (JsMap.values (JsMap.update k f m)) ->
  exists u0, In u0 (JsMap.values m) /\ (u = u0 \/ u = f u0).
Proof.
  unfold JsMap.values, JsMap.update. rewrite map_map, in_map_iff.
  intros ([k0 u0] & E & Hin). cbn [fst snd] in E.
  exists u0. split; [change u0 with (snd (k0, u0)); now apply in_map |].
  destruct (k =? k0)%string; cbn in E; subst; auto.
Qed.

Lemma values_set_In k (v : DataAggregator.UniqueValue Value)
    (m : JsMap.t (DataAggregator.UniqueValue Value)) u :
  In u (JsMap.values (JsMap.set k v m)) -> u = v \/ In u (JsMap.values m).
Proof.
  unfold JsMap.values.
  induction m as [| [k0 v0] m IH]; cbn.
  - intros [<- | []]. now left.
  - destruct (k =? k0)%string; cbn.
    + intros [<- | H]; [now left | right; now right].
    + intros [<- | H]; [right; now left |].
      destruct (IH H) as [-> | H']; [now left | right; now right].
Qed.

(** Every distinct value is one of the supplied values, with its provider. *)
Lemma getUniqueValues_from_sound (all : list (string * Value)) values :
  forall unique res,
    DataAggregator.getUniqueValues_from stringify unique values = Normal res ->
    (forall u, In u (JsMap.values unique) ->
               In (DataAggregator.uv_provider u, DataAggregator.uv_value u) all) ->
    (forall pv, In pv values -> In pv all) ->
    forall u, In u (JsMap.values res) ->
              In (DataAggregator.uv_provider u, DataAggregator.uv_value u) all.
Proof.
  induction values as [| [p v] values IH]; intros unique res.
  - cbn. intros [= <-] Hu _. exact Hu.
  - cbn [DataAggregator.getUniqueValues_from].
    destruct (stringify v) as [k | err]; cbn [bindC]; [| discriminate].
    intros Hres Hu Hv. eapply IH; [exact Hres | | intros pv Hpv; apply Hv; now right].
    intros u Hin. destruct (JsMap.get k unique) as [u1 |].
    + apply values_update_In in Hin. destruct Hin as (u0 & Hin & [-> | ->]).
      * now apply Hu.
      * cbn. now apply Hu.
    + apply values_set_In in Hin. destruct Hin as [-> | Hin].
      * cbn. apply Hv. now left.
      * now apply Hu.
Qed.

Lemma values_update_length k (f : DataAggregator.UniqueValue Value -> DataAggregator.UniqueValue Value)
    (m : JsMap.t (DataAggregator.UniqueValue Value)) :
  List.length (JsMap.update k f m) = List.length m.
Proof. unfold JsMap.update. apply length_map. Qed.

Lemma set_not_nil k (v : DataAggregator.UniqueValue Value) m : JsMap.set k v m <> [].
Proof.
  destruct m as [| [k0 v0] m]; cbn; [discriminate |].
  destruct (k =? k0)%string; discriminate.
Qed.

Lemma getUniqueValues_from_not_nil values :
  forall unique res,
    DataAggregator.getUniqueValues_from stringify unique values = Normal res ->
    unique <> [] \/ values <> [] -> res <> [].
Proof.
  induction values as [| [p v] values IH]; intros unique res.
  - cbn. intros [= <-] [H | H]; congruence.
  - cbn [DataAggregator.getUniqueValues_from].
    destruct (stringify v) as [k | err]; cbn [bindC]; [| discriminate].
    intros Hres _. eapply IH; [exact Hres |]. left.
    destruct (JsMap.get k unique) as [u1 |] eqn:G.
    + intros E. apply (f_equal (@List.length _)) in E.
      rewrite values_update_length in E. destruct unique; [discriminate G | discriminate E].
    + apply set_not_nil.
Qed.

Lemma fold_max_In (us : list (DataAggregator.UniqueValue Value)) :
  forall u0,
    In (fold_left (fun mx cur =>
                     if DataAggregator.count mx <? DataAggregator.count cur
                     then cur else mx) us u0)
       (u0 :: us).
Proof.
  induction us as [| u us IH]; intros u0; [now left |].
  cbn [fold_left].
  destruct (IH (if DataAggregator.count u0 <? DataAggregator.count u then u else u0))
    as [E | Hin].
  - rewrite <- E. destruct (_ <? _); [right; now left | now left].
  - right. now right.
Qed.

(** *** One field *)

(** The value of a field result is one of the supplied values. *)
Lemma aggregateField_sound f (es : list (DataAggregator.ProviderExecution Value)) s fr :
  DataAggregator.aggregateField stringify strict_eq f es s = Normal (Some fr) ->
  DataAggregator.field fr = f
  /\ exists p, In (p, DataAggregator.value fr) (DataAggregator.fieldValues f es).
Proof.
  unfold DataAggregator.aggregateField.
  destruct (DataAggregator.fieldValues f es) as [| [p0 v0] [| pv1 rest]] eqn:Hv.
  - discriminate.
  - intros [= <-]. split; [reflexivity |]. exists p0. now left.
  - set (values := (p0, v0) :: pv1 :: rest) in *.
    unfold DataAggregator.resolveFieldConflicts, DataAggregator.getUniqueValues.
    destruct (DataAggregator.getUniqueValues_from stringify JsMap.empty values)
      as [unique | err] eqn:Hu; cbn [bindC]; [| discriminate].
    assert (Hsound : forall u, In u (JsMap.values unique) ->
                       In (DataAggregator.uv_provider u, DataAggregator.uv_value u) values).
    { eapply getUniqueValues_from_sound; [exact Hu | intros u [] | auto]. }
    assert (Hprio : forall r,
               DataAggregator.resolveBypriority strict_eq f values (JsMap.values unique)
               = Normal r ->
               DataAggregator.field r = f
               /\ exists p, In (p, DataAggregator.value r) values).
    { unfold DataAggregator.resolveBypriority. subst values. cbn [snd fst].
      intros r [= <-]. split; [reflexivity |]. exists p0. now left. }
    assert (Hmaj : forall r,
               DataAggregator.resolveByMajority stringify strict_eq f values
                 (JsMap.values unique) = Normal r ->
               DataAggregator.field r = f
               /\ exists p, In (p, DataAggregator.value r) values).
    { unfold DataAggregator.resolveByMajority.
      destruct (JsMap.values unique) as [| u0 us] eqn:Hus; [discriminate |].
      intros r. destruct (DataAggregator.majoritySources _ _ _); cbn [bindC];
        [| discriminate].
      intros [= <-]. split; [reflexivity |]. cbn [DataAggregator.value].
      eexists. apply Hsound. apply fold_max_In. }
    assert (Hany : forall r,
               match DataAggregator.conflictResolution s with
               | DataAggregator.priority =>
                   DataAggregator.resolveBypriority strict_eq f values (JsMap.values unique)
               | DataAggregator.newest =>
                   DataAggregator.resolveByNewest strict_eq f values (JsMap.values unique)
               | DataAggregator.majority =>
                   DataAggregator.resolveByMajority stringify strict_eq f values
                     (JsMap.values unique)
               | DataAggregator.manual =>
                   DataAggregator.resolveBypriority strict_eq f values (JsMap.values unique)
               end = Normal r ->
               DataAggregator.field r = f
               /\ exists p, In (p, DataAggregator.value r) values).
    { intros r. unfold DataAggregator.resolveByNewest.
      destruct (DataAggregator.conflictResolution s); auto. }
    clear Hprio Hmaj.
    destruct (JsMap.values unique) as [| u0 [| u1 us]] eqn:Hus.
    + destruct (DataAggregator.conflictResolution s);
        match goal with
        | |- bindC ?c _ = _ -> _ =>
            destruct c as [r |] eqn:Hr; cbn [bindC]; [| discriminate];
            intros [= <-]; now apply Hany
        end.
    + cbn [bindC]. intros [= <-]. split; [reflexivity |]. cbn [DataAggregator.value].
      exists (DataAggregator.uv_provider u0). apply Hsound. now left.
    + destruct (DataAggregator.conflictResolution s);
        match goal with
        | |- bindC ?c _ = _ -> _ =>
            destruct c as [r |] eqn:Hr; cbn [bindC]; [| discriminate];
            intros [= <-]; now apply Hany
        end.
Qed.

Lemma aggregateField_none f (es : list (DataAggregator.ProviderExecution Value)) s :
  DataAggregator.aggregateField stringify strict_eq f es s = Normal None
  <-> DataAggregator.fieldValues f es = [].
Proof.
  unfold DataAggregator.aggregateField.
  destruct (DataAggregator.fieldValues f es) as [| [p0 v0] [| pv1 rest]].
  - tauto.
  - split; discriminate.
  - destruct (DataAggregator.resolveFieldConflicts _ _ _ _ _); cbn [bindC];
      split; discriminate.
Qed.

(** *** All requested fields *)

Lemma aggregateFieldResults_from_get f requested
    (es : list (DataAggregator.ProviderExecution Value)) s :
  forall results res,
    DataAggregator.aggregateFieldResults_from stringify strict_eq results requested es s
    = Normal res ->
    JsMap.get f res
    = if includes f requested
      then match DataAggregator.aggregateField stringify strict_eq f es s with
           | Normal (Some x) => Some x
           | _ => JsMap.get f results
           end
      else JsMap.get f results.
Proof.
  induction requested as [| f0 requested IH]; intros results res.
  - cbn. now intros [= <-].
  - cbn [DataAggregator.aggregateFieldResults_from includes existsb].
    fold (includes f requested).
    destruct (DataAggregator.aggregateField stringify strict_eq f0 es s)
      as [fr0 | err] eqn:A0; cbn [bindC]; [| discriminate].
    intros Hres. rewrite (IH _ _ Hres).
    destruct (f =? f0)%string eqn:E; cbn [orb].
    + apply String.eqb_eq in E. subst f0. rewrite A0.
      destruct fr0 as [x |].
      * rewrite JsMap_get_set_same. now destruct (includes f requested).
      * now destruct (includes f requested).
    + destruct fr0 as [x |]; [| reflexivity].
      rewrite JsMap_get_set_other; [reflexivity |].
      intros ->. now rewrite String.eqb_refl in E.
Qed.

Lemma aggregateFieldResults_from_NoDup requested
    (es : list (DataAggregator.ProviderExecution Value)) s :
  forall results res,
    DataAggregator.aggregateFieldResults_from stringify strict_eq results requested es s
    = Normal res ->
    NoDup (JsMap.keys results) -> NoDup (JsMap.keys res).
Proof.
  induction requested as [| f0 requested IH]; intros results res.
  - cbn. now intros [= <-].
  - cbn [DataAggregator.aggregateFieldResults_from].
    destruct (DataAggregator.aggregateField stringify strict_eq f0 es s)
      as [fr0 | err]; cbn [bindC]; [| discriminate].
    intros Hres Hnd. apply (IH _ _ Hres).
    destruct fr0; [now apply JsMap_NoDup_set | exact Hnd].
Qed.

(** *** The sources of a result *)

Lemma majoritySources_In (values : list (string * Value)) v :
  forall ps,
    DataAggregator.majoritySources stringify values v = Normal ps ->
    forall p, In p ps -> exists w, In (p, w) values.
Proof.
  induction values as [| [p0 w0] values IH]; intros ps.
  - cbn. intros [= <-] p [].
  - cbn [DataAggregator.majoritySources].
    destruct (DataAggregator.same_json stringify w0 v) as [same | err]; cbn [bindC];
      [| discriminate].
    destruct (DataAggregator.majoritySources stringify values v) as [ps0 | err];
      cbn [bindC]; [| discriminate].
    intros [= <-] p Hin.
    assert (Hrest : In p ps0 -> exists w, In (p, w) ((p0, w0) :: values)).
    { intros H. destruct (IH ps0 eq_refl p H) as [w Hw]. exists w. now right. }
    destruct same; [| now apply Hrest].
    destruct Hin as [<- | Hin]; [| now apply Hrest].
    exists w0. now left.
Qed.

Lemma or_else_cases x d : or_else x d = x \/ or_else x d = d.
Proof. unfold or_else. destruct (truthy x); auto. Qed.

(** A source of a field result is the provider of a supplied value, or
    "unknown". *)
Lemma aggregateField_sources f (es : list (DataAggregator.ProviderExecution Value)) s fr :
  DataAggregator.aggregateField stringify strict_eq f es s = Normal (Some fr) ->
  forall p, In p (DataAggregator.sources fr) ->
            p = "unknown" \/ exists v, In (p, v) (DataAggregator.fieldValues f es).
Proof.
  unfold DataAggregator.aggregateField.
  destruct (DataAggregator.fieldValues f es) as [| [p0 v0] [| pv1 rest]] eqn:Hv.
  - discriminate.
  - intros [= <-] p [<- | []]. destruct (or_else_cases p0 "unknown") as [-> | ->].
    + right. exists v0. now left.
    + now left.
  - set (values := (p0, v0) :: pv1 :: rest) in *.
    unfold DataAggregator.resolveFieldConflicts, DataAggregator.getUniqueValues.
    destruct (DataAggregator.getUniqueValues_from stringify JsMap.empty values)
      as [unique | err] eqn:Hu; cbn [bindC]; [| discriminate].
    assert (Hprio : forall r,
               DataAggregator.resolveBypriority strict_eq f values (JsMap.values unique)
               = Normal r ->
               forall p, In p (DataAggregator.sources r) ->
                         p = "unknown" \/ exists v, In (p, v) values).
    { unfold DataAggregator.resolveBypriority. subst values. cbn [snd fst].
      intros r [= <-] p [<- | []]. right. exists v0. now left. }
    assert (Hmaj : forall r,
               DataAggregator.resolveByMajority stringify strict_eq f values
                 (JsMap.values unique) = Normal r ->
               forall p, In p (DataAggregator.sources r) ->
                         p = "unknown" \/ exists v, In (p, v) values).
    { unfold DataAggregator.resolveByMajority.
      destruct (JsMap.values unique) as [| u0 us] eqn:Hus; [discriminate |].
      intros r.
      destruct (DataAggregator.majoritySources _ _ _) as [ps |] eqn:Hps; cbn [bindC];
        [| discriminate].
      intros [= <-] p Hin. cbn [DataAggregator.sources] in Hin. right.
      exact (majoritySources_In _ _ _ Hps p Hin). }
    assert (Hany : forall r,
               match DataAggregator.conflictResolution s with
               | DataAggregator.priority =>
                   DataAggregator.resolveBypriority strict_eq f values (JsMap.values unique)
               | DataAggregator.newest =>
                   DataAggregator.resolveByNewest strict_eq f values (JsMap.values unique)
               | DataAggregator.majority =>
                   DataAggregator.resolveByMajority stringify strict_eq f values
                     (JsMap.values unique)
               | DataAggregator.manual =>
                   DataAggregator.resolveBypriority strict_eq f values (JsMap.values unique)
               end = Normal r ->
               forall p, In p (DataAggregator.sources r) ->
                         p = "unknown" \/ exists v, In (p, v) values).
    { intros r. unfold DataAggregator.resolveByNewest.
      destruct (DataAggregator.conflictResolution s);
        [exact (Hprio r) | exact (Hprio r) | exact (Hmaj r) | exact (Hprio r)]. }
    clear Hprio Hmaj.
    destruct (JsMap.values unique) as [| u0 [| u1 us]] eqn:Hus.
    + destruct (DataAggregator.conflictResolution s);
        match goal with
        | |- bindC ?c _ = _ -> _ =>
            destruct c as [r |] eqn:Hr; cbn [bindC]; [| discriminate];
            intros [= <-]; now apply Hany
        end.
    + cbn [bindC]. intros [= <-] p Hin.
      change (In p (map (fun pv => or_else (fst pv) "unknown") values)) in Hin.
      apply in_map_iff in Hin. destruct Hin as ([q w] & E & Hin). cbn [fst] in E.
      destruct (or_else_cases q "unknown") as [E' | E']; rewrite E' in E; subst p.
      * right. now exists w.
      * now left.
    + destruct (DataAggregator.conflictResolution s);
        match goal with
        | |- bindC ?c _ = _ -> _ =>
            destruct c as [r |] eqn:Hr; cbn [bindC]; [| discriminate];
            intros [= <-]; now apply Hany
        end.
Qed.

(** *** The data object *)

Lemma buildData_fold_get f (results : JsMap.t (DataAggregator.FieldAggregationResult Value)) :
  forall d,
    NoDup (JsMap.keys results) ->
    JsMap.get f (fold_left (fun d fr => JsMap.set (fst fr) (DataAggregator.value (snd fr)) d)
                           results d)
    = match JsMap.get f results with
      | Some x => Some (DataAggregator.value x)
      | None => JsMap.get f d
      end.
Proof.
  induction results as [| [k x] results IH]; intros d Hnd; [reflexivity |].
  cbn [fold_left fst snd JsMap.get]. inversion Hnd as [| ? ? Hnot Hnd']; subst.
  rewrite (IH _ Hnd'). rewrite JsMap_get_set.
  destruct (f =? k)%string eqn:E.
  - apply String.eqb_eq in E. subst k. rewrite String.eqb_refl.
    destruct (JsMap.get f results) eqn:G; [| reflexivity].
    exfalso. apply Hnot. apply JsMap_get_In_keys. congruence.
  - rewrite String.eqb_sym, E. reflexivity.
Qed.

(** The properties of the object that [buildTokenData] and [buildWalletData]
    return. *)
Lemma buildData_property now name
    (results : JsMap.t (DataAggregator.FieldAggregationResult Value)) :
  NoDup (JsMap.keys results) ->
  DataAggregator.data_property name (DataAggregator.buildData now results)
  = if (name =? "dataSource")%string
    then Some (DataAggregator.SourceList
                 (dedup (flat_map (fun fr => DataAggregator.sources (snd fr)) results)))
    else if (name =? "lastUpdated")%string
    then Some (DataAggregator.Timestamp now)
    else option_map (fun x => DataAggregator.FieldValue (DataAggregator.value x))
           (JsMap.get name results).
Proof.
  intros Hnd. unfold DataAggregator.data_property, DataAggregator.buildData.
  cbn [DataAggregator.data_fields DataAggregator.dataSource DataAggregator.lastUpdated
       option_map].
  destruct (name =? "dataSource")%string eqn:E1; [reflexivity |].
  destruct (name =? "lastUpdated")%string eqn:E2; [reflexivity |].
  rewrite !JsMap_get_delete, (String.eqb_sym "lastUpdated"), E2,
    (String.eqb_sym "dataSource"), E1.
  rewrite buildData_fold_get by exact Hnd.
  now destruct (JsMap.get name results).
Qed.

Lemma includes_true_In x l : includes x l = true <-> In x l.
Proof. split; [apply includes_In | apply In_includes]. Qed.

(** X11.  Every property of the data of a response is accounted for.
    [dataSource] and [lastUpdated] are written by the aggregator itself, also
    when they are requested and a provider supplies them: the one lists
    providers with a successful execution (or "unknown"), the other is the
    time of the build.  Every other property is a requested field, and its
    value is one that a successful provider execution returned for that very
    field. *)
Theorem response_data_comes_from_providers requested s startTime
    (a : DataAggregator.t Value) run
    (executions : list (DataAggregator.ProviderExecution Value)) name x :
  let resp := fst (DataAggregator.respond stringify strict_eq requested s startTime a
                     (run, executions)) in
  DataAggregator.data_property name (DataAggregator.response_data resp) = Some x ->
  match x with
  | DataAggregator.FieldValue v =>
      name <> "dataSource" /\ name <> "lastUpdated"
      /\ In name requested
      /\ exists e, In e executions
                   /\ DataAggregator.success e = true
                   /\ DataAggregator.fieldValue name e = Some v
  | DataAggregator.SourceList l =>
      name = "dataSource"
      /\ forall p, In p l ->
                   p = "unknown"
                   \/ exists e, In e executions
                                /\ DataAggregator.success e = true
                                /\ DataAggregator.provider e = p
  | DataAggregator.Timestamp t =>
      name = "lastUpdated" /\ t = DataAggregator.clock run
  end.
Proof.
  unfold DataAggregator.respond, DataAggregator.aggregateFieldResults.
  destruct (DataAggregator.aggregateFieldResults_from stringify strict_eq JsMap.empty
              requested executions s) as [results | err] eqn:R;
    cbn [fst DataAggregator.response_data].
  2:{ unfold DataAggregator.data_property. cbn.
      destruct (name =? "dataSource")%string; [discriminate |].
      destruct (name =? "lastUpdated")%string; discriminate. }
  assert (Hnd : NoDup (JsMap.keys results)).
  { eapply aggregateFieldResults_from_NoDup; [exact R | constructor]. }
  rewrite (buildData_property _ _ _ Hnd).
  destruct (String.eqb_spec name "dataSource") as [-> | N1].
  { intros [= <-]. split; [reflexivity |]. intros p Hp.
    unfold dedup in Hp. apply dedup_from_In in Hp. destruct Hp as [Hp _].
    apply in_flat_map in Hp. destruct Hp as ([f fr] & Hin & Hp). cbn [snd] in Hp.
    pose proof (JsMap_In_get _ _ _ Hnd Hin) as G.
    rewrite (aggregateFieldResults_from_get f _ _ _ _ _ R) in G.
    destruct (includes f requested); [| discriminate G].
    destruct (DataAggregator.aggregateField stringify strict_eq f executions s)
      as [[fr' |] | err] eqn:A; try discriminate G.
    injection G as ->.
    destruct (aggregateField_sources _ _ _ _ A p Hp) as [-> | [v Hv]]; [now left |].
    right. apply fieldValues_In in Hv. destruct Hv as (e & He & Hpe & Hv).
    exists e. split; [exact He |]. split; [| exact Hpe].
    exact (fieldValue_success f e _ Hv). }
  destruct (String.eqb_spec name "lastUpdated") as [-> | N2].
  { intros [= <-]. split; reflexivity. }
  rewrite (aggregateFieldResults_from_get name _ _ _ _ _ R).
  destruct (includes name requested) eqn:I; [| discriminate].
  destruct (DataAggregator.aggregateField stringify strict_eq name executions s)
    as [[fr |] | err] eqn:A; cbn; try discriminate.
  intros [= <-]. split; [exact N1 |]. split; [exact N2 |].
  split; [now apply includes_In |].
  destruct (aggregateField_sound _ _ _ _ A) as (_ & p & Hin).
  apply fieldValues_In in Hin. destruct Hin as (e & Hin & _ & Hv).
  exists e. split; [exact Hin |]. split; [| exact Hv].
  now apply (fieldValue_success name e _ Hv).
Qed.

(** *** When the supplied values have a JSON text *)

Lemma getUniqueValues_from_total (values : list (string * Value)) :
  (forall pv, In pv values -> exists k, stringify (snd pv) = Normal k) ->
  forall unique,
    exists res, DataAggregator.getUniqueValues_from stringify unique values = Normal res.
Proof.
  induction values as [| [p v] values IH]; intros Hall unique.
  - eexists. reflexivity.
  - cbn [DataAggregator.getUniqueValues_from].
    destruct (Hall (p, v) (or_introl eq_refl)) as [k Hk]. cbn [snd] in Hk.
    rewrite Hk. cbn [bindC]. apply IH. intros pv Hpv. apply Hall. now right.
Qed.

Lemma majoritySources_total (values : list (string * Value)) v :
  (forall pv, In pv values -> exists k, stringify (snd pv) = Normal k) ->
  (exists k, stringify v = Normal k) ->
  exists ps, DataAggregator.majoritySources stringify values v = Normal ps.
Proof.
  intros Hall [k' Hv].
  induction values as [| [p w] values IH].
  - eexists. reflexivity.
  - cbn [DataAggregator.majoritySources]. unfold DataAggregator.same_json.
    destruct (Hall (p, w) (or_introl eq_refl)) as [k Hk]. cbn [snd] in Hk.
    rewrite Hk, Hv. cbn [bindC].
    destruct IH as [ps IH]; [intros pv Hpv; apply Hall; now right |].
    rewrite IH. cbn [bindC]. eexists. reflexivity.
Qed.

Lemma aggregateField_total f (es : list (DataAggregator.ProviderExecution Value)) s :
  (forall e v, In e es -> DataAggregator.fieldValue f e = Some v ->
               exists k, stringify v = Normal k) ->
  exists r, DataAggregator.aggregateField stringify strict_eq f es s = Normal r.
Proof.
  intros Hser.
  assert (Hall : forall pv, In pv (DataAggregator.fieldValues f es) ->
                            exists k, stringify (snd pv) = Normal k).
  { intros [p v] Hin. apply fieldValues_In in Hin. destruct Hin as (e & He & _ & Hv).
    exact (Hser e v He Hv). }
  clear Hser. unfold DataAggregator.aggregateField.
  destruct (DataAggregator.fieldValues f es) as [| [p0 v0] [| pv1 rest]];
    try (eexists; reflexivity).
  set (values := (p0, v0) :: pv1 :: rest) in *.
  unfold DataAggregator.resolveFieldConflicts, DataAggregator.getUniqueValues.
  destruct (getUniqueValues_from_total values Hall JsMap.empty) as [unique Hu].
  rewrite Hu. cbn [bindC].
  assert (Hne : unique <> []).
  { eapply getUniqueValues_from_not_nil; [exact Hu |]. right. discriminate. }
  assert (Hsound : forall u, In u (JsMap.values unique) ->
                     In (DataAggregator.uv_provider u, DataAggregator.uv_value u) values).
  { eapply getUniqueValues_from_sound; [exact Hu | intros u [] | auto]. }
  assert (Hprio : exists r,
             DataAggregator.resolveBypriority strict_eq f values (JsMap.values unique)
             = Normal r) by (eexists; reflexivity).
  assert (Hmaj : exists r,
             DataAggregator.resolveByMajority stringify strict_eq f values
               (JsMap.values unique) = Normal r).
  { unfold DataAggregator.resolveByMajority.
    destruct (JsMap.values unique) as [| u0 us] eqn:Hus.
    - destruct unique; [congruence | discriminate Hus].
    - set (m := fold_left (fun mx cur =>
                             if DataAggregator.count mx <? DataAggregator.count cur
                             then cur else mx) us u0).
      assert (Hm : In m (u0 :: us)) by apply fold_max_In.
      destruct (majoritySources_total values (DataAggregator.uv_value m) Hall)
        as [ps Hps].
      { exact (Hall _ (Hsound m Hm)). }
      rewrite Hps. cbn [bindC]. eexists. reflexivity. }
  clear Hsound.
  destruct (JsMap.values unique) as [| u0 [| u1 us]];
    try (cbn [bindC]; eexists; reflexivity);
    unfold DataAggregator.resolveByNewest;
    destruct (DataAggregator.conflictResolution s);
    try (destruct Hprio as [r ->]; cbn [bindC]; eexists; reflexivity);
    destruct Hmaj as [r ->]; cbn [bindC]; eexists; reflexivity.
Qed.

Lemma aggregateFieldResults_from_total requested
    (es : list (DataAggregator.ProviderExecution Value)) s :
  (forall f e v, In f requested -> In e es -> DataAggregator.fieldValue f e = Some v ->
                 exists k, stringify v = Normal k) ->
  forall results,
    exists res,
      DataAggregator.aggregateFieldResults_from stringify strict_eq results requested es s
      = Normal res.
Proof.
  induction requested as [| f requested IH]; intros Hser results.
  - eexists. reflexivity.
  - cbn [DataAggregator.aggregateFieldResults_from].
    destruct (aggregateField_total f es s) as [r ->].
    { intros e v. apply Hser. now left. }
    cbn [bindC]. apply IH. intros f' e v Hf. apply Hser. now right.
Qed.

(** X12.  When every value that an execution supplies for a requested field has a
    JSON text, the aggregation step completes: the error list is the list of
    the provider errors, and the data has exactly the properties [dataSource]
    and [lastUpdated] and the requested fields that some successful execution
    supplies. *)
Theorem supplied_fields_are_answered requested s startTime
    (a : DataAggregator.t Value) run
    (executions : list (DataAggregator.ProviderExecution Value)) :
  (forall f e v,
     In f requested -> In e executions -> DataAggregator.fieldValue f e = Some v ->
     exists k, stringify v = Normal k) ->
  let resp := fst (DataAggregator.respond stringify strict_eq requested s startTime a
                     (run, executions)) in
  DataAggregator.errors resp = DataAggregator.extractErrors executions
  /\ forall name,
       DataAggregator.data_property name (DataAggregator.response_data resp) <> None
       <-> name = "dataSource" \/ name = "lastUpdated"
           \/ (In name requested
               /\ exists e, In e executions
                            /\ DataAggregator.fieldValue name e <> None).
Proof.
  intros Hser.
  unfold DataAggregator.respond, DataAggregator.aggregateFieldResults.
  destruct (aggregateFieldResults_from_total requested executions s Hser JsMap.empty)
    as [results R].
  rewrite R. cbn [fst DataAggregator.response_data DataAggregator.errors].
  split; [reflexivity |]. intros name.
  rewrite buildData_property
    by (eapply aggregateFieldResults_from_NoDup; [exact R | constructor]).
  destruct (String.eqb_spec name "dataSource") as [-> | N1];
    [split; [intros _; now left | discriminate] |].
  destruct (String.eqb_spec name "lastUpdated") as [-> | N2];
    [split; [intros _; right; now left | discriminate] |].
  rewrite (aggregateFieldResults_from_get name _ _ _ _ _ R).
  destruct (includes name requested) eqn:I.
  - assert (Hin : In name requested) by now apply includes_In.
    destruct (aggregateField_total name executions s) as [r A].
    { intros e v. now apply Hser. }
    rewrite A. destruct r as [fr |]; cbn.
    + split; [intros _ | discriminate]. right. right. split; [exact Hin |].
      destruct (aggregateField_sound _ _ _ _ A) as (_ & p & Hp).
      apply fieldValues_In in Hp. destruct Hp as (e & He & _ & Hv).
      exists e. split; [exact He | congruence].
    + split; [congruence |]. intros [E | [E | (_ & e & He & Hv)]]; try contradiction.
      apply aggregateField_none in A. rewrite fieldValues_nil in A.
      now specialize (A e He).
  - cbn. split; [congruence |].
    intros [E | [E | (Hin & _)]]; try contradiction.
    apply In_includes in Hin. congruence.
Qed.

(** *** Providers that agree *)

Lemma getUniqueValues_from_cons unique p v (rest : list (string * Value)) :
  DataAggregator.getUniqueValues_from stringify unique ((p, v) :: rest)
  = bindC (stringify v) (fun k =>
      DataAggregator.getUniqueValues_from stringify
        (match JsMap.get k unique with
         | Some u =>
             JsMap.update k (fun u => DataAggregator.mkUnique (DataAggregator.uv_provider u)
                                        (DataAggregator.uv_value u)
                                        (DataAggregator.count u + 1)) unique
         | None => JsMap.set k (DataAggregator.mkUnique p v 1) unique
         end)
        rest).
Proof. reflexivity. Qed.

Lemma getUniqueValues_from_agree k (values : list (string * Value)) :
  (forall pv, In pv values -> stringify (snd pv) = Normal k) ->
  forall u,
    exists n,
      DataAggregator.getUniqueValues_from stringify [(k, u)] values
      = Normal [(k, DataAggregator.mkUnique (DataAggregator.uv_provider u)
                      (DataAggregator.uv_value u) n)].
Proof.
  induction values as [| [p v] values IH]; intros Hall u.
  - exists (DataAggregator.count u). now destruct u.
  - rewrite getUniqueValues_from_cons.
    pose proof (Hall (p, v) (or_introl eq_refl)) as Hs. cbn [snd] in Hs.
    rewrite Hs. cbn [bindC JsMap.get].
    rewrite String.eqb_refl. cbn [JsMap.update map fst snd]. rewrite String.eqb_refl.
    destruct (IH (fun pv H => Hall pv (or_intror H))
                (DataAggregator.mkUnique (DataAggregator.uv_provider u)
                   (DataAggregator.uv_value u) (DataAggregator.count u + 1)))
      as [n Hn].
    exists n. exact Hn.
Qed.

(** X13.  When two or more successful executions supply a field and all the values have the same
    JSON text, the field resolves to the first supplied value with confidence 1, every
    supplying provider as a source and no conflict, whatever the resolution strategy. *)
Theorem agreeing_providers_resolve_with_full_confidence f
    (es : list (DataAggregator.ProviderExecution Value)) s k p0 v0 pv1 rest :
  DataAggregator.fieldValues f es = (p0, v0) :: pv1 :: rest ->
  (forall pv, In pv ((p0, v0) :: pv1 :: rest) -> stringify (snd pv) = Normal k) ->
  DataAggregator.aggregateField stringify strict_eq f es s
  = Normal (Some (DataAggregator.mkResult f v0
                    (map (fun pv => or_else (fst pv) "unknown") ((p0, v0) :: pv1 :: rest))
                    1 None)).
Proof.
  intros Hv Hall. unfold DataAggregator.aggregateField. rewrite Hv.
  unfold DataAggregator.resolveFieldConflicts, DataAggregator.getUniqueValues.
  rewrite getUniqueValues_from_cons.
  pose proof (Hall (p0, v0) (or_introl eq_refl)) as Hs. cbn [snd] in Hs.
  rewrite Hs. cbn [bindC JsMap.get JsMap.empty JsMap.set].
  destruct (getUniqueValues_from_agree k (pv1 :: rest)
              (fun pv H => Hall pv (or_intror H)) (DataAggregator.mkUnique p0 v0 1))
    as [n Hn].
  rewrite Hn. reflexivity.
Qed.

(** *** The confidence of a result *)

Lemma sum_counts_update k (m : JsMap.t (DataAggregator.UniqueValue Value)) u :
  NoDup (JsMap.keys m) ->
  JsMap.get k m = Some u ->
  count_sum (JsMap.values
               (JsMap.update k (fun u => DataAggregator.mkUnique
                                           (DataAggregator.uv_provider u)
                                           (DataAggregator.uv_value u)
                                           (DataAggregator.count u + 1)) m))
  = count_sum (JsMap.values m) + 1.
Proof.
  unfold count_sum, JsMap.values, JsMap.keys, JsMap.update.
  induction m as [| [k0 u0] m IH]; cbn; [discriminate |].
  intros Hnd. inversion Hnd as [| ? ? Hnot Hnd']; subst.
  destruct (k =? k0)%string eqn:E.
  - intros _. cbn.
    assert (Hsame : map (fun kv => if (k =? fst kv)%string
                                   then (fst kv,
                                         DataAggregator.mkUnique
                                           (DataAggregator.uv_provider (snd kv))
                                           (DataAggregator.uv_value (snd kv))
                                           (DataAggregator.count (snd kv) + 1))
                                   else kv) m = m).
    { apply String.eqb_eq in E. subst k0.
      rewrite <- (map_id m) at 2. apply map_ext_in. intros [k1 u1] Hin. cbn.
      destruct (k =? k1)%string eqn:E1; [| reflexivity].
      apply String.eqb_eq in E1. subst k1. exfalso. apply Hnot.
      change k with (fst (k, u1)). now apply in_map. }
    rewrite Hsame. lia.
  - intros G. cbn. rewrite (IH Hnd' G). lia.
Qed.

Lemma sum_counts_set k (m : JsMap.t (DataAggregator.UniqueValue Value)) u :
  JsMap.get k m = None ->
  count_sum (JsMap.values (JsMap.set k u m))
  = count_sum (JsMap.values m) + DataAggregator.count u.
Proof.
  unfold count_sum, JsMap.values.
  induction m as [| [k0 u0] m IH]; cbn; [lia |].
  destruct (k =? k0)%string; [discriminate |].
  intros G. cbn. rewrite (IH G). lia.
Qed.

Lemma getUniqueValues_from_counts values :
  forall unique res,
    DataAggregator.getUniqueValues_from stringify unique values = Normal res ->
    NoDup (JsMap.keys unique) ->
    (forall u, In u (JsMap.values unique) -> 1 <= DataAggregator.count u) ->
    (forall u, In u (JsMap.values res) -> 1 <= DataAggregator.count u)
    /\ count_sum (JsMap.values res)
       = count_sum (JsMap.values unique) + Z.of_nat (List.length values).
Proof.
  induction values as [| [p v] values IH]; intros unique res.
  - cbn. intros [= <-] _ H. split; [exact H | lia].
  - cbn [DataAggregator.getUniqueValues_from].
    destruct (stringify v) as [k | err]; cbn [bindC]; [| discriminate].
    intros Hres Hnd Hc.
    destruct (JsMap.get k unique) as [u1 |] eqn:G.
    + destruct (IH _ _ Hres) as [H1 H2].
      * now rewrite JsMap_keys_update.
      * intros u Hin. apply values_update_In in Hin.
        destruct Hin as (u0 & Hin & [-> | ->]); [now apply Hc |].
        cbn. specialize (Hc u0 Hin). lia.
      * split; [exact H1 |]. rewrite H2, (sum_counts_update k unique u1 Hnd G).
        cbn [List.length]. lia.
    + destruct (IH _ _ Hres) as [H1 H2].
      * now apply JsMap_NoDup_set.
      * intros u Hin. apply values_set_In in Hin.
        destruct Hin as [-> | Hin]; [cbn; lia | now apply Hc].
      * split; [exact H1 |]. rewrite H2, (sum_counts_set k unique _ G).
        cbn [List.length DataAggregator.count]. lia.
Qed.

Lemma count_le_sum (us : list (DataAggregator.UniqueValue Value)) u :
  (forall x, In x us -> 1 <= DataAggregator.count x) ->
  In u us -> DataAggregator.count u <= count_sum us.
Proof.
  unfold count_sum. induction us as [| x us IH]; [intros _ [] |].
  intros Hc [<- | Hin]; cbn.
  - assert (0 <= fold_right Z.add 0 (map (@DataAggregator.count Value) us)).
    { clear IH. induction us as [| y us IH]; cbn; [lia |].
      pose proof (Hc y (or_intror (or_introl eq_refl))).
      assert (0 <= fold_right Z.add 0 (map (@DataAggregator.count Value) us)).
      { apply IH. intros z [<- | Hz]; apply Hc; [now left | right; now right]. }
      lia. }
    lia.
  - pose proof (Hc x (or_introl eq_refl)).
    specialize (IH (fun z Hz => Hc z (or_intror Hz)) Hin). lia.
Qed.

(** X14.  The confidence of every field result lies in (0, 1]. *)
Theorem field_confidence_within_unit_interval f
    (es : list (DataAggregator.ProviderExecution Value)) s fr :
  DataAggregator.aggregateField stringify strict_eq f es s = Normal (Some fr) ->
  (0 < DataAggregator.confidence fr <= 1)%Q.
Proof.
  unfold DataAggregator.aggregateField.
  destruct (DataAggregator.fieldValues f es) as [| [p0 v0] [| pv1 rest]] eqn:Hv.
  - discriminate.
  - intros [= <-]. cbn. split; [reflexivity | apply Qle_refl].
  - set (values := (p0, v0) :: pv1 :: rest) in *.
    unfold DataAggregator.resolveFieldConflicts, DataAggregator.getUniqueValues.
    destruct (DataAggregator.getUniqueValues_from stringify JsMap.empty values)
      as [unique | err] eqn:Hu; cbn [bindC]; [| discriminate].
    destruct (getUniqueValues_from_counts values JsMap.empty unique Hu)
      as [Hc Hsum]; [constructor | intros u [] |].
    change (count_sum (JsMap.values JsMap.empty)) with 0 in Hsum.
    assert (Hprio : forall r,
               DataAggregator.resolveBypriority strict_eq f values (JsMap.values unique)
               = Normal r ->
               (0 < DataAggregator.confidence r <= 1)%Q).
    { unfold DataAggregator.resolveBypriority. subst values.
      intros r [= <-]. cbn. split; [reflexivity | discriminate]. }
    assert (Hmaj : forall r,
               DataAggregator.resolveByMajority stringify strict_eq f values
                 (JsMap.values unique) = Normal r ->
               (0 < DataAggregator.confidence r <= 1)%Q).
    { unfold DataAggregator.resolveByMajority.
      destruct (JsMap.values unique) as [| u0 us] eqn:Hus; [discriminate |].
      intros r. destruct (DataAggregator.majoritySources _ _ _); cbn [bindC];
        [| discriminate].
      intros [= <-].
      set (m := fold_left (fun mx cur =>
                             if DataAggregator.count mx <? DataAggregator.count cur
                             then cur else mx) us u0).
      change (0 < inject_Z (DataAggregator.count m)
                  / inject_Z (Z.of_nat (List.length values)) <= 1)%Q.
      assert (Hm : In m (u0 :: us)) by apply fold_max_In.
      pose proof (Hc m Hm) as H1.
      pose proof (count_le_sum (u0 :: us) m Hc Hm) as H2.
      rewrite Hsum in H2.
      set (L := Z.of_nat (List.length values)) in *. clearbody L.
      assert (Hq : (0 < inject_Z L)%Q) by (unfold Qlt; cbn; lia).
      split.
      - apply Qlt_shift_div_l; [exact Hq |]. rewrite Qmult_0_l.
        unfold Qlt; cbn; lia.
      - apply Qle_shift_div_r; [exact Hq |]. rewrite Qmult_1_l.
        rewrite <- Zle_Qle. lia. }
    assert (Hany : forall r,
               match DataAggregator.conflictResolution s with
               | DataAggregator.priority =>
                   DataAggregator.resolveBypriority strict_eq f values (JsMap.values unique)
               | DataAggregator.newest =>
                   DataAggregator.resolveByNewest strict_eq f values (JsMap.values unique)
               | DataAggregator.majority =>
                   DataAggregator.resolveByMajority stringify strict_eq f values
                     (JsMap.values unique)
               | DataAggregator.manual =>
                   DataAggregator.resolveBypriority strict_eq f values (JsMap.values unique)
               end = Normal r ->
               (0 < DataAggregator.confidence r <= 1)%Q).
    { intros r. unfold DataAggregator.resolveByNewest.
      destruct (DataAggregator.conflictResolution s); auto. }
    clear Hprio Hmaj Hc Hsum.
    destruct (JsMap.values unique) as [| u0 [| u1 us]] eqn:Hus.
    + destruct (DataAggregator.conflictResolution s);
        match goal with
        | |- bindC ?c _ = _ -> _ =>
            destruct c as [r |] eqn:Hr; cbn [bindC]; [| discriminate];
            intros [= <-]; now apply Hany
        end.
    + cbn [bindC]. intros [= <-]. cbn. split; [reflexivity | apply Qle_refl].
    + destruct (DataAggregator.conflictResolution s);
        match goal with
        | |- bindC ?c _ = _ -> _ =>
            destruct c as [r |] eqn:Hr; cbn [bindC]; [| discriminate];
            intros [= <-]; now apply Hany
        end.
Qed.

End AggregationProps.

Lemma response_data_comes_from_providers_witness :
  "price" <> "dataSource" /\ "price" <> "lastUpdated"
  /\ In "price" ["price"; "holders"]
  /\ exists e, In e price_executions
               /\ DataAggregator.success e = true
               /\ DataAggregator.fieldValue "price" e = Some (Json "0.46").
Proof.
  apply (response_data_comes_from_providers prim_stringify prim_strict_eq
           ["price"; "holders"] by_priority 1000 price_aggregator
           (DataAggregator.mkRun (DataAggregator.fieldRouter price_aggregator) 2 1030)
           price_executions "price" (DataAggregator.FieldValue (Json "0.46"))).
  reflexivity.
Defined.

(** A provider answers the requested [lastUpdated]; the response carries the
    time of the build under that name, not the provider's value. *)
Example requested_lastUpdated_is_overwritten :
  let resp := fst (DataAggregator.respond prim_stringify prim_strict_eq
                     ["decimals"; "lastUpdated"] by_priority 1000
                     (DataAggregator.new 0 [] [])
                     (DataAggregator.mkRun (FieldRouter.new 0 [] []) 1 1040,
                      dated_executions)) in
  map (DataAggregator.fieldValue "lastUpdated") dated_executions
  = [Some (Json "1704067200000")]
  /\ DataAggregator.data_property "lastUpdated" (DataAggregator.response_data resp)
     = Some (DataAggregator.Timestamp 1040)
  /\ DataAggregator.data_property "decimals" (DataAggregator.response_data resp)
     = Some (DataAggregator.FieldValue (Json "6"))
  /\ DataAggregator.data_property "dataSource" (DataAggregator.response_data resp)
     = Some (DataAggregator.SourceList ["blockfrost"]).
Proof. vm_compute. repeat split. Qed.

Lemma supplied_fields_are_answered_witness :
  let resp := fst (DataAggregator.respond text_stringify String.eqb
                     ["price"; "holders"; "marketCap"] by_majority 1000
                     (DataAggregator.new 0 [] [])
                     (DataAggregator.mkRun (FieldRouter.new 0 [] []) 3 1040,
                      agreeing_executions)) in
  DataAggregator.errors resp = DataAggregator.extractErrors agreeing_executions
  /\ forall name,
       DataAggregator.data_property name (DataAggregator.response_data resp) <> None
       <-> name = "dataSource" \/ name = "lastUpdated"
           \/ (In name ["price"; "holders"; "marketCap"]
               /\ exists e, In e agreeing_executions
                            /\ DataAggregator.fieldValue name e <> None).
Proof.
  apply (supplied_fields_are_answered text_stringify String.eqb).
  intros f e v _ _ _. exists v. reflexivity.
Defined.

Lemma agreeing_providers_resolve_with_full_confidence_witness :
  DataAggregator.aggregateField text_stringify String.eqb "price" agreeing_executions
    by_majority
  = Normal (Some (DataAggregator.mkResult "price" "0.45" ["taptools"; "coingecko"] 1 None)).
Proof.
  apply (agreeing_providers_resolve_with_full_confidence text_stringify String.eqb
           "price" agreeing_executions by_majority "0.45"
           "taptools" "0.45" ("coingecko", "0.45") []).
  - reflexivity.
  - intros pv [<- | [<- | []]]; reflexivity.
Defined.

Lemma field_confidence_within_unit_interval_witness :
  exists fr,
    DataAggregator.aggregateField prim_stringify prim_strict_eq "price" price_executions
      by_majority = Normal (Some fr)
    /\ DataAggregator.value fr = Json "0.46"
    /\ (0 < DataAggregator.confidence fr <= 1)%Q.
Proof.
  eexists. split; [reflexivity |]. split; [reflexivity |].
  apply (field_confidence_within_unit_interval prim_stringify prim_strict_eq
           "price" price_executions by_majority).
  reflexivity.
Defined.

(** ** Data aggregator: the provider calls of a request *)

Section ExecutionProps.
Context {Value : Type}.
Implicit Types e : DataAggregator.ProviderExecution Value.

(** X15.  The [dataSources] of the response metadata name every provider with a successful
    execution, each once, and nobody else. *)
Theorem metadata_sources_are_the_successful_providers
    (executions : list (DataAggregator.ProviderExecution Value)) startTime now :
  let md := DataAggregator.buildResponseMetadata executions startTime now in
  NoDup (DataAggregator.dataSources md)
  /\ forall p,
       In p (DataAggregator.dataSources md)
       <-> exists e, In e executions
                     /\ DataAggregator.success e = true
                     /\ DataAggregator.provider e = p.
Proof.
  cbn [DataAggregator.buildResponseMetadata DataAggregator.dataSources]. unfold dedup.
  split; [apply dedup_from_NoDup |].
  intros p. rewrite dedup_from_In, in_map_iff. split.
  - intros [(e & Hp & Hin) _]. apply filter_In in Hin. exists e. tauto.
  - intros (e & Hin & Hs & Hp). split; [| intros []].
    exists e. split; [exact Hp |]. apply filter_In. tauto.
Qed.

(** *** The fallback walk *)

(** X16.  The walk down the fallback list of a field issues at most one call per listed
    provider; an execution it returns is a success of a registered provider taken from the
    list, one that had no successful execution in the parallel phase, and it provides that
    field alone. *)
Theorem fallback_execution_is_a_fresh_success
    (method : DataAggregator.Method) id o
    (providersMap : JsMap.t (Provider.DataProvider Value))
    (executions : list (DataAggregator.ProviderExecution Value)) f fallbacks :
  forall run,
    let res := DataAggregator.tryFallbacks method id o providersMap executions f
                 fallbacks run in
    (DataAggregator.calls run <= DataAggregator.calls (fst res)
     <= DataAggregator.calls run + List.length fallbacks)%nat
    /\ match snd res with
       | Some e =>
           DataAggregator.success e = true
           /\ In (DataAggregator.provider e) fallbacks
           /\ JsMap.has (DataAggregator.provider e) providersMap = true
           /\ DataAggregator.fieldsProvided e = [f]
           /\ forall e0, In e0 executions ->
                         DataAggregator.provider e0 = DataAggregator.provider e ->
                         DataAggregator.success e0 = false
       | None => True
       end.
Proof.
  induction fallbacks as [| fb rest IH]; intros run.
  - cbn. split; [lia | exact I].
  - cbn [DataAggregator.tryFallbacks].
    assert (Hkeep : forall run',
               (DataAggregator.calls run <= DataAggregator.calls run' <= S (DataAggregator.calls run))%nat ->
               let res := DataAggregator.tryFallbacks method id o providersMap executions
                            f rest run' in
               (DataAggregator.calls run <= DataAggregator.calls (fst res)
                <= DataAggregator.calls run + List.length (fb :: rest))%nat
               /\ match snd res with
                  | Some e =>
                      DataAggregator.success e = true
                      /\ In (DataAggregator.provider e) (fb :: rest)
                      /\ JsMap.has (DataAggregator.provider e) providersMap = true
                      /\ DataAggregator.fieldsProvided e = [f]
                      /\ forall e0, In e0 executions ->
                                    DataAggregator.provider e0 = DataAggregator.provider e ->
                                    DataAggregator.success e0 = false
                  | None => True
                  end).
    { intros run' Hc. destruct (IH run') as [H1 H2]. cbv zeta. split.
      - cbn [List.length]. lia.
      - destruct (snd (DataAggregator.tryFallbacks method id o providersMap executions
                         f rest run')) as [e |]; [| exact I].
        destruct H2 as (A & B & C & D & E). repeat split; auto. now right. }
    destruct (JsMap.get fb providersMap) as [p |] eqn:G.
    + destruct (existsb _ executions) eqn:Ex.
      * apply Hkeep. lia.
      * destruct (DataAggregator.race _ _) as [outcome elapsed].
        destruct outcome as [resp | err].
        -- destruct (Provider.success resp) eqn:S.
           ++ cbn [fst snd DataAggregator.calls DataAggregator.success
                   DataAggregator.provider DataAggregator.fieldsProvided List.length].
              split; [lia |]. split; [reflexivity |]. split; [now left |].
              split; [unfold JsMap.has; now rewrite G |]. split; [reflexivity |].
              intros e0 Hin Hp.
              destruct (DataAggregator.success e0) eqn:S0; [| reflexivity].
              exfalso. rewrite <- Bool.not_true_iff_false in Ex. apply Ex.
              apply existsb_exists. exists e0. split; [exact Hin |].
              rewrite Hp, String.eqb_refl, S0. reflexivity.
           ++ apply Hkeep. cbn. lia.
        -- apply Hkeep. cbn. lia.
    + apply Hkeep. lia.
Qed.

(** *** The parallel phase *)

Lemma executeAll_providers (method : DataAggregator.Method) id o
    (providersMap : JsMap.t (Provider.DataProvider Value)) start requests :
  forall st,
    let res := DataAggregator.executeAll method id o providersMap start requests st in
    map (@DataAggregator.provider Value) (snd res) = JsMap.keys requests
    /\ (snd st <= snd (fst res) <= snd st + List.length requests)%nat.
Proof.
  induction requests as [| [pn fs] requests IH]; intros st.
  - cbn. split; [reflexivity | lia].
  - cbn [DataAggregator.executeAll].
    destruct (DataAggregator.executePrimary method id o providersMap start (pn, fs) st)
      as [[r n] e] eqn:E.
    specialize (IH (r, n)). cbv zeta in IH.
    destruct (DataAggregator.executeAll method id o providersMap start requests (r, n))
      as [[r' n'] es].
    cbn [fst snd] in IH |- *. destruct IH as [IH1 IH2].
    assert (He : DataAggregator.provider e = pn /\ (snd st <= n <= S (snd st))%nat).
    { unfold DataAggregator.executePrimary in E. destruct st as [r0 n0].
      destruct (JsMap.get pn providersMap) as [p |].
      - destruct (DataAggregator.race _ _) as [outcome elapsed].
        destruct outcome as [resp | err].
        + injection E as <- <- <-. cbn [snd]. split; [| lia].
          now destruct (Provider.success resp).
        + injection E as <- <- <-. cbn. split; [reflexivity | lia].
      - injection E as <- <- <-. cbn. split; [reflexivity | lia]. }
    destruct He as [He1 He2]. cbn [map JsMap.keys fst List.length].
    split; [now rewrite He1, IH1 | lia].
Qed.

Lemma groupByPrimary_fold (plan : JsMap.t FieldRouter.RoutingPlan) :
  forall reqs : JsMap.t (list string),
    NoDup (JsMap.keys reqs) ->
    let res :=
      fold_left
        (fun reqs fp =>
           let p := FieldRouter.plan_provider (snd fp) in
           let reqs := if JsMap.has p reqs then reqs else JsMap.set p [] reqs in
           JsMap.update p (fun l => (l ++ [fst fp])%list) reqs)
        plan reqs in
    NoDup (JsMap.keys res)
    /\ (forall p l f, JsMap.get p reqs = Some l -> In f l ->
                      exists l', JsMap.get p res = Some l' /\ In f l')
    /\ (forall f rp, In (f, rp) plan ->
                     exists l', JsMap.get (FieldRouter.plan_provider rp) res = Some l'
                                /\ In f l')
    /\ (forall p, In p (JsMap.keys res) ->
                  In p (JsMap.keys reqs)
                  \/ exists f rp, In (f, rp) plan /\ FieldRouter.plan_provider rp = p).
Proof.
  induction plan as [| [f0 rp0] plan IH]; intros reqs Hnd.
  - cbn. split; [exact Hnd |]. split; [| split].
    + intros p l f G Hin. now exists l.
    + intros f rp [].
    + intros p Hp. now left.
  - cbn [fold_left fst snd].
    set (p0 := FieldRouter.plan_provider rp0).
    set (reqs1 := if JsMap.has p0 reqs then reqs else JsMap.set p0 [] reqs).
    set (reqs2 := JsMap.update p0 (fun l => (l ++ [f0])%list) reqs1).
    assert (Hnd1 : NoDup (JsMap.keys reqs1)).
    { subst reqs1. destruct (JsMap.has p0 reqs); [exact Hnd | now apply JsMap_NoDup_set]. }
    assert (Hnd2 : NoDup (JsMap.keys reqs2)).
    { subst reqs2. now rewrite JsMap_keys_update. }
    assert (Hmono : forall p l f, JsMap.get p reqs = Some l -> In f l ->
                                  exists l', JsMap.get p reqs2 = Some l' /\ In f l').
    { intros p l f G Hin. subst reqs2. rewrite JsMap_get_update.
      assert (G1 : JsMap.get p reqs1 = Some l).
      { subst reqs1. unfold JsMap.has.
        destruct (JsMap.get p0 reqs) eqn:G0; [exact G |].
        rewrite JsMap_get_set. destruct (p0 =? p)%string eqn:E; [| exact G].
        apply String.eqb_eq in E. congruence. }
      rewrite G1. destruct (p0 =? p)%string; cbn [option_map].
      - eexists. split; [reflexivity |]. apply in_or_app. now left.
      - now exists l. }
    assert (Hnew : exists l', JsMap.get p0 reqs2 = Some l' /\ In f0 l').
    { subst reqs2. rewrite JsMap_get_update, String.eqb_refl.
      assert (G1 : exists l, JsMap.get p0 reqs1 = Some l).
      { subst reqs1. unfold JsMap.has.
        destruct (JsMap.get p0 reqs) as [l0 |] eqn:G0; [exists l0; exact G0 |].
        rewrite JsMap_get_set_same. now eexists. }
      destruct G1 as [l ->]. cbn [option_map]. eexists. split; [reflexivity |].
      apply in_or_app. right. now left. }
    assert (Hkeys : forall p, In p (JsMap.keys reqs2) -> In p (JsMap.keys reqs) \/ p = p0).
    { intros p Hp. subst reqs2. rewrite JsMap_keys_update in Hp. subst reqs1.
      destruct (JsMap.has p0 reqs) eqn:Hh; [now left |].
      rewrite JsMap_keys_set, Hh in Hp. apply in_app_or in Hp.
      destruct Hp as [Hp | [<- | []]]; auto. }
    destruct (IH reqs2 Hnd2) as (I1 & I2 & I3 & I4). cbv zeta in I1, I2, I3, I4 |- *.
    split; [exact I1 |]. split; [| split].
    + intros p l f G Hin. destruct (Hmono p l f G Hin) as (l' & G' & Hin').
      exact (I2 p l' f G' Hin').
    + intros f rp [[= <- <-] | Hin].
      * destruct Hnew as (l' & G' & Hin'). exact (I2 p0 l' f0 G' Hin').
      * now apply I3.
    + intros p Hp. destruct (I4 p Hp) as [H | (f & rp & Hin & E)].
      * destruct (Hkeys p H) as [H' | ->]; [now left |].
        right. exists f0, rp0. split; [now left | reflexivity].
      * right. exists f, rp. split; [now right | exact E].
Qed.

Lemma executeAll_fields (method : DataAggregator.Method) id o
    (providersMap : JsMap.t (Provider.DataProvider Value)) start requests :
  forall st e,
    In e (snd (DataAggregator.executeAll method id o providersMap start requests st)) ->
    DataAggregator.success e = true ->
    In (DataAggregator.provider e, DataAggregator.fieldsProvided e) requests.
Proof.
  induction requests as [| [pn fs] requests IH]; intros st e; [intros [] |].
  cbn [DataAggregator.executeAll].
  destruct (DataAggregator.executePrimary method id o providersMap start (pn, fs) st)
    as [[r n] e0] eqn:E.
  specialize (IH (r, n) e).
  destruct (DataAggregator.executeAll method id o providersMap start requests (r, n))
    as [[r' n'] es].
  cbn [snd] in IH |- *. intros [<- | Hin] Hs; [| right; now apply IH].
  left. unfold DataAggregator.executePrimary in E. destruct st as [r0 n0].
  destruct (JsMap.get pn providersMap) as [p |].
  - destruct (DataAggregator.race _ _) as [outcome elapsed].
    destruct outcome as [resp | err].
    + injection E as <- <- <-. destruct (Provider.success resp); [reflexivity |].
      discriminate Hs.
    + injection E as <- <- <-. discriminate Hs.
  - injection E as <- <- <-. discriminate Hs.
Qed.

(** The providers of the grouped requests are the primary providers of the
    plan, each once, in the order in which the plan first names them. *)
Lemma groupByPrimary_keys_from (plan : JsMap.t FieldRouter.RoutingPlan) :
  forall reqs : JsMap.t (list string),
    JsMap.keys
      (fold_left
         (fun reqs fp =>
            let p := FieldRouter.plan_provider (snd fp) in
            let reqs := if JsMap.has p reqs then reqs else JsMap.set p [] reqs in
            JsMap.update p (fun l => (l ++ [fst fp])%list) reqs)
         plan reqs)
    = (JsMap.keys reqs
       ++ dedup_from (JsMap.keys reqs)
            (map (fun fp => FieldRouter.plan_provider (snd fp)) plan))%list.
Proof.
  induction plan as [| [f0 rp0] plan IH]; intros reqs.
  - cbn. now rewrite app_nil_r.
  - cbn [fold_left map fst snd dedup_from]. rewrite IH, JsMap_keys_update.
    destruct (JsMap.has (FieldRouter.plan_provider rp0) reqs) eqn:Hh.
    + assert (I : includes (FieldRouter.plan_provider rp0) (JsMap.keys reqs) = true).
      { apply In_includes. now apply JsMap_has_In_keys. }
      now rewrite I.
    + assert (I : includes (FieldRouter.plan_provider rp0) (JsMap.keys reqs) = false).
      { destruct (includes _ _) eqn:I; [| reflexivity].
        apply includes_In, JsMap_has_In_keys in I. congruence. }
      rewrite I, JsMap_keys_set, Hh, <- app_assoc. cbn [app]. do 2 f_equal.
      apply dedup_from_ext. intros x. rewrite in_app_iff. cbn [In]. tauto.
Qed.

Lemma groupByPrimary_keys (plan : JsMap.t FieldRouter.RoutingPlan) :
  JsMap.keys (DataAggregator.groupByPrimary plan)
  = dedup (map (fun fp => FieldRouter.plan_provider (snd fp)) plan).
Proof. unfold DataAggregator.groupByPrimary. now rewrite groupByPrimary_keys_from. Qed.

(** X17.  The executions of a wallet request begin with those of the parallel phase:
    one execution per distinct primary provider of the plan, in the order in which the
    plan first names them, made with at most one provider call each; one that succeeded
    is recorded as providing every field planned for its provider.  What follows them are
    fallback executions, all successful. *)
Theorem primary_phase_runs_each_provider_once id o (a : DataAggregator.t Value) start
    (routingPlan : JsMap.t FieldRouter.RoutingPlan) :
  let primaries := dedup (map (fun fp => FieldRouter.plan_provider (snd fp)) routingPlan) in
  let phase :=
    DataAggregator.executeAll (@Provider.getWalletData Value) id o
      (DataAggregator.providers a) start (DataAggregator.groupByPrimary routingPlan)
      (DataAggregator.fieldRouter a, 0%nat) in
  (exists fallbackExecutions,
     snd (DataAggregator.executeWalletDataRequests id routingPlan o start a)
     = (snd phase ++ fallbackExecutions)%list
     /\ Forall (fun e => DataAggregator.success e = true) fallbackExecutions)
  /\ map (@DataAggregator.provider Value) (snd phase) = primaries
  /\ NoDup primaries
  /\ (snd (fst phase) <= List.length primaries)%nat
  /\ (forall f rp e,
        In (f, rp) routingPlan ->
        In e (snd phase) ->
        DataAggregator.provider e = FieldRouter.plan_provider rp ->
        DataAggregator.success e = true ->
        In f (DataAggregator.fieldsProvided e)).
Proof.
  intros primaries phase.
  destruct (executeAll_providers (@Provider.getWalletData Value) id o
              (DataAggregator.providers a) start
              (DataAggregator.groupByPrimary routingPlan)
              (DataAggregator.fieldRouter a, 0%nat)) as [H1 H2].
  fold phase in H1, H2. rewrite groupByPrimary_keys in H1. fold primaries in H1.
  destruct (groupByPrimary_fold routingPlan JsMap.empty) as (G1 & _ & G3 & _);
    [constructor |].
  cbv zeta in G1, G3. fold (DataAggregator.groupByPrimary routingPlan) in G1, G3.
  split; [| split; [exact H1 | split; [apply dedup_from_NoDup | split]]].
  - unfold DataAggregator.executeWalletDataRequests. apply executeRequests_split.
  - assert (L : List.length (DataAggregator.groupByPrimary routingPlan)
                = List.length primaries).
    { unfold primaries. rewrite <- groupByPrimary_keys. unfold JsMap.keys.
      now rewrite length_map. }
    cbn [snd] in H2. rewrite <- L. lia.
  - intros f rp e Hin He Hp Hs.
    pose proof (executeAll_fields _ _ _ _ _ _ _ e He Hs) as Hreq.
    apply (JsMap_In_get _ _ _ G1) in Hreq.
    destruct (G3 f rp Hin) as (fs & G & Hf).
    rewrite <- Hp, Hreq in G. now injection G as ->.
Qed.

End ExecutionProps.

(** ** Errors: classification, recovery and severity *)

Section ErrorProps.
Variable toLowerCase : string -> string.

(** X18.  The keyword [timeout] decides for a network error before the timeout test is reached: a
    foreign error whose lower-cased message contains it is normalised to a [NetworkError], and
    a foreign error that is normalised to a [TimeoutError] says "timed out", "time limit" or
    "deadline", and none of the network or authentication keywords. *)
Theorem timeout_keyword_normalises_to_network_error (e : JsError) :
  let msg := toLowerCase (message e) in
  let n := ErrorHandler.normalizeError toLowerCase (Errors.Plain e) in
  (str_includes "timeout" msg = true -> Errors.class n = Errors.NetworkError)
  /\ (Errors.class n = Errors.TimeoutError ->
      (str_includes "timed out" msg = true
       \/ str_includes "time limit" msg = true
       \/ str_includes "deadline" msg = true)
      /\ ErrorHandler.isNetworkError toLowerCase e = false
      /\ ErrorHandler.isAuthError toLowerCase e = false)
  /\ Errors.error_message n = message e
  /\ Errors.originalError n = Some e.
Proof.
  cbv zeta. unfold ErrorHandler.normalizeError.
  assert (Hnet : str_includes "timeout" (toLowerCase (message e)) = true ->
                 ErrorHandler.isNetworkError toLowerCase e = true).
  { intros H. unfold ErrorHandler.isNetworkError, ErrorHandler.networkKeywords.
    cbn [existsb]. rewrite H. now rewrite !Bool.orb_true_r. }
  split; [| split].
  - intros H. now rewrite (Hnet H).
  - destruct (ErrorHandler.isNetworkError toLowerCase e) eqn:N; [discriminate |].
    destruct (ErrorHandler.isAuthError toLowerCase e) eqn:A; [discriminate |].
    destruct (ErrorHandler.isTimeoutError toLowerCase e) eqn:Tm.
    + intros _. split; [| split; reflexivity].
      unfold ErrorHandler.isTimeoutError, ErrorHandler.timeoutKeywords in Tm.
      cbn [existsb] in Tm.
      destruct (str_includes "timeout" (toLowerCase (message e))) eqn:H.
      * discriminate (Hnet eq_refl).
      * cbn [orb] in Tm. rewrite Bool.orb_false_r in Tm.
        apply Bool.orb_true_iff in Tm. destruct Tm as [Tm | Tm]; [now left |].
        apply Bool.orb_true_iff in Tm. tauto.
    + destruct (ErrorHandler.isValidationError toLowerCase e); discriminate.
  - destruct (ErrorHandler.isNetworkError toLowerCase e),
             (ErrorHandler.isAuthError toLowerCase e),
             (ErrorHandler.isTimeoutError toLowerCase e),
             (ErrorHandler.isValidationError toLowerCase e); split; reflexivity.
Qed.

(** An error that triggers the fallback to another provider is always one
    that may be retried; the converse fails for cache and aggregation errors
    only. *)
Lemma fallback_errors_are_recoverable (e : Errors.CardalabsError) :
  (ErrorRecovery.shouldFallback e = true -> ErrorRecovery.isRecoverable e = true)
  /\ (ErrorRecovery.isRecoverable e = true ->
      ErrorRecovery.shouldFallback e = false ->
      Errors.class e = Errors.CacheError \/ Errors.class e = Errors.AggregationError).
Proof.
  unfold ErrorRecovery.shouldFallback, ErrorRecovery.isRecoverable, Errors.category,
    Errors.code.
  destruct (Errors.class e); cbn; split; intros;
    first [reflexivity | discriminate | left; reflexivity | right; reflexivity].
Qed.

(** *** The most severe of the collected errors *)

Lemma most_severe_fold (rest : list Errors.CardalabsError) :
  forall first,
    let m :=
      fold_left
        (fun mostSevere current =>
           let currentIndex :=
             ErrorAggregator.indexOf (ErrorAggregator.severityOf current)
               ErrorAggregator.severityOrder in
           let mostSevereIndex :=
             ErrorAggregator.indexOf (ErrorAggregator.severityOf mostSevere)
               ErrorAggregator.severityOrder in
           if currentIndex <? mostSevereIndex then current else mostSevere)
        rest first in
    exists before after,
      (first :: rest = before ++ m :: after)%list
      /\ (forall x, In x before -> severity_index m < severity_index x)
      /\ (forall x, In x after -> severity_index m <= severity_index x).
Proof.
  induction rest as [| c rest IH] using rev_ind; intros first.
  - cbn. exists [], []. split; [reflexivity |]. split; intros x [].
  - cbv zeta. rewrite fold_left_app. cbn [fold_left].
    destruct (IH first) as (before & after & E & Hb & Ha). cbv zeta in E, Hb, Ha.
    set (m := fold_left _ rest first) in *.
    fold (severity_index c). fold (severity_index m).
    destruct (Z.ltb_spec (severity_index c) (severity_index m)) as [Hlt | Hge].
    + exists (before ++ m :: after)%list, []. split; [| split].
      * change (first :: rest ++ [c])%list with ((first :: rest) ++ [c])%list.
        now rewrite E.
      * intros x Hx. apply in_app_or in Hx. destruct Hx as [Hx | [<- | Hx]].
        -- specialize (Hb x Hx). lia.
        -- exact Hlt.
        -- specialize (Ha x Hx). lia.
      * intros x [].
    + exists before, (after ++ [c])%list. split; [| split].
      * change (first :: rest ++ [c])%list with ((first :: rest) ++ [c])%list.
        rewrite E, <- app_assoc. reflexivity.
      * exact Hb.
      * intros x Hx. apply in_app_or in Hx. destruct Hx as [Hx | [<- | []]].
        -- now apply Ha.
        -- exact Hge.
Qed.

(** X19.  [getMostSevere] returns nothing only for an empty collection; otherwise it returns the
    first of the collected errors whose severity no other collected error exceeds. *)
Theorem getMostSevere_returns_first_most_severe (errors : ErrorAggregator.t) :
  match ErrorAggregator.getMostSevere errors with
  | None => errors = []
  | Some m =>
      exists before after,
        errors = (before ++ m :: after)%list
        /\ (forall x, In x before -> severity_index m < severity_index x)
        /\ (forall x, In x after -> severity_index m <= severity_index x)
  end.
Proof.
  destruct errors as [| first rest]; [reflexivity |].
  cbn [ErrorAggregator.getMostSevere]. apply most_severe_fold.
Qed.

End ErrorProps.

(** ** Retry executor: the loop *)

Section RetryLoop.
Variable rnd : Q -> Q.
Context {T : Type}.
Variable config : RetryExecutor.RetryConfig.
Variable shouldRetry : option (Errors.Thrown -> Z -> bool).
Variable fn : Z -> RetryExecutor.Outcome T.
Variable random : nat -> Q.

(** The numbers of the attempts [n], [n + 1], ... ([k] of them). *)
Lemma seqZ_snoc n k : seqZ n (S k) = (seqZ n k ++ [n + Z.of_nat k])%list.
Proof.
  revert n. induction k as [| k IH]; intros n.
  - cbn. now rewrite Z.add_0_r.
  - change (seqZ n (S (S k))) with (n :: seqZ (n + 1) (S k)).
    rewrite IH. cbn [seqZ app]. do 3 f_equal. lia.
Qed.

Lemma seqZ_length n k : List.length (seqZ n k) = k.
Proof. revert n. induction k as [| k IH]; intros n; cbn; [reflexivity | now rewrite IH]. Qed.

(** The loop from attempt [n] on, when the attempt [n + k] is the first that
    decides. *)
Lemma execute_from_decisive (k : nat) :
  forall fuel n draws log sleeps,
    (k < fuel)%nat ->
    n + Z.of_nat fuel = RetryExecutor.maxAttempts config + 1 ->
    (forall i, n <= i < n + Z.of_nat k ->
       exists e, fn i = RetryExecutor.Rejected e
                 /\ RetryExecutor.retries shouldRetry e i = true) ->
    (n + Z.of_nat k = RetryExecutor.maxAttempts config
     \/ (exists r, fn (n + Z.of_nat k) = RetryExecutor.Resolved r)
     \/ (exists e, fn (n + Z.of_nat k) = RetryExecutor.Rejected e
                   /\ RetryExecutor.retries shouldRetry e (n + Z.of_nat k) = false)) ->
    let ex := RetryExecutor.execute_from rnd fuel n config shouldRetry fn random
                draws log sleeps in
    RetryExecutor.outcome ex = fn (n + Z.of_nat k)
    /\ map RetryExecutor.attempt (RetryExecutor.attempts ex)
       = (map RetryExecutor.attempt log ++ seqZ n (S k))%list
    /\ List.length (RetryExecutor.slept ex) = (List.length sleeps + k)%nat.
Proof.
  induction k as [| k IH]; intros fuel n draws log sleeps Hfuel Hmax Hbefore Hstop.
  - destruct fuel as [| fuel]; [lia |]. cbn [RetryExecutor.execute_from].
    rewrite Z.add_0_r in *. cbv zeta.
    destruct (fn n) as [r | e] eqn:F.
    + cbn. rewrite map_app. cbn. repeat split; lia.
    + destruct (Z.eqb_spec n (RetryExecutor.maxAttempts config)) as [E | NE].
      * cbn. rewrite map_app. cbn. repeat split; lia.
      * destruct Hstop as [H | [[r H] | (e' & H & Hr)]]; [lia | discriminate |].
        injection H as <-. rewrite Hr. cbn. rewrite map_app. cbn. repeat split; lia.
  - destruct fuel as [| fuel]; [lia |]. cbn [RetryExecutor.execute_from]. cbv zeta.
    destruct (Hbefore n) as (e & F & Hr); [lia |]. rewrite F, Hr.
    destruct (Z.eqb_spec n (RetryExecutor.maxAttempts config)) as [E | NE]; [lia |].
    cbn [negb].
    match goal with
    | |- context [RetryExecutor.execute_from rnd fuel (n + 1) config shouldRetry fn random
                    ?d ?l ?s] =>
        destruct (IH fuel (n + 1) d l s) as (I1 & I2 & I3)
    end.
    + lia.
    + lia.
    + intros i Hi. apply Hbefore. lia.
    + replace (n + 1 + Z.of_nat k) with (n + Z.of_nat (S k)) by lia. exact Hstop.
    + cbv zeta in I1, I2, I3.
      replace (n + 1 + Z.of_nat k) with (n + Z.of_nat (S k)) in I1 by lia.
      split; [exact I1 |]. split.
      * rewrite I2, map_app. cbn [map RetryExecutor.attempt].
        rewrite <- app_assoc. reflexivity.
      * rewrite I3, length_app. cbn [List.length]. lia.
Qed.

(** X20.  [execute] stops at the first attempt that decides: the first one that resolves, or
    rejects with an error that is not retried, or is the last attempt allowed.  It settles as
    that attempt did, after calling the function once per attempt up to it and sleeping
    between two attempts. *)
Theorem retry_stops_at_first_decisive_attempt (n : Z) :
  1 <= n <= RetryExecutor.maxAttempts config ->
  (forall i, 1 <= i < n ->
     exists e, fn i = RetryExecutor.Rejected e
               /\ RetryExecutor.retries shouldRetry e i = true) ->
  (n = RetryExecutor.maxAttempts config
   \/ (exists r, fn n = RetryExecutor.Resolved r)
   \/ (exists e, fn n = RetryExecutor.Rejected e
                 /\ RetryExecutor.retries shouldRetry e n = false)) ->
  let ex := RetryExecutor.execute rnd config shouldRetry fn random in
  RetryExecutor.outcome ex = fn n
  /\ map RetryExecutor.attempt (RetryExecutor.attempts ex) = seqZ 1 (Z.to_nat n)
  /\ Z.of_nat (List.length (RetryExecutor.slept ex)) = n - 1.
Proof.
  intros Hn Hbefore Hstop. unfold RetryExecutor.execute.
  destruct (execute_from_decisive (Z.to_nat (n - 1))
              (Z.to_nat (RetryExecutor.maxAttempts config)) 1 0%nat [] [])
    as (I1 & I2 & I3).
  - lia.
  - lia.
  - intros i Hi. apply Hbefore. lia.
  - replace (1 + Z.of_nat (Z.to_nat (n - 1))) with n by lia. exact Hstop.
  - cbv zeta in I1, I2, I3 |- *.
    replace (1 + Z.of_nat (Z.to_nat (n - 1))) with n in I1 by lia.
    split; [exact I1 |]. split.
    + rewrite I2. cbn [map app]. f_equal. lia.
    + rewrite I3. cbn [List.length]. lia.
Qed.

(** Whatever the function does. *)
Lemma execute_from_bounded :
  forall fuel n draws log sleeps,
    let ex := RetryExecutor.execute_from rnd fuel n config shouldRetry fn random
                draws log sleeps in
    (List.length (RetryExecutor.attempts ex) <= List.length log + fuel)%nat
    /\ (List.length (RetryExecutor.slept ex) - List.length sleeps
        <= List.length (RetryExecutor.attempts ex) - List.length log)%nat
    /\ (List.length sleeps <= List.length (RetryExecutor.slept ex))%nat
    /\ (List.length log <= List.length (RetryExecutor.attempts ex))%nat
    /\ (fuel = 0%nat ->
        ex = RetryExecutor.mkExecution
               (RetryExecutor.Rejected
                  (Errors.Err (Errors.Plain (mkError "Retry executor failed unexpectedly"))))
               log sleeps).
Proof.
  induction fuel as [| fuel IH]; intros n draws log sleeps.
  - cbn. repeat split; lia.
  - cbn [RetryExecutor.execute_from]. cbv zeta.
    destruct (fn n) as [r | e].
    + cbn. rewrite length_app. cbn. repeat split; try lia; try discriminate.
    + destruct (n =? RetryExecutor.maxAttempts config).
      * cbn. rewrite length_app. cbn. repeat split; try lia; try discriminate.
      * destruct (RetryExecutor.retries shouldRetry e n); cbn [negb].
        -- match goal with
           | |- context [RetryExecutor.execute_from rnd fuel (n + 1) config shouldRetry fn
                           random ?d ?l ?s] =>
               destruct (IH (n + 1) d l s) as (I1 & I2 & I3 & I4 & _)
           end.
           cbv zeta in I1, I2, I3, I4. rewrite !length_app in *. cbn [List.length] in *.
           repeat split; try lia; try discriminate.
        -- cbn. rewrite length_app. cbn. repeat split; try lia; try discriminate.
Qed.

(** X21.  Whatever the wrapped function does, [execute] calls it at most [maxAttempts] times and
    sleeps less often than it calls; with [maxAttempts] below 1 it never calls the function
    and rejects with its own error. *)
Theorem retry_calls_are_bounded :
  let ex := RetryExecutor.execute rnd config shouldRetry fn random in
  Z.of_nat (List.length (RetryExecutor.attempts ex))
  <= Z.max 0 (RetryExecutor.maxAttempts config)
  /\ (List.length (RetryExecutor.slept ex)
      <= List.length (RetryExecutor.attempts ex))%nat
  /\ (RetryExecutor.maxAttempts config < 1 ->
      ex = RetryExecutor.mkExecution
             (RetryExecutor.Rejected
                (Errors.Err (Errors.Plain (mkError "Retry executor failed unexpectedly"))))
             [] []).
Proof.
  unfold RetryExecutor.execute.
  destruct (execute_from_bounded (Z.to_nat (RetryExecutor.maxAttempts config)) 1 0%nat [] [])
    as (I1 & I2 & _ & _ & I5).
  cbv zeta in I1, I2, I5 |- *. cbn [List.length] in I1, I2.
  split; [lia |]. split; [lia |].
  intros H. apply I5. lia.
Qed.

End RetryLoop.

Lemma retry_stops_at_first_decisive_attempt_witness :
  let ex := RetryExecutor.execute (fun x => x) RetryExecutor.standard None flaky
              (fun _ => 1 # 2) in
  RetryExecutor.outcome ex = RetryExecutor.Resolved "0.45"
  /\ map RetryExecutor.attempt (RetryExecutor.attempts ex) = [1; 2]
  /\ Z.of_nat (List.length (RetryExecutor.slept ex)) = 1.
Proof.
  apply (retry_stops_at_first_decisive_attempt (fun x => x) RetryExecutor.standard None
           flaky (fun _ => 1 # 2) 2).
  - cbn. lia.
  - intros i Hi. assert (i = 1) as -> by lia. eexists. split; reflexivity.
  - right. left. eexists. reflexivity.
Defined.

(** ** Cache keys *)

(** *** Splitting and joining *)

Lemma split_not_nil sep s : split sep s <> [].
Proof.
  destruct s as [| c s]; cbn; [discriminate |].
  destruct (Ascii.eqb c sep); [discriminate |].
  destruct (split sep s); discriminate.
Qed.

Lemma join_cons sep x y l :
  join sep (x :: y :: l) = (x ++ sep ++ join sep (y :: l))%string.
Proof. reflexivity. Qed.

Lemma join_split sep s : join (String sep EmptyString) (split sep s) = s.
Proof.
  induction s as [| c s IH]; [reflexivity |].
  cbn [split]. destruct (Ascii.eqb_spec c sep) as [-> | Hne].
  - pose proof (split_not_nil sep s) as Hn.
    destruct (split sep s) as [| x xs]; [congruence |].
    rewrite join_cons, IH. reflexivity.
  - pose proof (split_not_nil sep s) as Hn.
    destruct (split sep s) as [| x xs]; [congruence |].
    destruct xs as [| y xs].
    + cbn in IH |- *. now rewrite IH.
    + rewrite join_cons in IH |- *. cbn [append] in IH |- *. now rewrite IH.
Qed.

Lemma split_no_sep sep s : has_char sep s = false -> split sep s = [s].
Proof.
  induction s as [| c s IH]; [reflexivity |].
  cbn. destruct (Ascii.eqb c sep); [discriminate |]. cbn [orb].
  intros H. now rewrite (IH H).
Qed.

Lemma split_app sep a b :
  has_char sep a = false ->
  split sep (a ++ String sep b) = a :: split sep b.
Proof.
  induction a as [| c a IH]; cbn.
  - intros _. now rewrite Ascii.eqb_refl.
  - destruct (Ascii.eqb c sep); [discriminate |]. cbn [orb].
    intros H. now rewrite (IH H).
Qed.

Lemma split_join sep parts :
  parts <> [] ->
  Forall (fun p => has_char sep p = false) parts ->
  split sep (join (String sep EmptyString) parts) = parts.
Proof.
  induction parts as [| x parts IH]; [congruence |]. intros _ Hall.
  inversion Hall as [| ? ? Hx Hrest]; subst.
  destruct parts as [| y parts].
  - cbn. now apply split_no_sep.
  - rewrite join_cons. cbn [append]. rewrite split_app by exact Hx.
    f_equal. apply IH; [discriminate | exact Hrest].
Qed.

(** X22.  The keys of the simple builder parse back to what they were built from, for every
    identifier, colons included. *)
Theorem simple_keys_round_trip (id : string) (type : DataType) :
  SimpleCacheKeyBuilder.parseKey (SimpleCacheKeyBuilder.buildTokenDataKey id)
  = Some (mkKeyMetadata "token" id None None None)
  /\ SimpleCacheKeyBuilder.parseKey (SimpleCacheKeyBuilder.buildWalletDataKey id)
     = Some (mkKeyMetadata "wallet" id None None None)
  /\ SimpleCacheKeyBuilder.parseKey (SimpleCacheKeyBuilder.buildAggregatedKey type id)
     = Some (mkKeyMetadata "aggregated" id None None None).
Proof.
  unfold SimpleCacheKeyBuilder.parseKey, SimpleCacheKeyBuilder.buildTokenDataKey,
    SimpleCacheKeyBuilder.buildWalletDataKey, SimpleCacheKeyBuilder.buildAggregatedKey.
  pose proof (split_not_nil ":" id) as Hn. pose proof (join_split ":" id) as Hj.
  change ("token:" ++ id)%string with ("token" ++ String ":" id)%string.
  change ("wallet:" ++ id)%string with ("wallet" ++ String ":" id)%string.
  change ("aggregated:" ++ type_name type ++ ":" ++ id)%string
    with ("aggregated" ++ String ":" (type_name type ++ String ":" id))%string.
  rewrite !split_app by reflexivity.
  rewrite (split_app ":" (type_name type) id) by now destruct type.
  destruct (split ":" id) as [| x xs]; [congruence |].
  cbn [List.length Nat.ltb Nat.leb skipn String.eqb Ascii.eqb Bool.eqb].
  rewrite Hj. repeat split.
Qed.

(** *** The order of strings *)

Lemma ascii_compare_refl c : Ascii.compare c c = Eq.
Proof. unfold Ascii.compare. apply N.compare_refl. Qed.

Lemma ascii_compare_trans_lt a b c :
  Ascii.compare a b = Lt -> Ascii.compare b c = Lt -> Ascii.compare a c = Lt.
Proof.
  unfold Ascii.compare. rewrite !N.compare_lt_iff. lia.
Qed.

Lemma string_leb_trans (a b c : string) :
  String.leb a b = true -> String.leb b c = true -> String.leb a c = true.
Proof.
  unfold String.leb. revert b c.
  induction a as [| x a IH]; intros [| y b] [| z c]; cbn; try congruence.
  destruct (Ascii.compare x y) eqn:Exy; try congruence.
  - apply Ascii.compare_eq_iff in Exy. subst y.
    destruct (Ascii.compare x z) eqn:Exz; try congruence. apply IH.
  - destruct (Ascii.compare y z) eqn:Eyz; try congruence.
    + apply Ascii.compare_eq_iff in Eyz. subst z. now rewrite Exy.
    + now rewrite (ascii_compare_trans_lt x y z Exy Eyz).
Qed.

Lemma sort_insert_comm x y l :
  sort_insert x (sort_insert y l) = sort_insert y (sort_insert x l).
Proof.
  induction l as [| z l IH]; cbn [sort_insert].
  - destruct (String.leb x y) eqn:Exy, (String.leb y x) eqn:Eyx; try reflexivity.
    + now rewrite (String.leb_antisym x y Exy Eyx).
    + destruct (String.leb_total x y); congruence.
  - destruct (String.leb y z) eqn:Eyz, (String.leb x z) eqn:Exz; cbn [sort_insert].
    + destruct (String.leb x y) eqn:Exy, (String.leb y x) eqn:Eyx;
        rewrite ?Exz, ?Eyz; try reflexivity.
      * now rewrite (String.leb_antisym x y Exy Eyx).
      * destruct (String.leb_total x y); congruence.
    + rewrite Eyz.
      destruct (String.leb x y) eqn:Exy.
      * rewrite (string_leb_trans x y z Exy Eyz) in Exz. discriminate.
      * now rewrite Exz.
    + rewrite Exz.
      destruct (String.leb y x) eqn:Eyx.
      * rewrite (string_leb_trans y x z Eyx Exz) in Eyz. discriminate.
      * now rewrite Eyz.
    + rewrite Exz, Eyz. now rewrite IH.
Qed.

Lemma sort_permutation l l' : Permutation l l' -> sort l = sort l'.
Proof.
  unfold sort.
  induction 1 as [| x l l' _ IH | x y l | l l' l'' _ IH1 _ IH2]; cbn [fold_right].
  - reflexivity.
  - now rewrite IH.
  - apply sort_insert_comm.
  - now rewrite IH1.
Qed.

Section DefaultKeys.
Variable md5_hex : string -> string.

Lemma hashed_part_permutation name l l' :
  Permutation l l' ->
  DefaultCacheKeyBuilder.hashed_part md5_hex name (Some l)
  = DefaultCacheKeyBuilder.hashed_part md5_hex name (Some l').
Proof.
  intros H. unfold DefaultCacheKeyBuilder.hashed_part.
  destruct l as [| x l].
  - apply Permutation_nil in H. now subst.
  - destruct l' as [| x' l'].
    + apply Permutation_sym, Permutation_nil in H. discriminate.
    + now rewrite (sort_permutation _ _ H).
Qed.

(** X23.  The keys of the default builder do not depend on the order in which the fields, or the
    providers, are listed. *)
Theorem default_keys_ignore_list_order id type provider fields fields' providers providers' :
  Permutation fields fields' ->
  Permutation providers providers' ->
  DefaultCacheKeyBuilder.buildTokenDataKey md5_hex id (Some fields) provider
  = DefaultCacheKeyBuilder.buildTokenDataKey md5_hex id (Some fields') provider
  /\ DefaultCacheKeyBuilder.buildWalletDataKey md5_hex id (Some fields) provider
     = DefaultCacheKeyBuilder.buildWalletDataKey md5_hex id (Some fields') provider
  /\ DefaultCacheKeyBuilder.buildAggregatedKey md5_hex type id (Some fields) (Some providers)
     = DefaultCacheKeyBuilder.buildAggregatedKey md5_hex type id (Some fields')
         (Some providers').
Proof.
  intros Hf Hp.
  unfold DefaultCacheKeyBuilder.buildTokenDataKey, DefaultCacheKeyBuilder.buildWalletDataKey,
    DefaultCacheKeyBuilder.buildAggregatedKey.
  rewrite (hashed_part_permutation "fields" _ _ Hf).
  rewrite (hashed_part_permutation "providers" _ _ Hp).
  repeat split.
Qed.

(** *** Sanitized identifiers *)

Lemma sanitized_char_not_colon c :
  Ascii.eqb (ascii_lower (if DefaultCacheKeyBuilder.allowed c then c else "_"%char))
            ":"%char = false.
Proof.
  destruct c as [[] [] [] [] [] [] [] []]; reflexivity.
Qed.

Lemma sanitizeIdentifier_no_colon s :
  has_char ":" (DefaultCacheKeyBuilder.sanitizeIdentifier s) = false.
Proof.
  unfold DefaultCacheKeyBuilder.sanitizeIdentifier.
  induction s as [| c s IH]; [reflexivity |].
  cbn [DefaultCacheKeyBuilder.replace_disallowed lower has_char].
  now rewrite sanitized_char_not_colon, IH.
Qed.

Lemma sanitizeIdentifier_truthy s :
  truthy s = true -> truthy (DefaultCacheKeyBuilder.sanitizeIdentifier s) = true.
Proof. now destruct s. Qed.

Hypothesis digest_colon_free :
  forall s, has_char ":" (substring 0 8 (md5_hex s)) = false.
Hypothesis digest_not_empty :
  forall s, truthy (substring 0 8 (md5_hex s)) = true.

Lemma provider_part_colon_free provider :
  Forall (fun p => has_char ":" p = false) (DefaultCacheKeyBuilder.provider_part provider).
Proof.
  unfold DefaultCacheKeyBuilder.provider_part.
  destruct provider as [p |]; [| constructor].
  destruct (truthy p); repeat constructor. apply sanitizeIdentifier_no_colon.
Qed.

Lemma hashed_part_colon_free name l :
  has_char ":" name = false ->
  Forall (fun p => has_char ":" p = false)
         (DefaultCacheKeyBuilder.hashed_part md5_hex name l).
Proof.
  intros Hn. unfold DefaultCacheKeyBuilder.hashed_part.
  destruct l as [[| x xs] |]; repeat constructor; [exact Hn |].
  apply digest_colon_free.
Qed.

Lemma parseRegularParts_built provider fields ty id :
  DefaultCacheKeyBuilder.parseRegularParts
    (DefaultCacheKeyBuilder.provider_part provider
     ++ DefaultCacheKeyBuilder.hashed_part md5_hex "fields" fields)
    (mkKeyMetadata ty id None None None)
  = mkKeyMetadata ty id (fields_marker fields) (provider_marker provider) None.
Proof.
  unfold DefaultCacheKeyBuilder.provider_part, DefaultCacheKeyBuilder.hashed_part,
    fields_marker, provider_marker.
  destruct provider as [p |]; [destruct (truthy p) eqn:Tp |];
    destruct fields as [[| x xs] |]; cbn [app DefaultCacheKeyBuilder.parseRegularParts];
    unfold DefaultCacheKeyBuilder.hashFields;
    rewrite ?(sanitizeIdentifier_truthy p Tp), ?digest_not_empty; reflexivity.
Qed.

(** X24.  A key of the default builder parses back to its type and its sanitized identifier, with
    the sanitized provider when one was given and the [multiple] marker for a list that was
    given and not empty: no identifier, provider or digest can be taken for a separator. *)
Theorem default_keys_parse_back id fields provider :
  DefaultCacheKeyBuilder.parseKey
    (DefaultCacheKeyBuilder.buildTokenDataKey md5_hex id fields provider)
  = Some (mkKeyMetadata "token" (DefaultCacheKeyBuilder.sanitizeIdentifier id)
            (fields_marker fields) (provider_marker provider) None)
  /\ DefaultCacheKeyBuilder.parseKey
       (DefaultCacheKeyBuilder.buildWalletDataKey md5_hex id fields provider)
     = Some (mkKeyMetadata "wallet" (DefaultCacheKeyBuilder.sanitizeIdentifier id)
               (fields_marker fields) (provider_marker provider) None).
Proof.
  unfold DefaultCacheKeyBuilder.parseKey, DefaultCacheKeyBuilder.buildTokenDataKey,
    DefaultCacheKeyBuilder.buildWalletDataKey, DefaultCacheKeyBuilder.separator.
  rewrite !split_join; try discriminate.
  - cbn [app]. cbn [String.eqb Ascii.eqb Bool.eqb negb DefaultCacheKeyBuilder.version].
    rewrite !parseRegularParts_built. split; reflexivity.
  - repeat constructor; try apply sanitizeIdentifier_no_colon.
    apply Forall_app. split; [apply provider_part_colon_free |].
    now apply hashed_part_colon_free.
  - repeat constructor; try apply sanitizeIdentifier_no_colon.
    apply Forall_app. split; [apply provider_part_colon_free |].
    now apply hashed_part_colon_free.
Qed.

End DefaultKeys.

Lemma default_keys_ignore_list_order_witness :
  DefaultCacheKeyBuilder.buildTokenDataKey constant_digest "lovelace"
    (Some ["price"; "holders"]) (Some "CoinGecko")
  = DefaultCacheKeyBuilder.buildTokenDataKey constant_digest "lovelace"
      (Some ["holders"; "price"]) (Some "CoinGecko")
  /\ DefaultCacheKeyBuilder.buildWalletDataKey constant_digest "lovelace"
       (Some ["price"; "holders"]) (Some "CoinGecko")
     = DefaultCacheKeyBuilder.buildWalletDataKey constant_digest "lovelace"
         (Some ["holders"; "price"]) (Some "CoinGecko")
  /\ DefaultCacheKeyBuilder.buildAggregatedKey constant_digest token "lovelace"
       (Some ["price"; "holders"]) (Some ["taptools"; "coingecko"])
     = DefaultCacheKeyBuilder.buildAggregatedKey constant_digest token "lovelace"
         (Some ["holders"; "price"]) (Some ["coingecko"; "taptools"]).
Proof.
  apply (default_keys_ignore_list_order constant_digest "lovelace" token (Some "CoinGecko")
           ["price"; "holders"] ["holders"; "price"]
           ["taptools"; "coingecko"] ["coingecko"; "taptools"]).
  - apply perm_swap.
  - apply perm_swap.
Defined.

Lemma default_keys_parse_back_witness :
  DefaultCacheKeyBuilder.parseKey
    (DefaultCacheKeyBuilder.buildTokenDataKey constant_digest "Lovelace:ADA"
       (Some ["price"; "holders"]) (Some "CoinGecko"))
  = Some (mkKeyMetadata "token" "lovelace_ada" (Some ["multiple"]) (Some "coingecko") None)
  /\ DefaultCacheKeyBuilder.parseKey
       (DefaultCacheKeyBuilder.buildWalletDataKey constant_digest "Lovelace:ADA"
          (Some ["price"; "holders"]) (Some "CoinGecko"))
     = Some (mkKeyMetadata "wallet" "lovelace_ada" (Some ["multiple"]) (Some "coingecko")
               None).
Proof.
  apply (default_keys_parse_back constant_digest).
  - intros s. reflexivity.
  - intros s. reflexivity.
Defined.

(** ** The recency list of the cache *)

(** *** Lists of keys *)

Lemma last_from_app p l1 l2 : last_from p (l1 ++ l2) = last_from (last_from p l1) l2.
Proof. unfold last_from. apply fold_left_app. Qed.

Lemma last_from_cons p x l : last_from p (x :: l) = last_from (Some x) l.
Proof. reflexivity. Qed.

Lemma last_from_nonempty p p' x l : last_from p (x :: l) = last_from p' (x :: l).
Proof. reflexivity. Qed.

Lemma last_from_In p l x : last_from p l = Some x -> p = Some x \/ In x l.
Proof.
  revert p. induction l as [| y l IH]; intros p; cbn; [now left |].
  intros H. destruct (IH _ H) as [[= ->] | Hin]; right; [now left | now right].
Qed.

Lemma last_from_None l : last_from None l = None -> l = [].
Proof.
  destruct l as [| x l]; [reflexivity |]. rewrite last_from_cons.
  intros H. exfalso. revert x H. induction l as [| y l IH]; intros x; cbn; [discriminate |].
  apply IH.
Qed.

Lemma last_from_snoc p l x : last_from p (l ++ [x]) = Some x.
Proof. now rewrite last_from_app. Qed.

Lemma last_from_Some_split l x :
  last_from None l = Some x -> exists l', l = (l' ++ [x])%list.
Proof.
  destruct l as [| y l] using rev_ind; [discriminate |].
  rewrite last_from_snoc. intros [= ->]. now exists l.
Qed.

Lemma without_notin k l : ~ In k l -> without k l = l.
Proof.
  unfold without. induction l as [| x l IH]; [reflexivity |].
  intros H. cbn. destruct (String.eqb_spec x k) as [-> | Hne].
  - exfalso. apply H. now left.
  - cbn. f_equal. apply IH. intros Hin. apply H. now right.
Qed.

Lemma without_app k l1 l2 : without k (l1 ++ l2) = (without k l1 ++ without k l2)%list.
Proof. unfold without. apply filter_app. Qed.

Lemma without_split k l1 l2 :
  NoDup (l1 ++ k :: l2) -> without k (l1 ++ k :: l2) = (l1 ++ l2)%list.
Proof.
  intros Hnd. rewrite without_app. cbn [without filter]. rewrite String.eqb_refl. cbn [negb].
  fold (without k l2).
  apply NoDup_remove_2 in Hnd.
  rewrite !without_notin; [reflexivity | |]; intros H; apply Hnd, in_or_app; auto.
Qed.

Lemma without_In k l x : In x (without k l) <-> In x l /\ x <> k.
Proof.
  unfold without. rewrite filter_In, Bool.negb_true_iff, String.eqb_neq. tauto.
Qed.

Lemma without_NoDup k l : NoDup l -> NoDup (without k l).
Proof. apply NoDup_filter. Qed.

Lemma without_length k l :
  NoDup l -> In k l -> S (List.length (without k l)) = List.length l.
Proof.
  intros Hnd Hin. apply in_split in Hin. destruct Hin as (l1 & l2 & ->).
  rewrite without_split by exact Hnd. rewrite !length_app. cbn. lia.
Qed.

Lemma NoDup_app_disjoint (l1 l2 : list string) x :
  NoDup (l1 ++ l2) -> In x l1 -> In x l2 -> False.
Proof.
  induction l1 as [| a l1 IH]; [intros _ [] |].
  cbn. intros Hnd [-> | H1] H2; inversion Hnd as [| ? ? Hnot Hnd']; subst.
  - apply Hnot, in_or_app. now right.
  - now apply IH.
Qed.

(** *** Segments of linked keys *)

Section Segments.
Implicit Types lk : string -> option (option string * option string).

Lemma seg_ext p l q lk lk' :
  (forall k, In k l -> lk' k = lk k) -> seg p l q lk -> seg p l q lk'.
Proof.
  revert p. induction l as [| k l IH]; intros p Hext; [trivial |].
  cbn. intros [H1 H2]. split.
  - rewrite Hext by now left. exact H1.
  - apply IH; [| exact H2]. intros x Hx. apply Hext. now right.
Qed.

Lemma seg_app p l1 l2 q lk :
  seg p (l1 ++ l2) q lk
  <-> seg p l1 (first_from q l2) lk /\ seg (last_from p l1) l2 q lk.
Proof.
  revert p. induction l1 as [| a l1 IH]; intros p.
  - cbn. tauto.
  - cbn [app seg]. rewrite IH, last_from_cons.
    destruct l1; cbn [app first_from]; tauto.
Qed.

Lemma is_key_true o x : is_key o x = true <-> o = Some x.
Proof.
  destruct o as [y |]; cbn; [| split; discriminate].
  rewrite String.eqb_eq. split; congruence.
Qed.

Lemma is_key_refl x : is_key (Some x) x = true.
Proof. apply String.eqb_refl. Qed.

Lemma is_key_last_notin k l x : ~ In x (k :: l) -> is_key (last_from None (k :: l)) x = false.
Proof.
  intros H. destruct (is_key _ x) eqn:E; [| reflexivity].
  apply is_key_true, last_from_In in E. destruct E as [E | E]; [discriminate | contradiction].
Qed.

(** The last key of a segment is given a new successor. *)
Lemma seg_set_end p l q q' lk lk' :
  NoDup l ->
  seg p l q lk ->
  (forall x, In x l ->
     exists a b, lk x = Some (a, b)
                 /\ lk' x = Some (a, if is_key (last_from None l) x then q' else b)) ->
  seg p l q' lk'.
Proof.
  revert p. induction l as [| k l IH]; intros p Hnd Hseg Hlk; [trivial |].
  cbn [seg] in Hseg |- *. destruct Hseg as [H1 H2].
  inversion Hnd as [| ? ? Hnot Hnd']; subst.
  destruct (Hlk k (or_introl eq_refl)) as (a & b & E & E').
  rewrite E in H1. injection H1 as -> ->.
  destruct l as [| y l].
  - split; [| exact I]. rewrite E'. cbn [last_from fold_left is_key].
    now rewrite String.eqb_refl.
  - split.
    + rewrite E'. rewrite last_from_cons.
      change (last_from (Some k) (y :: l)) with (last_from None (y :: l)).
      now rewrite (is_key_last_notin y l k Hnot).
    + apply IH; [exact Hnd' | exact H2 |].
      intros x Hx. exact (Hlk x (or_intror Hx)).
Qed.

(** The first key of a segment is given a new predecessor. *)
Lemma seg_set_start p p' l q lk lk' :
  NoDup l ->
  seg p l q lk ->
  (forall x, In x l ->
     exists a b, lk x = Some (a, b)
                 /\ lk' x = Some (if is_key (first_from None l) x then p' else a, b)) ->
  seg p' l q lk'.
Proof.
  intros Hnd Hseg Hlk. destruct l as [| k l]; [trivial |].
  cbn [seg] in Hseg |- *. destruct Hseg as [H1 H2].
  inversion Hnd as [| ? ? Hnot Hnd']; subst.
  split.
  - destruct (Hlk k (or_introl eq_refl)) as (a & b & E & E').
    rewrite E in H1. injection H1 as -> ->. rewrite E'. cbn [first_from is_key].
    now rewrite String.eqb_refl.
  - apply (seg_ext _ _ _ lk); [| exact H2].
    intros x Hx. destruct (Hlk x (or_intror Hx)) as (a & b & E & E').
    rewrite E, E'. cbn [first_from is_key].
    destruct (String.eqb_spec k x) as [-> | _]; [contradiction | reflexivity].
Qed.

(** A key is taken out of a list: its neighbours are linked to each other
    and the other keys keep their links. *)
Lemma seg_unlink l1 k l2 lk lk' :
  NoDup (l1 ++ k :: l2) ->
  seg None (l1 ++ k :: l2) None lk ->
  (forall x, In x (l1 ++ l2) ->
     exists a b,
       lk x = Some (a, b)
       /\ lk' x = Some (if is_key (first_from None l2) x then last_from None l1 else a,
                        if is_key (last_from None l1) x then first_from None l2 else b)) ->
  lk k = Some (last_from None l1, first_from None l2)
  /\ seg None (l1 ++ l2) None lk'.
Proof.
  intros Hnd Hseg Hlk.
  apply seg_app in Hseg. destruct Hseg as [S1 S2]. cbn [seg first_from] in S1, S2.
  destruct S2 as [Hk S2].
  split; [exact Hk |].
  assert (Hnd1 : NoDup l1) by (apply NoDup_app_remove_r in Hnd; exact Hnd).
  assert (Hnd2 : NoDup l2).
  { apply NoDup_app_remove_l in Hnd. now inversion Hnd. }
  assert (Hdisj : forall x, In x l1 -> In x l2 -> False).
  { intros x H1 H2. apply NoDup_remove_1 in Hnd.
    exact (NoDup_app_disjoint l1 l2 x Hnd H1 H2). }
  apply seg_app. split.
  - apply (seg_set_end None l1 (Some k) (first_from None l2) lk lk' Hnd1 S1).
    intros x Hx. destruct (Hlk x (in_or_app _ _ _ (or_introl Hx))) as (a & b & E & E').
    exists a, b. split; [exact E |]. rewrite E'. f_equal. f_equal.
    destruct (is_key (first_from None l2) x) eqn:E0; [| reflexivity].
    exfalso. apply is_key_true in E0. destruct l2 as [| y l2]; [discriminate |].
    injection E0 as ->. apply (Hdisj x Hx). now left.
  - apply (seg_set_start (Some k) (last_from None l1) l2 None lk lk' Hnd2 S2).
    intros x Hx. destruct (Hlk x (in_or_app _ _ _ (or_intror Hx))) as (a & b & E & E').
    exists a, b. split; [exact E |]. rewrite E'. f_equal. f_equal.
    destruct (is_key (last_from None l1) x) eqn:E0; [| reflexivity].
    exfalso. apply is_key_true, last_from_In in E0.
    destruct E0 as [E0 | E0]; [discriminate |].
    exact (Hdisj x E0 Hx).
Qed.

(** A key is put in front of a list. *)
Lemma seg_push k l lk lk' :
  NoDup l ->
  seg None l None lk ->
  lk' k = Some (None, first_from None l) ->
  (forall x, In x l ->
     exists a b, lk x = Some (a, b)
                 /\ lk' x = Some (if is_key (first_from None l) x then Some k else a, b)) ->
  seg None (k :: l) None lk'.
Proof.
  intros Hnd Hseg Hk Hlk. cbn [seg]. split; [exact Hk |].
  exact (seg_set_start None (Some k) l None lk lk' Hnd Hseg Hlk).
Qed.

End Segments.

(** *** The links of the stored nodes *)

Ltac lru_simpl :=
  cbn [MemoryCache.cache MemoryCache.head MemoryCache.tail MemoryCache.stats
       MemoryCache.options MemoryCache.eventListeners MemoryCache.delivered
       MemoryCache.with_cache MemoryCache.with_head MemoryCache.with_tail
       MemoryCache.with_stats MemoryCache.key MemoryCache.entry MemoryCache.prev
       MemoryCache.next MemoryCache.set_prev MemoryCache.set_next
       MemoryCache.set_entry option_map is_key fst snd] in *.

Section CacheLinks.
Context {V : Type}.
Implicit Types (m : JsMap.t (MemoryCache.LRUNode V)) (c : MemoryCache.t V).

Lemma links_update_next x v m k :
  links (JsMap.update x (MemoryCache.set_next v) m) k
  = if (x =? k)%string then option_map (fun ab => (fst ab, v)) (links m k) else links m k.
Proof.
  unfold links. rewrite JsMap_get_update. destruct (x =? k)%string; [| reflexivity].
  now destruct (JsMap.get k m).
Qed.

Lemma links_update_prev x v m k :
  links (JsMap.update x (MemoryCache.set_prev v) m) k
  = if (x =? k)%string then option_map (fun ab => (v, snd ab)) (links m k) else links m k.
Proof.
  unfold links. rewrite JsMap_get_update. destruct (x =? k)%string; [| reflexivity].
  now destruct (JsMap.get k m).
Qed.

Lemma links_update_entry x e m k :
  links (JsMap.update x (MemoryCache.set_entry e) m) k = links m k.
Proof.
  unfold links. rewrite JsMap_get_update. destruct (x =? k)%string; [| reflexivity].
  now destruct (JsMap.get k m).
Qed.

Lemma links_update_fresh x h m k :
  links (JsMap.update x (fun n => MemoryCache.set_next h (MemoryCache.set_prev None n)) m) k
  = if (x =? k)%string then option_map (fun _ => (None, h)) (links m k) else links m k.
Proof.
  unfold links. rewrite JsMap_get_update. destruct (x =? k)%string; [| reflexivity].
  now destruct (JsMap.get k m).
Qed.

Lemma links_delete x m k :
  links (JsMap.delete x m) k = if (x =? k)%string then None else links m k.
Proof.
  unfold links. rewrite JsMap_get_delete. now destruct (x =? k)%string.
Qed.

Lemma links_set x (n : MemoryCache.LRUNode V) m k :
  links (JsMap.set x n m) k
  = if (x =? k)%string then Some (MemoryCache.prev n, MemoryCache.next n) else links m k.
Proof.
  unfold links. rewrite JsMap_get_set. now destruct (x =? k)%string.
Qed.

Lemma seg_In p l q (lk : string -> option (option string * option string)) x :
  seg p l q lk -> In x l -> exists a b, lk x = Some (a, b).
Proof.
  revert p. induction l as [| k l IH]; intros p; [intros _ [] |].
  cbn. intros [H1 H2] [<- | Hin]; [eauto | eauto].
Qed.

(** *** The splice *)

Lemma unlink_head node c :
  MemoryCache.head (unlink node c)
  = match MemoryCache.prev node with
    | Some _ => MemoryCache.head c
    | None => MemoryCache.next node
    end.
Proof.
  unfold unlink. destruct (MemoryCache.prev node), (MemoryCache.next node); reflexivity.
Qed.

Lemma unlink_tail node c :
  MemoryCache.tail (unlink node c)
  = match MemoryCache.next node with
    | Some _ => MemoryCache.tail c
    | None => MemoryCache.prev node
    end.
Proof.
  unfold unlink. destruct (MemoryCache.prev node), (MemoryCache.next node); reflexivity.
Qed.

Lemma unlink_stats node c : MemoryCache.stats (unlink node c) = MemoryCache.stats c.
Proof.
  unfold unlink. destruct (MemoryCache.prev node), (MemoryCache.next node); reflexivity.
Qed.

Lemma unlink_keys node c :
  JsMap.keys (MemoryCache.cache (unlink node c)) = JsMap.keys (MemoryCache.cache c).
Proof.
  unfold unlink. destruct (MemoryCache.prev node), (MemoryCache.next node);
    cbn [MemoryCache.cache MemoryCache.with_cache MemoryCache.with_head
         MemoryCache.with_tail]; now rewrite ?JsMap_keys_update.
Qed.

Lemma unlink_links node c x :
  links (MemoryCache.cache (unlink node c)) x
  = option_map
      (fun ab => (if is_key (MemoryCache.next node) x then MemoryCache.prev node else fst ab,
                  if is_key (MemoryCache.prev node) x then MemoryCache.next node else snd ab))
      (links (MemoryCache.cache c) x).
Proof.
  unfold unlink. destruct (MemoryCache.prev node) as [p |], (MemoryCache.next node) as [n |];
    cbn [MemoryCache.cache MemoryCache.with_cache MemoryCache.with_head
         MemoryCache.with_tail is_key];
    rewrite ?links_update_prev, ?links_update_next;
    repeat match goal with
           | |- context [(?a =? ?b)%string] => destruct (a =? b)%string
           end;
    destruct (links (MemoryCache.cache c) x) as [[a b] |]; reflexivity.
Qed.

Lemma first_from_app_cons l1 k l2 l2' :
  l1 <> [] -> first_from None (l1 ++ k :: l2) = first_from None (l1 ++ l2').
Proof. destruct l1; [congruence | reflexivity]. Qed.

(** The node of [k] is spliced out of the list [l1 ++ k :: l2].  The store
    of [c] may already have dropped the node. *)
Lemma linked_unlink l1 k l2 (c0 c : MemoryCache.t V) node :
  linked (l1 ++ k :: l2) c0 ->
  (forall x, x <> k -> links (MemoryCache.cache c) x = links (MemoryCache.cache c0) x) ->
  MemoryCache.head c = MemoryCache.head c0 ->
  MemoryCache.tail c = MemoryCache.tail c0 ->
  links (MemoryCache.cache c0) k = Some (MemoryCache.prev node, MemoryCache.next node) ->
  linked (l1 ++ l2) (unlink node c).
Proof.
  intros (Hnd & Hh & Ht & Hseg) Hoff Hhead Htail Hk.
  destruct (seg_unlink l1 k l2 (links (MemoryCache.cache c0))
              (links (MemoryCache.cache (unlink node c))) Hnd Hseg) as [Hk' Hseg'].
  - intros x Hx.
    assert (Hxk : x <> k).
    { intros ->. exact (NoDup_remove_2 _ _ _ Hnd Hx). }
    assert (Hxl : In x (l1 ++ k :: l2)).
    { apply in_app_or in Hx. apply in_or_app. destruct Hx; [now left | right; now right]. }
    destruct (seg_In _ _ _ _ x Hseg Hxl) as (a & b & E).
    exists a, b. split; [exact E |].
    rewrite unlink_links, (Hoff x Hxk), E. cbn [option_map fst snd].
    assert (Hpn : MemoryCache.prev node = last_from None l1
                  /\ MemoryCache.next node = first_from None l2).
    { pose proof Hseg as Hseg0. apply seg_app in Hseg0.
      destruct Hseg0 as [_ [Hk2 _]]. rewrite Hk in Hk2.
      now injection Hk2 as -> ->. }
    destruct Hpn as [-> ->]. reflexivity.
  - rewrite Hk in Hk'. injection Hk' as Hp Hn.
    split; [exact (NoDup_remove_1 _ _ _ Hnd) |]. split; [| split; [| exact Hseg']].
    + rewrite unlink_head, Hhead, Hh, Hp, Hn.
      destruct (last_from None l1) as [p |] eqn:E.
      * apply first_from_app_cons. intros ->. discriminate.
      * apply last_from_None in E. now subst.
    + rewrite unlink_tail, Htail, Ht, Hp, Hn.
      destruct l2 as [| n l2]; cbn [first_from].
      * now rewrite app_nil_r.
      * now rewrite !last_from_app, !last_from_cons.
Qed.

(** *** A node is linked in front *)

Lemma addToHead_keys k c :
  JsMap.keys (MemoryCache.cache (MemoryCache.addToHead k c))
  = JsMap.keys (MemoryCache.cache c).
Proof.
  unfold MemoryCache.addToHead.
  destruct c as [m [h |] [tl |] st o ls d];
    cbn [MemoryCache.cache MemoryCache.head MemoryCache.tail MemoryCache.with_cache
         MemoryCache.with_head MemoryCache.with_tail];
    now rewrite ?JsMap_keys_update.
Qed.

Lemma addToHead_stats k c :
  MemoryCache.stats (MemoryCache.addToHead k c) = MemoryCache.stats c.
Proof.
  unfold MemoryCache.addToHead. now destruct c as [m [h |] [tl |] st o ls d].
Qed.

Lemma last_from_some_cons x y l : exists z, last_from x (y :: l) = Some z.
Proof.
  revert x y. induction l as [| w l IH]; intros x y; [now exists y |].
  rewrite last_from_cons. apply IH.
Qed.

Lemma linked_addToHead l k c :
  linked l c ->
  ~ In k l ->
  JsMap.get k (MemoryCache.cache c) <> None ->
  linked (k :: l) (MemoryCache.addToHead k c).
Proof.
  intros (Hnd & Hh & Ht & Hseg) Hnot Hget.
  assert (Hcache : forall x,
             links (MemoryCache.cache (MemoryCache.addToHead k c)) x
             = if (k =? x)%string
               then option_map (fun _ => (None, MemoryCache.head c))
                      (links (MemoryCache.cache c) x)
               else option_map
                      (fun ab => (if is_key (MemoryCache.head c) x then Some k else fst ab,
                                  snd ab))
                      (links (MemoryCache.cache c) x)).
  { intros x. unfold MemoryCache.addToHead.
    destruct c as [m [h |] tl st o ls d]; lru_simpl.
    - assert (Hhk : (h =? k)%string = false).
      { apply String.eqb_neq. intros ->. apply Hnot.
        destruct l as [| y l]; [discriminate |]. injection Hh as ->. now left. }
      destruct tl; lru_simpl;
        rewrite links_update_prev, links_update_fresh;
        destruct (k =? x)%string eqn:E1, (h =? x)%string eqn:E2;
        try (apply String.eqb_eq in E1, E2; subst; now rewrite String.eqb_refl in Hhk);
        destruct (links m x) as [[a b] |]; reflexivity.
    - destruct tl; lru_simpl;
        rewrite links_update_fresh;
        destruct (k =? x)%string; destruct (links m x) as [[a b] |]; reflexivity. }
  split; [now constructor |]. split; [| split].
  - unfold MemoryCache.addToHead. now destruct c as [m [h |] [tl |] st o ls d].
  - assert (Htl : MemoryCache.tail (MemoryCache.addToHead k c)
                  = match MemoryCache.tail c with
                    | Some t0 => Some t0
                    | None => Some k
                    end).
    { unfold MemoryCache.addToHead. now destruct c as [m [h |] [tl |] st o ls d]. }
    rewrite Htl, Ht, last_from_cons.
    destruct l as [| y l]; [reflexivity |].
    change (last_from (Some k) (y :: l)) with (last_from None (y :: l)).
    now destruct (last_from_some_cons None y l) as [z ->].
  - apply (seg_push k l (links (MemoryCache.cache c))); [exact Hnd | exact Hseg | |].
    + rewrite Hcache, String.eqb_refl, Hh. unfold links.
      destruct (JsMap.get k (MemoryCache.cache c)); [reflexivity | congruence].
    + intros x Hx. destruct (seg_In _ _ _ _ x Hseg Hx) as (a & b & E).
      exists a, b. split; [exact E |]. rewrite Hcache.
      destruct (String.eqb_spec k x) as [-> | _]; [contradiction |].
      rewrite E, Hh. reflexivity.
Qed.

End CacheLinks.

(** *** The operations keep the list *)

Section CacheInvariant.
Context {V : Type}.
Variable estimateObjectSize : V -> Z.
Implicit Types (m : JsMap.t (MemoryCache.LRUNode V)) (c : MemoryCache.t V).

Lemma linked_same l c c' :
  MemoryCache.cache c' = MemoryCache.cache c ->
  MemoryCache.head c' = MemoryCache.head c ->
  MemoryCache.tail c' = MemoryCache.tail c ->
  linked l c -> linked l c'.
Proof. unfold linked. now intros -> -> ->. Qed.

Lemma covers_same l c c' :
  MemoryCache.cache c' = MemoryCache.cache c -> covers l c -> covers l c'.
Proof. unfold covers. now intros ->. Qed.

Lemma cache_inv_same l c c' :
  MemoryCache.cache c' = MemoryCache.cache c ->
  MemoryCache.head c' = MemoryCache.head c ->
  MemoryCache.tail c' = MemoryCache.tail c ->
  MemoryCache.size (MemoryCache.stats c') = MemoryCache.size (MemoryCache.stats c) ->
  cache_inv l c -> cache_inv l c'.
Proof.
  intros Hc Hh Ht Hs (H1 & H2 & H3 & H4). split; [| split; [| split]].
  - now apply (linked_same l c).
  - now apply (covers_same l c).
  - unfold MemoryCache.keys_ok in *. now rewrite Hc.
  - now rewrite Hs.
Qed.

Lemma cache_inv_emitEvent l ev k c :
  cache_inv l c -> cache_inv l (MemoryCache.emitEvent ev k c).
Proof.
  apply cache_inv_same; unfold MemoryCache.emitEvent;
    now destruct (MemoryCache.eventListeners c).
Qed.

Lemma cache_inv_updateMemoryUsage l c :
  cache_inv l c -> cache_inv l (MemoryCache.updateMemoryUsage estimateObjectSize c).
Proof.
  apply cache_inv_same; unfold MemoryCache.updateMemoryUsage;
    now destruct (MemoryCache.enableStats (MemoryCache.options c)).
Qed.

Lemma cache_inv_incrementHits l c :
  cache_inv l c -> cache_inv l (MemoryCache.incrementHits c).
Proof.
  apply cache_inv_same; unfold MemoryCache.incrementHits;
    now destruct (MemoryCache.enableStats (MemoryCache.options c)).
Qed.

Lemma cache_inv_incrementMisses l c :
  cache_inv l c -> cache_inv l (MemoryCache.incrementMisses c).
Proof.
  apply cache_inv_same; unfold MemoryCache.incrementMisses;
    now destruct (MemoryCache.enableStats (MemoryCache.options c)).
Qed.

Lemma covers_In_get l c k :
  covers l c -> (In k l <-> JsMap.get k (MemoryCache.cache c) <> None).
Proof. intros [_ H]. rewrite H. apply JsMap_get_In_keys. Qed.

Lemma deleteNode_unlink node c :
  MemoryCache.deleteNode estimateObjectSize node c
  = MemoryCache.updateMemoryUsage estimateObjectSize
      (MemoryCache.with_stats
         (fun s => MemoryCache.mkStats (MemoryCache.hits s) (MemoryCache.misses s)
                     (MemoryCache.size s - 1) (MemoryCache.stats_maxSize s)
                     (MemoryCache.memoryUsage s))
         (unlink node (MemoryCache.with_cache (JsMap.delete (MemoryCache.key node)) c))).
Proof. reflexivity. Qed.

Lemma cache_inv_deleteNode l c k node :
  cache_inv l c ->
  JsMap.get k (MemoryCache.cache c) = Some node ->
  cache_inv (without k l) (MemoryCache.deleteNode estimateObjectSize node c).
Proof.
  intros (Hl & Hc & Hk & Hs) Hget.
  assert (Hkey : MemoryCache.key node = k) by exact (Hk _ _ Hget).
  assert (Hin : In k l) by (apply (covers_In_get l c k Hc); congruence).
  destruct (in_split _ _ Hin) as (l1 & l2 & ->).
  pose proof Hl as (Hnd & _).
  rewrite without_split by exact Hnd.
  split; [| split; [| split]].
  - rewrite deleteNode_unlink.
    apply (linked_same _ (unlink node
                            (MemoryCache.with_cache (JsMap.delete (MemoryCache.key node)) c)));
      try (unfold MemoryCache.updateMemoryUsage;
           now destruct (MemoryCache.enableStats _)).
    apply (linked_unlink l1 k l2 c); try reflexivity; [exact Hl | |].
    + intros x Hx. lru_simpl. rewrite Hkey, links_delete.
      destruct (String.eqb_spec k x); [congruence | reflexivity].
    + unfold links. now rewrite Hget.
  - destruct Hc as [Hn Hc]. rewrite deleteNode_unlink.
    assert (Hkeys : JsMap.keys
                      (MemoryCache.cache
                         (MemoryCache.updateMemoryUsage estimateObjectSize
                            (MemoryCache.with_stats
                               (fun s => MemoryCache.mkStats (MemoryCache.hits s)
                                           (MemoryCache.misses s) (MemoryCache.size s - 1)
                                           (MemoryCache.stats_maxSize s)
                                           (MemoryCache.memoryUsage s))
                               (unlink node
                                  (MemoryCache.with_cache
                                     (JsMap.delete (MemoryCache.key node)) c)))))
                    = JsMap.keys (JsMap.delete k (MemoryCache.cache c))).
    { unfold MemoryCache.updateMemoryUsage.
      destruct (MemoryCache.enableStats _); lru_simpl; rewrite unlink_keys; lru_simpl;
        now rewrite Hkey. }
    unfold covers. rewrite Hkeys. split; [now apply JsMap_NoDup_delete |].
    intros x. rewrite JsMap_keys_delete, filter_In, <- Hc.
    rewrite Bool.negb_true_iff, String.eqb_neq.
    pose proof (NoDup_remove_2 _ _ _ Hnd) as Hnot.
    split.
    + intros Hx. split.
      * apply in_app_or in Hx. apply in_or_app. destruct Hx; [now left | right; now right].
      * intros ->. contradiction.
    + intros [Hx Hne]. apply in_app_or in Hx. apply in_or_app.
      destruct Hx as [Hx | [Hx | Hx]]; [now left | congruence | now right].
  - now apply keys_ok_deleteNode.
  - rewrite deleteNode_unlink.
    assert (Hsz : MemoryCache.size
                    (MemoryCache.stats
                       (MemoryCache.updateMemoryUsage estimateObjectSize
                          (MemoryCache.with_stats
                             (fun s => MemoryCache.mkStats (MemoryCache.hits s)
                                         (MemoryCache.misses s) (MemoryCache.size s - 1)
                                         (MemoryCache.stats_maxSize s)
                                         (MemoryCache.memoryUsage s))
                             (unlink node
                                (MemoryCache.with_cache
                                   (JsMap.delete (MemoryCache.key node)) c)))))
                  = MemoryCache.size (MemoryCache.stats c) - 1).
    { unfold MemoryCache.updateMemoryUsage.
      destruct (MemoryCache.enableStats _); lru_simpl; rewrite unlink_stats; reflexivity. }
    rewrite Hsz, Hs, !length_app. cbn [List.length]. lia.
Qed.

Lemma moveToHead_unlink node c p :
  MemoryCache.prev node = Some p ->
  MemoryCache.moveToHead node c
  = MemoryCache.addToHead (MemoryCache.key node) (unlink node c).
Proof. intros H. unfold MemoryCache.moveToHead, unlink. now rewrite H. Qed.

Lemma moveToHead_stats node c :
  MemoryCache.stats (MemoryCache.moveToHead node c) = MemoryCache.stats c.
Proof.
  destruct (MemoryCache.prev node) as [p |] eqn:E.
  - rewrite (moveToHead_unlink node c p E), addToHead_stats. apply unlink_stats.
  - unfold MemoryCache.moveToHead. now rewrite E.
Qed.

Lemma moveToHead_keys node c :
  JsMap.keys (MemoryCache.cache (MemoryCache.moveToHead node c))
  = JsMap.keys (MemoryCache.cache c).
Proof.
  destruct (MemoryCache.prev node) as [p |] eqn:E.
  - rewrite (moveToHead_unlink node c p E), addToHead_keys. apply unlink_keys.
  - unfold MemoryCache.moveToHead. now rewrite E.
Qed.

(** [node] is the record read from the store before the entry was
    replaced: it has the key and the links of the node stored under [k]. *)
Lemma cache_inv_moveToHead l c k node :
  cache_inv l c ->
  MemoryCache.key node = k ->
  links (MemoryCache.cache c) k = Some (MemoryCache.prev node, MemoryCache.next node) ->
  cache_inv (k :: without k l) (MemoryCache.moveToHead node c).
Proof.
  intros (Hl & Hc & Hk & Hs) Hkey Hlinks.
  assert (Hget : JsMap.get k (MemoryCache.cache c) <> None).
  { unfold links in Hlinks. now destruct (JsMap.get k (MemoryCache.cache c)). }
  assert (Hin : In k l) by now apply (covers_In_get l c k Hc).
  destruct (in_split _ _ Hin) as (l1 & l2 & ->).
  pose proof Hl as (Hnd & Hh & Ht & Hseg).
  rewrite without_split by exact Hnd.
  assert (Hpn : MemoryCache.prev node = last_from None l1).
  { pose proof Hseg as Hseg0. apply seg_app in Hseg0. destruct Hseg0 as [_ [Hk2 _]].
    rewrite Hlinks in Hk2. now injection Hk2. }
  destruct (MemoryCache.prev node) as [p |] eqn:Hprev.
  - rewrite (moveToHead_unlink node c p Hprev), Hkey.
    assert (Hl' : linked (l1 ++ l2) (unlink node c)).
    { apply (linked_unlink l1 k l2 c); try reflexivity; [exact Hl |].
      now rewrite Hprev. }
    pose proof (NoDup_remove_2 _ _ _ Hnd) as Hnot.
    split; [| split; [| split]].
    + apply linked_addToHead; [exact Hl' | exact Hnot |].
      apply JsMap_get_In_keys. rewrite unlink_keys. now apply JsMap_get_In_keys.
    + destruct Hc as [Hn Hc]. unfold covers. rewrite addToHead_keys, unlink_keys.
      split; [exact Hn |]. intros x. rewrite <- Hc. cbn [In]. split.
      * intros [<- | Hx]; [exact Hin |].
        apply in_app_or in Hx. apply in_or_app. destruct Hx; [now left | right; now right].
      * intros Hx. apply in_app_or in Hx.
        destruct Hx as [Hx | [Hx | Hx]]; [right | now left | right];
          apply in_or_app; auto.
    + rewrite <- Hkey, <- (moveToHead_unlink node c p Hprev).
      now apply keys_ok_moveToHead.
    + rewrite addToHead_stats, unlink_stats, Hs, !length_app. cbn [List.length].
      rewrite length_app. lia.
  - symmetry in Hpn. apply last_from_None in Hpn. subst l1. cbn [app] in *.
    unfold MemoryCache.moveToHead. rewrite Hprev.
    split; [exact Hl | split; [exact Hc | split; [exact Hk | exact Hs]]].
Qed.

Lemma cache_inv_set_entry l c k e :
  cache_inv l c ->
  cache_inv l (MemoryCache.with_cache (JsMap.update k (MemoryCache.set_entry e)) c).
Proof.
  intros ((Hnd & Hh & Ht & Hseg) & (Hn & Hc) & Hk & Hs).
  split; [| split; [| split]].
  - split; [exact Hnd |]. split; [exact Hh |]. split; [exact Ht |].
    apply (seg_ext _ _ _ (links (MemoryCache.cache c))); [| exact Hseg].
    intros x _. lru_simpl. apply links_update_entry.
  - unfold covers. lru_simpl. rewrite JsMap_keys_update. now split.
  - intros k0 n0. lru_simpl. rewrite JsMap_get_update.
    destruct (k =? k0)%string; [| apply Hk].
    destruct (JsMap.get k0 (MemoryCache.cache c)) as [n1 |] eqn:G; [| discriminate].
    cbn [option_map]. intros [= <-]. lru_simpl. exact (Hk _ _ G).
  - exact Hs.
Qed.

Lemma cache_inv_insert l c k e :
  cache_inv l c ->
  JsMap.get k (MemoryCache.cache c) = None ->
  cache_inv (k :: l)
    (MemoryCache.with_stats
       (fun s => MemoryCache.mkStats (MemoryCache.hits s) (MemoryCache.misses s)
                   (MemoryCache.size s + 1) (MemoryCache.stats_maxSize s)
                   (MemoryCache.memoryUsage s))
       (MemoryCache.addToHead k
          (MemoryCache.with_cache (JsMap.set k (MemoryCache.mkNode k e None None)) c))).
Proof.
  intros ((Hnd & Hh & Ht & Hseg) & (Hn & Hc) & Hk & Hs) Hget.
  assert (Hnot : ~ In k l).
  { rewrite Hc, JsMap_get_In_keys. congruence. }
  set (c1 := MemoryCache.with_cache (JsMap.set k (MemoryCache.mkNode k e None None)) c).
  assert (Hl1 : linked l c1).
  { split; [exact Hnd |]. split; [exact Hh |]. split; [exact Ht |].
    apply (seg_ext _ _ _ (links (MemoryCache.cache c))); [| exact Hseg].
    intros x Hx. subst c1. lru_simpl. rewrite links_set.
    destruct (String.eqb_spec k x) as [-> | _]; [contradiction | reflexivity]. }
  assert (Hkeys1 : JsMap.keys (MemoryCache.cache c1)
                   = (JsMap.keys (MemoryCache.cache c) ++ [k])%list).
  { subst c1. lru_simpl. rewrite JsMap_keys_set. unfold JsMap.has. now rewrite Hget. }
  split; [| split; [| split]].
  - apply (linked_same _ (MemoryCache.addToHead k c1)); try reflexivity.
    apply linked_addToHead; [exact Hl1 | exact Hnot |].
    subst c1. lru_simpl. now rewrite JsMap_get_set_same.
  - unfold covers. lru_simpl. rewrite addToHead_keys, Hkeys1. split.
    + apply NoDup_app; [exact Hn | repeat constructor; intros [] |].
      intros x Hx [<- | []]. apply Hnot, Hc, Hx.
    + intros x. rewrite in_app_iff, <- Hc. cbn [In]. split.
      * intros [<- | Hx]; [right; now left | now left].
      * intros [Hx | [<- | []]]; [now right | now left].
  - assert (Hk1 : MemoryCache.keys_ok c1).
    { intros k0 n0. subst c1. lru_simpl. rewrite JsMap_get_set.
      destruct (String.eqb_spec k k0) as [-> | _]; [now intros [= <-] | apply Hk]. }
    pose proof (keys_ok_addToHead k c1 Hk1) as H.
    intros k0 n0. apply H.
  - lru_simpl. rewrite addToHead_stats. subst c1. lru_simpl.
    cbn [MemoryCache.size List.length]. rewrite Hs. lia.
Qed.

Lemma removelast_without l x : NoDup (l ++ [x]) -> without x (l ++ [x]) = l.
Proof.
  intros H. rewrite (without_split x l []) by exact H. apply app_nil_r.
Qed.

Lemma cache_inv_evictLRU l c :
  cache_inv l c ->
  cache_inv (removelast l) (MemoryCache.evictLRU estimateObjectSize c).
Proof.
  intros H. pose proof H as ((Hnd & Hh & Ht & Hseg) & Hc & Hk & Hs).
  unfold MemoryCache.evictLRU. rewrite Ht.
  destruct (last_from None l) as [tl |] eqn:E.
  - destruct (last_from_Some_split l tl E) as [l' ->].
    rewrite removelast_last.
    destruct (JsMap.get tl (MemoryCache.cache c)) as [lru |] eqn:G.
    + apply cache_inv_emitEvent.
      rewrite <- (removelast_without l' tl Hnd).
      now apply cache_inv_deleteNode.
    + exfalso. apply (proj1 (covers_In_get _ c tl Hc)); [| exact G].
      apply in_or_app. right. now left.
  - apply last_from_None in E. subst l. exact H.
Qed.

(** *** The public operations *)

Lemma removelast_In (l : list string) x : In x (removelast l) -> In x l.
Proof.
  destruct l as [| y l] using rev_ind; [intros [] |].
  rewrite removelast_last. intros H. apply in_or_app. now left.
Qed.

Lemma removelast_length (l : list string) :
  l <> [] -> S (List.length (removelast l)) = List.length l.
Proof.
  destruct l as [| y l] using rev_ind; [congruence |]. intros _.
  rewrite removelast_last, length_app. cbn. lia.
Qed.

Lemma covers_length l c :
  NoDup l -> covers l c -> List.length l = List.length (MemoryCache.cache c).
Proof.
  intros Hnd [Hn Hc].
  rewrite <- (length_map fst (MemoryCache.cache c)).
  apply Permutation_length, NoDup_Permutation; assumption.
Qed.

Lemma cache_inv_size l c :
  cache_inv l c -> JsMap.size (MemoryCache.cache c) = Z.of_nat (List.length l).
Proof.
  intros ((Hnd & _) & Hc & _). unfold JsMap.size. f_equal. symmetry.
  now apply covers_length.
Qed.

Lemma cache_inv_set l c k v o_ttl now :
  cache_inv l c ->
  cache_inv (list_after_set k l c) (MemoryCache.set estimateObjectSize k v o_ttl now c).
Proof.
  intros H. unfold MemoryCache.set, list_after_set, MemoryCache.present, JsMap.has.
  apply cache_inv_emitEvent, cache_inv_updateMemoryUsage.
  destruct (JsMap.get k (MemoryCache.cache c)) as [existing |] eqn:G.
  - pose proof H as (_ & _ & Hk & _).
    assert (Hkey : MemoryCache.key existing = k) by exact (Hk _ _ G).
    apply cache_inv_moveToHead; [| exact Hkey |].
    + now apply cache_inv_set_entry.
    + lru_simpl. rewrite links_update_entry. unfold links. now rewrite G.
  - set (c1 := if MemoryCache.maxSize (MemoryCache.options c)
                  <=? JsMap.size (MemoryCache.cache c)
               then MemoryCache.evictLRU estimateObjectSize c else c).
    set (l1 := if MemoryCache.maxSize (MemoryCache.options c)
                  <=? JsMap.size (MemoryCache.cache c)
               then removelast l else l).
    assert (H1 : cache_inv l1 c1).
    { subst c1 l1. destruct (_ <=? _); [now apply cache_inv_evictLRU | exact H]. }
    assert (Hsub : forall x, In x l1 -> In x l).
    { subst l1. destruct (_ <=? _); [apply removelast_In | auto]. }
    apply cache_inv_insert; [exact H1 |].
    destruct (JsMap.get k (MemoryCache.cache c1)) eqn:G1; [| reflexivity].
    exfalso. pose proof H as (_ & Hc & _). pose proof H1 as (_ & Hc1 & _).
    assert (Hin : In k l1) by (apply (covers_In_get l1 c1 k Hc1); congruence).
    apply Hsub in Hin. apply (covers_In_get l c k Hc) in Hin. congruence.
Qed.

Lemma cache_inv_get l c k now :
  cache_inv l c ->
  cache_inv (list_after_get k now l c) (fst (MemoryCache.get estimateObjectSize k now c)).
Proof.
  intros H. unfold MemoryCache.get, list_after_get.
  destruct (JsMap.get k (MemoryCache.cache c)) as [node |] eqn:G.
  - destruct (MemoryCache.isExpired now (MemoryCache.entry node)); cbn [fst].
    + apply cache_inv_emitEvent, cache_inv_incrementMisses.
      now apply cache_inv_deleteNode.
    + apply cache_inv_emitEvent, cache_inv_incrementHits.
      pose proof H as (_ & _ & Hk & _).
      assert (Hkey : MemoryCache.key node = k) by exact (Hk _ _ G).
      apply cache_inv_moveToHead; [| exact Hkey |].
      * now apply cache_inv_set_entry.
      * lru_simpl. rewrite links_update_entry. unfold links. now rewrite G.
  - cbn [fst]. now apply cache_inv_emitEvent, cache_inv_incrementMisses.
Qed.

Lemma cache_inv_has l c k now :
  cache_inv l c ->
  cache_inv (match JsMap.get k (MemoryCache.cache c) with
             | None => l
             | Some node =>
                 if MemoryCache.isExpired now (MemoryCache.entry node)
                 then without k l else l
             end)
    (fst (MemoryCache.has estimateObjectSize k now c)).
Proof.
  intros H. unfold MemoryCache.has.
  destruct (JsMap.get k (MemoryCache.cache c)) as [node |] eqn:G; [| exact H].
  destruct (MemoryCache.isExpired now (MemoryCache.entry node)); cbn [fst]; [| exact H].
  now apply cache_inv_deleteNode.
Qed.

Lemma cache_inv_delete l c k :
  cache_inv l c ->
  cache_inv (without k l) (fst (MemoryCache.delete estimateObjectSize k c)).
Proof.
  intros H. unfold MemoryCache.delete.
  destruct (JsMap.get k (MemoryCache.cache c)) as [node |] eqn:G; cbn [fst].
  - now apply cache_inv_emitEvent, cache_inv_deleteNode.
  - rewrite without_notin; [exact H |].
    destruct H as (_ & Hc & _). rewrite (covers_In_get l c k Hc). congruence.
Qed.

Lemma cache_inv_empty st o ls d :
  MemoryCache.size st = 0 ->
  cache_inv [] (@MemoryCache.mk V JsMap.empty None None st o ls d).
Proof.
  intros Hs. split; [| split; [| split]].
  - split; [constructor |]. repeat split.
  - split; [constructor |]. intros k. cbn. tauto.
  - intros k n. discriminate.
  - exact Hs.
Qed.

Lemma cache_inv_clear c : cache_inv [] (MemoryCache.clear c).
Proof.
  unfold MemoryCache.clear. apply cache_inv_emitEvent. now apply cache_inv_empty.
Qed.

Lemma cache_inv_new o_ttl o_max o_stats :
  cache_inv [] (@MemoryCache.new V o_ttl o_max o_stats).
Proof. unfold MemoryCache.new. now apply cache_inv_empty. Qed.

Lemma cache_inv_cleanup_fold (ks : list string) :
  forall l c,
    cache_inv l c ->
    exists l',
      cache_inv l'
        (fold_left (fun c k =>
                      match JsMap.get k (MemoryCache.cache c) with
                      | Some node =>
                          MemoryCache.emitEvent MemoryCache.ev_expired k
                            (MemoryCache.deleteNode estimateObjectSize node c)
                      | None => c
                      end) ks c)
      /\ (forall x, In x l' -> In x l).
Proof.
  induction ks as [| k ks IH]; intros l c H.
  - exists l. split; [exact H | auto].
  - cbn [fold_left].
    destruct (JsMap.get k (MemoryCache.cache c)) as [node |] eqn:G.
    + destruct (IH (without k l)
                  (MemoryCache.emitEvent MemoryCache.ev_expired k
                     (MemoryCache.deleteNode estimateObjectSize node c)))
        as (l' & H' & Hsub).
      * now apply cache_inv_emitEvent, cache_inv_deleteNode.
      * exists l'. split; [exact H' |]. intros x Hx. apply Hsub in Hx.
        now apply without_In in Hx.
    + now apply IH.
Qed.

Lemma cache_inv_cleanupExpired l c now :
  cache_inv l c ->
  exists l',
    cache_inv l' (fst (MemoryCache.cleanupExpired estimateObjectSize now c))
    /\ (forall x, In x l' -> In x l).
Proof. intros H. unfold MemoryCache.cleanupExpired. cbn [fst]. now apply cache_inv_cleanup_fold. Qed.

(** *** The options never change *)

Lemma options_emitEvent ev k c :
  MemoryCache.options (MemoryCache.emitEvent ev k c) = MemoryCache.options c.
Proof. unfold MemoryCache.emitEvent. now destruct (MemoryCache.eventListeners c). Qed.

Lemma options_updateMemoryUsage c :
  MemoryCache.options (MemoryCache.updateMemoryUsage estimateObjectSize c)
  = MemoryCache.options c.
Proof.
  unfold MemoryCache.updateMemoryUsage.
  now destruct (MemoryCache.enableStats (MemoryCache.options c)).
Qed.

Lemma options_incrementHits c :
  MemoryCache.options (MemoryCache.incrementHits c) = MemoryCache.options c.
Proof.
  unfold MemoryCache.incrementHits.
  now destruct (MemoryCache.enableStats (MemoryCache.options c)).
Qed.

Lemma options_incrementMisses c :
  MemoryCache.options (MemoryCache.incrementMisses c) = MemoryCache.options c.
Proof.
  unfold MemoryCache.incrementMisses.
  now destruct (MemoryCache.enableStats (MemoryCache.options c)).
Qed.

Lemma options_unlink node c :
  MemoryCache.options (unlink node c) = MemoryCache.options c.
Proof.
  unfold unlink. now destruct (MemoryCache.prev node), (MemoryCache.next node).
Qed.

Lemma options_deleteNode node c :
  MemoryCache.options (MemoryCache.deleteNode estimateObjectSize node c)
  = MemoryCache.options c.
Proof.
  rewrite deleteNode_unlink, options_updateMemoryUsage. lru_simpl.
  now rewrite options_unlink.
Qed.

Lemma options_addToHead k c :
  MemoryCache.options (MemoryCache.addToHead k c) = MemoryCache.options c.
Proof.
  unfold MemoryCache.addToHead. now destruct c as [m [h |] [tl |] st o ls d].
Qed.

Lemma options_moveToHead node c :
  MemoryCache.options (MemoryCache.moveToHead node c) = MemoryCache.options c.
Proof.
  destruct (MemoryCache.prev node) as [p |] eqn:E.
  - rewrite (moveToHead_unlink node c p E), options_addToHead. apply options_unlink.
  - unfold MemoryCache.moveToHead. now rewrite E.
Qed.

Lemma options_evictLRU c :
  MemoryCache.options (MemoryCache.evictLRU estimateObjectSize c) = MemoryCache.options c.
Proof.
  unfold MemoryCache.evictLRU. destruct (MemoryCache.tail c); [| reflexivity].
  destruct (JsMap.get _ _); [| reflexivity].
  now rewrite options_emitEvent, options_deleteNode.
Qed.

Lemma options_set k v o_ttl now c :
  MemoryCache.options (MemoryCache.set estimateObjectSize k v o_ttl now c)
  = MemoryCache.options c.
Proof.
  unfold MemoryCache.set. rewrite options_emitEvent, options_updateMemoryUsage.
  destruct (JsMap.get k (MemoryCache.cache c)).
  - now rewrite options_moveToHead.
  - lru_simpl. rewrite options_addToHead. lru_simpl.
    destruct (_ <=? _); [apply options_evictLRU | reflexivity].
Qed.

Lemma options_get k now c :
  MemoryCache.options (fst (MemoryCache.get estimateObjectSize k now c))
  = MemoryCache.options c.
Proof.
  unfold MemoryCache.get. destruct (JsMap.get k (MemoryCache.cache c)).
  - destruct (MemoryCache.isExpired _ _); cbn [fst].
    + now rewrite options_emitEvent, options_incrementMisses, options_deleteNode.
    + now rewrite options_emitEvent, options_incrementHits, options_moveToHead.
  - cbn [fst]. now rewrite options_emitEvent, options_incrementMisses.
Qed.

Lemma options_has k now c :
  MemoryCache.options (fst (MemoryCache.has estimateObjectSize k now c))
  = MemoryCache.options c.
Proof.
  unfold MemoryCache.has. destruct (JsMap.get k (MemoryCache.cache c)); [| reflexivity].
  destruct (MemoryCache.isExpired _ _); cbn [fst]; [apply options_deleteNode | reflexivity].
Qed.

Lemma options_delete k c :
  MemoryCache.options (fst (MemoryCache.delete estimateObjectSize k c))
  = MemoryCache.options c.
Proof.
  unfold MemoryCache.delete. destruct (JsMap.get k (MemoryCache.cache c)); [| reflexivity].
  cbn [fst]. now rewrite options_emitEvent, options_deleteNode.
Qed.

Lemma options_clear c : MemoryCache.options (MemoryCache.clear c) = MemoryCache.options c.
Proof. unfold MemoryCache.clear. now rewrite options_emitEvent. Qed.

Lemma options_cleanupExpired now c :
  MemoryCache.options (fst (MemoryCache.cleanupExpired estimateObjectSize now c))
  = MemoryCache.options c.
Proof.
  unfold MemoryCache.cleanupExpired. cbn [fst].
  generalize (JsMap.keys
                (filter (fun kn => MemoryCache.isExpired now (MemoryCache.entry (snd kn)))
                        (MemoryCache.cache c))).
  intros ks. revert c. induction ks as [| k ks IH]; intros c; [reflexivity |].
  cbn [fold_left]. rewrite IH.
  destruct (JsMap.get k (MemoryCache.cache c)); [| reflexivity].
  now rewrite options_emitEvent, options_deleteNode.
Qed.

(** *** Every cache that can be observed *)

Lemma NoDup_incl_le (l l' : list string) :
  NoDup l' -> (forall x, In x l' -> In x l) -> (List.length l' <= List.length l)%nat.
Proof. intros Hnd Hsub. now apply NoDup_incl_length. Qed.

Lemma reachable_cache_inv c :
  MemoryCache.reachable estimateObjectSize c ->
  exists l,
    cache_inv l c
    /\ (1 <= MemoryCache.maxSize (MemoryCache.options c) ->
        Z.of_nat (List.length l) <= MemoryCache.maxSize (MemoryCache.options c)).
Proof.
  induction 1 as [o_ttl o_max o_stats
                 | k v o_ttl now c Hr (l & H & Hb)
                 | k now c Hr (l & H & Hb)
                 | k now c Hr (l & H & Hb)
                 | k c Hr (l & H & Hb)
                 | c Hr (l & H & Hb)
                 | now c Hr (l & H & Hb)
                 | ls c Hr (l & H & Hb)
                 | ls c Hr (l & H & Hb)].
  - exists []. split; [apply cache_inv_new |]. cbn [List.length]. lia.
  - exists (list_after_set k l c). split; [now apply cache_inv_set |].
    rewrite options_set. intros Hmax. specialize (Hb Hmax).
    pose proof H as ((Hnd & _) & Hc & _).
    unfold list_after_set. rewrite (cache_inv_size l c H).
    destruct (MemoryCache.present k c) eqn:P.
    + assert (Hin : In k l).
      { apply (covers_In_get l c k Hc). unfold MemoryCache.present, JsMap.has in P.
        destruct (JsMap.get k (MemoryCache.cache c)); congruence. }
      pose proof (without_length k l Hnd Hin). cbn [List.length]. lia.
    + destruct (Z.leb_spec (MemoryCache.maxSize (MemoryCache.options c))
                  (Z.of_nat (List.length l))).
      * assert (Hne : l <> []) by (intros ->; cbn in *; lia).
        pose proof (removelast_length l Hne). cbn [List.length]. lia.
      * cbn [List.length]. lia.
  - exists (list_after_get k now l c). split; [now apply cache_inv_get |].
    rewrite options_get. intros Hmax. specialize (Hb Hmax).
    pose proof H as ((Hnd & _) & Hc & _). unfold list_after_get.
    destruct (JsMap.get k (MemoryCache.cache c)) as [node |] eqn:G; [| exact Hb].
    assert (Hin : In k l) by (apply (covers_In_get l c k Hc); congruence).
    pose proof (without_length k l Hnd Hin).
    destruct (MemoryCache.isExpired _ _); cbn [List.length]; lia.
  - exists (match JsMap.get k (MemoryCache.cache c) with
            | None => l
            | Some node =>
                if MemoryCache.isExpired now (MemoryCache.entry node)
                then without k l else l
            end).
    split; [now apply cache_inv_has |].
    rewrite options_has. intros Hmax. specialize (Hb Hmax).
    pose proof H as ((Hnd & _) & Hc & _).
    destruct (JsMap.get k (MemoryCache.cache c)) as [node |] eqn:G; [| exact Hb].
    assert (Hin : In k l) by (apply (covers_In_get l c k Hc); congruence).
    pose proof (without_length k l Hnd Hin).
    destruct (MemoryCache.isExpired _ _); cbn [List.length]; lia.
  - exists (without k l). split; [now apply cache_inv_delete |].
    rewrite options_delete. intros Hmax. specialize (Hb Hmax).
    pose proof H as ((Hnd & _) & _).
    pose proof (NoDup_incl_le l (without k l) (without_NoDup k l Hnd)
                  (fun x Hx => proj1 (proj1 (without_In k l x) Hx))). lia.
  - exists []. split; [apply cache_inv_clear |]. cbn [List.length]. lia.
  - destruct (cache_inv_cleanupExpired l c now H) as (l' & H' & Hsub).
    exists l'. split; [exact H' |].
    rewrite options_cleanupExpired. intros Hmax. specialize (Hb Hmax).
    pose proof H' as ((Hnd' & _) & _).
    pose proof (NoDup_incl_le l l' Hnd' Hsub). lia.
  - exists l. split; [| exact Hb]. revert H. now apply cache_inv_same.
  - exists l. split; [| exact Hb]. revert H. now apply cache_inv_same.
Qed.

(** *** The list read off the nodes *)






End CacheInvariant.




(** ** The entries of the cache *)

Section CacheEntries.
Context {V : Type}.
Variable estimateObjectSize : V -> Z.
Implicit Types (c : MemoryCache.t V).

(** X28.  An entry that was just stored is returned by a [get] for its key as long as its time to
    live has not run out, whatever the cache held before and whatever the [set] evicted. *)
Theorem set_then_get_returns_value c k v o_ttl now now' :
  MemoryCache.reachable estimateObjectSize c ->
  now' <= now + (match o_ttl with
                 | Some s => s
                 | None => MemoryCache.defaultTtl (MemoryCache.options c)
                 end) * 1000 ->
  snd (MemoryCache.get estimateObjectSize k now'
         (MemoryCache.set estimateObjectSize k v o_ttl now c)) = Some v.
Proof.
  intros Hr Hle.
  pose proof (entry_at_set estimateObjectSize k v o_ttl now c
                (reachable_keys_ok estimateObjectSize c Hr)) as He.
  cbv beta iota zeta in He. unfold MemoryCache.entry_at in He.
  unfold MemoryCache.get.
  destruct (JsMap.get k (MemoryCache.cache
                           (MemoryCache.set estimateObjectSize k v o_ttl now c)))
    as [node |]; [| discriminate].
  cbn [option_map] in He. injection He as He. rewrite He.
  unfold MemoryCache.isExpired. cbn [MemoryCache.expiresAt MemoryCache.value].
  destruct (Z.ltb_spec (now + (match o_ttl with
                               | Some s => s
                               | None => MemoryCache.defaultTtl (MemoryCache.options c)
                               end) * 1000) now'); [lia | reflexivity].
Qed.

(** *** Entries under the removal of a node *)

Lemma entry_at_unlink k node c :
  MemoryCache.entry_at k (unlink node c) = MemoryCache.entry_at k c.
Proof.
  unfold unlink.
  destruct (MemoryCache.prev node) as [p |], (MemoryCache.next node) as [n |];
    try reflexivity.
  - rewrite entry_at_update by apply keeps_entry_set_prev.
    apply entry_at_update, keeps_entry_set_next.
  - change (MemoryCache.entry_at k
              (MemoryCache.with_cache (JsMap.update p (MemoryCache.set_next None)) c)
            = MemoryCache.entry_at k c).
    apply entry_at_update, keeps_entry_set_next.
  - change (MemoryCache.entry_at k
              (MemoryCache.with_cache (JsMap.update n (MemoryCache.set_prev None)) c)
            = MemoryCache.entry_at k c).
    apply entry_at_update, keeps_entry_set_prev.
Qed.

Lemma entry_at_deleteNode k node c :
  MemoryCache.entry_at k (MemoryCache.deleteNode estimateObjectSize node c)
  = if (MemoryCache.key node =? k)%string then None else MemoryCache.entry_at k c.
Proof.
  rewrite deleteNode_unlink, entry_at_updateMemoryUsage.
  change (MemoryCache.entry_at k (MemoryCache.with_stats ?f ?c0))
    with (MemoryCache.entry_at k c0).
  rewrite entry_at_unlink. unfold MemoryCache.entry_at. lru_simpl.
  rewrite JsMap_get_delete. now destruct (MemoryCache.key node =? k)%string.
Qed.

(** X29.  [delete] reports whether the key was stored, leaves the key absent and every other
    entry as it was. *)
Theorem delete_removes_only_that_key c k :
  MemoryCache.reachable estimateObjectSize c ->
  let res := MemoryCache.delete estimateObjectSize k c in
  snd res = MemoryCache.present k c
  /\ MemoryCache.present k (fst res) = false
  /\ forall k', k' <> k ->
                MemoryCache.entry_at k' (fst res) = MemoryCache.entry_at k' c.
Proof.
  intros Hr. pose proof (reachable_keys_ok estimateObjectSize c Hr) as Hk.
  cbv zeta. unfold MemoryCache.delete, MemoryCache.present, JsMap.has.
  destruct (JsMap.get k (MemoryCache.cache c)) as [node |] eqn:G; cbn [fst snd].
  - pose proof (Hk _ _ G) as Hkey.
    split; [reflexivity |]. split.
    + pose proof (entry_at_deleteNode k node c) as E.
      rewrite Hkey, String.eqb_refl in E.
      pose proof (entry_at_emitEvent k MemoryCache.ev_delete k
                    (MemoryCache.deleteNode estimateObjectSize node c)) as E'.
      rewrite E in E'. unfold MemoryCache.entry_at in E'.
      match goal with
      | |- match ?g with Some _ => true | None => false end = false =>
          destruct g; [discriminate E' | reflexivity]
      end.
    + intros k' Hne. rewrite entry_at_emitEvent, entry_at_deleteNode, Hkey.
      destruct (String.eqb_spec k k'); [congruence | reflexivity].
  - split; [reflexivity |]. split; [now rewrite G | reflexivity].
Qed.

(** *** The sweep of the expired entries *)

Lemma cleanup_fold_entry_at k (ks : list string) :
  forall c,
    MemoryCache.keys_ok c ->
    MemoryCache.entry_at k
      (fold_left (fun c k0 =>
                    match JsMap.get k0 (MemoryCache.cache c) with
                    | Some node =>
                        MemoryCache.emitEvent MemoryCache.ev_expired k0
                          (MemoryCache.deleteNode estimateObjectSize node c)
                    | None => c
                    end) ks c)
    = if includes k ks then None else MemoryCache.entry_at k c.
Proof.
  induction ks as [| k0 ks IH]; intros c Hk; [reflexivity |].
  cbn [fold_left includes existsb]. fold (includes k ks).
  destruct (JsMap.get k0 (MemoryCache.cache c)) as [node |] eqn:G.
  - rewrite IH by now apply keys_ok_emitEvent, keys_ok_deleteNode.
    rewrite entry_at_emitEvent, entry_at_deleteNode, (Hk _ _ G).
    rewrite (String.eqb_sym k0 k).
    destruct (k =? k0)%string; cbn [orb]; now destruct (includes k ks).
  - rewrite IH by exact Hk.
    destruct (String.eqb_spec k k0) as [-> | _]; cbn [orb]; [| reflexivity].
    unfold MemoryCache.entry_at. rewrite G. now destruct (includes k0 ks).
Qed.

Lemma expired_keys_includes now k (m : JsMap.t (MemoryCache.LRUNode V)) :
  NoDup (JsMap.keys m) ->
  includes k (JsMap.keys
                (filter (fun kn => MemoryCache.isExpired now (MemoryCache.entry (snd kn))) m))
  = match JsMap.get k m with
    | Some node => MemoryCache.isExpired now (MemoryCache.entry node)
    | None => false
    end.
Proof.
  unfold JsMap.keys.
  induction m as [| [k0 n0] m IH]; intros Hnd; [reflexivity |].
  inversion Hnd as [| ? ? Hnot Hnd']; subst. cbn [filter snd JsMap.get].
  destruct (String.eqb_spec k k0) as [-> | Hne].
  - destruct (MemoryCache.isExpired now (MemoryCache.entry n0)) eqn:E.
    + cbn [map fst includes existsb]. now rewrite String.eqb_refl.
    + destruct (includes k0 _) eqn:I; [| reflexivity].
      exfalso. apply includes_In in I. apply Hnot.
      apply in_map_iff in I. destruct I as (kn & Ek & Hin).
      apply filter_In in Hin. apply in_map_iff. exists kn. tauto.
  - destruct (MemoryCache.isExpired now (MemoryCache.entry n0)).
    + cbn [map fst includes existsb]. fold (includes k (map fst
        (filter (fun kn => MemoryCache.isExpired now (MemoryCache.entry (snd kn))) m))).
      rewrite (proj2 (String.eqb_neq k k0) Hne). cbn [orb]. now apply IH.
    + now apply IH.
Qed.

(** X30.  [cleanupExpired] removes exactly the entries that have expired: afterwards a key holds
    its entry if it held one that has not expired, and nothing otherwise; the number it
    returns is the number of entries removed. *)
Theorem cleanupExpired_removes_exactly_the_expired c now :
  MemoryCache.reachable estimateObjectSize c ->
  let res := MemoryCache.cleanupExpired estimateObjectSize now c in
  (forall k,
     MemoryCache.entry_at k (fst res)
     = match MemoryCache.entry_at k c with
       | Some e => if MemoryCache.isExpired now e then None else Some e
       | None => None
       end)
  /\ snd res = MemoryCache.getSize c - MemoryCache.getSize (fst res).
Proof.
  intros Hr. pose proof (reachable_keys_ok estimateObjectSize c Hr) as Hk.
  destruct (reachable_cache_inv estimateObjectSize c Hr) as (l & H & _).
  pose proof H as (_ & (Hn & _) & _).
  cbv zeta.
  assert (Hentries : forall k,
             MemoryCache.entry_at k
               (fst (MemoryCache.cleanupExpired estimateObjectSize now c))
             = match MemoryCache.entry_at k c with
               | Some e => if MemoryCache.isExpired now e then None else Some e
               | None => None
               end).
  { intros k. unfold MemoryCache.cleanupExpired. cbn [fst].
    rewrite cleanup_fold_entry_at by exact Hk.
    rewrite expired_keys_includes by exact Hn.
    unfold MemoryCache.entry_at.
    destruct (JsMap.get k (MemoryCache.cache c)) as [node |]; [| reflexivity].
    cbn [option_map]. now destruct (MemoryCache.isExpired now (MemoryCache.entry node)). }
  split; [exact Hentries |].
  (* the count *)
  pose proof (MemoryCache.reach_cleanupExpired estimateObjectSize now c Hr) as Hr'.
  destruct (reachable_cache_inv estimateObjectSize _ Hr') as (l' & H' & _).
  pose proof H' as (_ & (Hn' & _) & _).
  unfold MemoryCache.getSize, JsMap.size.
  set (c' := fst (MemoryCache.cleanupExpired estimateObjectSize now c)) in *.
  assert (Hkeys : Permutation (JsMap.keys (MemoryCache.cache c'))
                    (JsMap.keys
                       (filter (fun kn => negb (MemoryCache.isExpired now
                                                  (MemoryCache.entry (snd kn))))
                               (MemoryCache.cache c)))).
  { apply NoDup_Permutation; [exact Hn' | |].
    - now apply JsMap_NoDup_filter.
    - intros k. rewrite JsMap_get_In_keys.
      specialize (Hentries k). unfold MemoryCache.entry_at in Hentries.
      unfold JsMap.keys. rewrite in_map_iff. split.
      + intros Hg.
        destruct (JsMap.get k (MemoryCache.cache c')) as [n' |] eqn:G'; [| congruence].
        destruct (JsMap.get k (MemoryCache.cache c)) as [n |] eqn:G; [| discriminate].
        cbn [option_map] in Hentries.
        destruct (MemoryCache.isExpired now (MemoryCache.entry n)) eqn:E; [discriminate |].
        exists (k, n). split; [reflexivity |]. apply filter_In.
        split; [now apply JsMap_get_In | cbn; now rewrite E].
      + intros ([k0 n] & Ek & Hin). cbn in Ek. subst k0.
        apply filter_In in Hin. destruct Hin as [Hin E]. cbn in E.
        apply (JsMap_In_get _ _ _ Hn) in Hin. rewrite Hin in Hentries.
        cbn [option_map] in Hentries. apply Bool.negb_true_iff in E.
        rewrite E in Hentries.
        destruct (JsMap.get k (MemoryCache.cache c')); [discriminate | discriminate]. }
  apply Permutation_length in Hkeys. unfold JsMap.keys in Hkeys.
  rewrite !length_map in Hkeys. rewrite Hkeys.
  unfold MemoryCache.cleanupExpired. cbn [snd]. unfold JsMap.keys. rewrite length_map.
  pose proof (filter_length (fun kn => MemoryCache.isExpired now (MemoryCache.entry (snd kn)))
                (MemoryCache.cache c)) as Hf.
  lia.
Qed.

End CacheEntries.

Lemma set_then_get_returns_value_witness :
  snd (MemoryCache.get string_size "token:lovelace" 301000
         (MemoryCache.set string_size "token:lovelace" "ADA" None 1000
            (MemoryCache.new None None None))) = Some "ADA".
Proof.
  apply (set_then_get_returns_value string_size (MemoryCache.new None None None)).
  - apply MemoryCache.reach_new.
  - cbn. lia.
Defined.

Lemma delete_removes_only_that_key_witness :
  let c := MemoryCache.set string_size "b" "2" None 20
             (MemoryCache.set string_size "a" "1" None 10
                (MemoryCache.new None None None)) in
  let res := MemoryCache.delete string_size "a" c in
  snd res = MemoryCache.present "a" c
  /\ MemoryCache.present "a" (fst res) = false
  /\ forall k', k' <> "a" ->
                MemoryCache.entry_at k' (fst res) = MemoryCache.entry_at k' c.
Proof.
  intros c. apply (delete_removes_only_that_key string_size c "a").
  repeat apply MemoryCache.reach_set. apply MemoryCache.reach_new.
Defined.

Lemma cleanupExpired_removes_exactly_the_expired_witness :
  let c := MemoryCache.set string_size "b" "2" (Some 60) 20
             (MemoryCache.set string_size "a" "1" (Some 1) 10
                (MemoryCache.new None None None)) in
  let res := MemoryCache.cleanupExpired string_size 5000 c in
  (forall k,
     MemoryCache.entry_at k (fst res)
     = match MemoryCache.entry_at k c with
       | Some e => if MemoryCache.isExpired 5000 e then None else Some e
       | None => None
       end)
  /\ snd res = MemoryCache.getSize c - MemoryCache.getSize (fst res).
Proof.
  intros c. apply (cleanupExpired_removes_exactly_the_expired string_size c 5000).
  repeat apply MemoryCache.reach_set. apply MemoryCache.reach_new.
Defined.
